(** * A shallow embedding of tinygrad's python uops emulator

    Source: [tinygrad/runtime/ops_python.py].  The interpreter
    [PythonProgram.__call__] walks a flat list of uops once per point of
    the global iteration space; every uop produces one python list of
    per-lane values.  Python lists and bytearrays are mutable objects that
    the interpreter aliases freely ([ASSIGN] writes into the list of an
    accumulator, [VECTORIZE] keeps its operands' lists), so the embedding
    carries an explicit object store: [heap] for list objects and [mem] for
    bytearrays, both addressed by allocation index. *)

From Stdlib Require Import ZArith List String Ascii Bool Lia QArith.
From Stdlib Require Import Floats.SpecFloat.
From stdpp Require Import base gmap list strings.

Open Scope Z_scope.

(** ** Exceptions and the result monad *)

Inductive PyErr :=
| IndexError | KeyError | AssertionError | TypeError | ValueError
| StructError | OverflowError | ExternalError.

Inductive Res (A : Type) :=
| Ok (a : A)
| Raise (e : PyErr).
Arguments Ok {A} a.
Arguments Raise {A} e.

#[global] Instance Res_ret : MRet Res := @Ok.
#[global] Instance Res_bind : MBind Res :=
  λ A B f m, match m with Ok a => f a | Raise e => Raise e end.

Definition assert_ (b : bool) (e : PyErr) : Res unit :=
  if b then Ok tt else Raise e.

Definition is_ok {A} (r : Res A) : bool :=
  match r with Ok _ => true | Raise _ => false end.

(** [mapM] for [Res], left to right, stopping at the first exception. *)
Fixpoint mapR {A B} (f : A → Res B) (l : list A) : Res (list B) :=
  match l with
  | [] => Ok []
  | x :: l => y ← f x; ys ← mapR f l; Ok (y :: ys)
  end.

(** Python indexing [l[k]] of a sequence: negative indices count from the
    end, anything out of range raises [IndexError]. *)
Definition py_index {A} (l : list A) (k : Z) : Res A :=
  let n := Z.of_nat (length l) in
  let k' := if k <? 0 then k + n else k in
  if (k' <? 0) || (n <=? k') then Raise IndexError
  else match l !! Z.to_nat k' with Some x => Ok x | None => Raise IndexError end.

(** ** struct formats

    [dtype.fmt] is a one character [struct] format; these are the ones
    tinygrad's dtypes carry. *)

Inductive Fmt := Fbool | Fb | FB | Fh | FH | Fi | FI | Fq | FQ | Fe | Ff | Fd.

#[global] Instance Fmt_eq_dec : EqDecision Fmt.
Proof. solve_decision. Defined.

Inductive FmtClass :=
| CBool
| CInt (signed : bool)
| CFloat (prec emax : Z).

Definition fmt_class (f : Fmt) : FmtClass :=
  match f with
  | Fbool => CBool
  | Fb | Fh | Fi | Fq => CInt true
  | FB | FH | FI | FQ => CInt false
  | Fe => CFloat 11 16
  | Ff => CFloat 24 128
  | Fd => CFloat 53 1024
  end.

(** [struct.calcsize] of one item, in bytes. *)
Definition calcsize (f : Fmt) : nat :=
  match f with
  | Fbool | Fb | FB => 1
  | Fh | FH | Fe => 2
  | Fi | FI | Ff => 4
  | Fq | FQ | Fd => 8
  end%nat.

Definition fmt_bits (f : Fmt) : Z := 8 * Z.of_nat (calcsize f).

(** ** Python values

    A lane holds an int, a bool, a float (binary64, kept as a
    [spec_float]), a memoryview (a bytearray of [mem] seen through a
    format) or a reference to a list object of [heap]. *)

Inductive Value :=
| VInt (z : Z)
| VBool (b : bool)
| VFloat (f : spec_float)
| VBuf (b : nat) (f : Fmt)
| VList (l : nat).

#[global] Instance spec_float_eq_dec : EqDecision spec_float.
Proof. solve_decision. Defined.
#[global] Instance Value_eq_dec : EqDecision Value.
Proof. solve_decision. Defined.

(** ** Little-endian bytes *)

Fixpoint le_bytes (n : nat) (z : Z) : list Z :=
  match n with
  | O => []
  | S n => z `mod` 256 :: le_bytes n (z `div` 256)
  end.

Fixpoint le_int (bs : list Z) : Z :=
  match bs with
  | [] => 0
  | b :: bs => b + 256 * le_int bs
  end.

(** ** IEEE 754 interchange encodings *)

Section Binary.
Variable prec emax : Z.
Variable nbytes : nat.

Definition mbits := prec - 1.
Definition ebits := 8 * Z.of_nat nbytes - prec.
Definition sign_bit (s : bool) : Z :=
  if s then 2 ^ (8 * Z.of_nat nbytes - 1) else 0.

Definition float_bits (x : spec_float) : Z :=
  match x with
  | S754_zero s => sign_bit s
  | S754_infinity s => sign_bit s + (2 ^ ebits - 1) * 2 ^ mbits
  | S754_nan => (2 ^ ebits - 1) * 2 ^ mbits + 2 ^ (mbits - 1)
  | S754_finite s m e =>
      if Z.pos m <? 2 ^ mbits then sign_bit s + Z.pos m
      else sign_bit s + (e - emin prec emax + 1) * 2 ^ mbits + (Z.pos m - 2 ^ mbits)
  end.

Definition bits_float (u : Z) : spec_float :=
  let s := 2 ^ (8 * Z.of_nat nbytes - 1) <=? u in
  let ex := (u `div` 2 ^ mbits) `mod` 2 ^ ebits in
  let fr := u `mod` 2 ^ mbits in
  if ex =? 0 then
    match fr with
    | Z.pos m => S754_finite s m (emin prec emax)
    | _ => S754_zero s
    end
  else if ex =? 2 ^ ebits - 1 then
    if fr =? 0 then S754_infinity s else S754_nan
  else
    match fr + 2 ^ mbits with
    | Z.pos m => S754_finite s m (ex + emin prec emax - 1)
    | _ => S754_nan
    end.
End Binary.

(** A python float is a binary64; [to_format] rounds it (to nearest, ties to
    even) into a narrower format and [to_double] brings the value of a
    narrower format back, which is exact. *)
Definition to_format (prec emax : Z) (x : spec_float) : spec_float :=
  match x with
  | S754_finite s m e => binary_round prec emax s m e
  | _ => x
  end.

Definition to_double (x : spec_float) : spec_float := to_format 53 1024 x.

Definition is_finite (x : spec_float) : bool :=
  match x with S754_finite _ _ _ | S754_zero _ => true | _ => false end.

Definition float_of_Z (z : Z) : spec_float := binary_normalize 53 1024 z 0 false.

(** ** Packing one item

    [pack_item strict f v] is the byte string of [v] in format [f].  With
    [strict] it is [struct.pack]: an int out of range, a non-number or a
    float too large for the format raise.  Without, it is the item
    assignment of a memoryview, which differs in the exceptions it raises
    and stores an overflowing float as an infinity. *)

Definition int_range (signed : bool) (n : nat) (z : Z) : bool :=
  let b := 8 * Z.of_nat n in
  if signed then (- 2 ^ (b - 1) <=? z) && (z <? 2 ^ (b - 1))
  else (0 <=? z) && (z <? 2 ^ b).

Definition as_index (v : Value) : option Z :=
  match v with
  | VInt z => Some z
  | VBool b => Some (Z.b2z b)
  | _ => None
  end.

Definition as_float (v : Value) : Res spec_float :=
  match v with
  | VFloat x => Ok x
  | VInt z => let x := float_of_Z z in
              if is_finite x then Ok x else Raise OverflowError
  | VBool b => Ok (float_of_Z (Z.b2z b))
  | _ => Raise TypeError
  end.

Definition pack_item (strict : bool) (f : Fmt) (truth : Value → bool) (v : Value)
  : Res (list Z) :=
  let n := calcsize f in
  match fmt_class f with
  | CBool => Ok [Z.b2z (truth v)]
  | CInt signed =>
      match as_index v with
      | Some z =>
          if int_range signed n z then Ok (le_bytes n (z `mod` 2 ^ fmt_bits f))
          else Raise (if strict then StructError else ValueError)
      | None => Raise (if strict then StructError else TypeError)
      end
  | CFloat prec emax =>
      x ← as_float v;
      let y := to_format prec emax x in
      if strict && is_finite x && negb (is_finite y) then Raise OverflowError
      else Ok (le_bytes n (float_bits prec emax n y))
  end.

Definition unpack_item (f : Fmt) (bs : list Z) : Value :=
  let n := calcsize f in
  let u := le_int bs in
  match fmt_class f with
  | CBool => VBool (negb (u =? 0))
  | CInt true => VInt (if 2 ^ (fmt_bits f - 1) <=? u then u - 2 ^ fmt_bits f else u)
  | CInt false => VInt u
  | CFloat prec emax => VFloat (to_double (bits_float prec emax n u))
  end.


(** ** Exact arithmetic of python numbers

    Python compares an int with a float by value, without rounding the
    int: [float_cmp_Z x z] is that comparison, [None] for a NaN. *)

Definition float_cmp_Z (x : spec_float) (z : Z) : option comparison :=
  match x with
  | S754_nan => None
  | S754_zero _ => Some (0 ?= z)
  | S754_infinity s => Some (if s then Lt else Gt)
  | S754_finite s m e =>
      let v := if s then Z.neg m else Z.pos m in
      Some (if 0 <=? e then v * 2 ^ e ?= z else v ?= z * 2 ^ (- e))
  end.

(** [a == b] where [a] is a number that [+=] has just produced. *)
Definition py_eq (a b : Value) : bool :=
  match a, b with
  | VFloat x, VFloat y => SFeqb x y
  | VFloat x, _ =>
      match as_index b with
      | Some z => bool_decide (float_cmp_Z x z = Some Eq)
      | None => false
      end
  | _, VFloat y =>
      match as_index a with
      | Some z => bool_decide (float_cmp_Z y z = Some Eq)
      | None => false
      end
  | _, _ =>
      match as_index a, as_index b with
      | Some x, Some y => x =? y
      | _, _ => false
      end
  end.

(** [x += 1] on a lane. *)
Definition py_incr (v : Value) : Res Value :=
  match v with
  | VInt z => Ok (VInt (z + 1))
  | VBool b => Ok (VInt (Z.b2z b + 1))
  | VFloat x => Ok (VFloat (SFadd 53 1024 x (float_of_Z 1)))
  | _ => Raise TypeError
  end.

(** Buffer offsets and image coordinates are python ints (a bool counts as
    one).  The emulator is never handed another kind of index; the
    embedding raises [TypeError] for one. *)
Definition lane_int (v : Value) : Res Z :=
  match as_index v with
  | Some z => Ok z
  | None => Raise TypeError
  end.

(** ** The object store: list objects and bytearrays *)

Section Store.
Variable heap : list (list Value).
Variable mem : list (list Z).

(** [len(memoryview)]: the number of items of the view. *)
Definition mv_len (b : nat) (f : Fmt) : Res Z :=
  match mem !! b with
  | Some bs => Ok (Z.of_nat (length bs `div` calcsize f))
  | None => Raise TypeError
  end.

Definition py_len (v : Value) : Res Z :=
  match v with
  | VList l =>
      match heap !! l with
      | Some xs => Ok (Z.of_nat (length xs))
      | None => Raise TypeError
      end
  | VBuf b f => mv_len b f
  | _ => Raise TypeError
  end.

(** The item [k] of a view, [0 <= k < len]. *)
Definition mv_item (b : nat) (f : Fmt) (k : nat) : Res Value :=
  match mem !! b with
  | Some bs => Ok (unpack_item f (take (calcsize f) (drop (k * calcsize f) bs)))
  | None => Raise TypeError
  end.

Definition mv_items (b : nat) (f : Fmt) : Res (list Value) :=
  n ← mv_len b f; mapR (mv_item b f) (seq 0 (Z.to_nat n)).

(** [v[k]] *)
Definition py_getitem (v : Value) (k : Z) : Res Value :=
  match v with
  | VList l =>
      match heap !! l with
      | Some xs => py_index xs k
      | None => Raise TypeError
      end
  | VBuf b f => xs ← mv_items b f; py_index xs k
  | _ => Raise TypeError
  end.

(** [list(v)], what [zip] and argument unpacking iterate over. *)
Definition py_iter (v : Value) : Res (list Value) :=
  match v with
  | VList l =>
      match heap !! l with
      | Some xs => Ok xs
      | None => Raise TypeError
      end
  | VBuf b f => mv_items b f
  | _ => Raise TypeError
  end.

(** [bool(v)] *)
Definition py_truth (v : Value) : bool :=
  match v with
  | VInt z => negb (z =? 0)
  | VBool b => b
  | VFloat x => negb (bool_decide (float_cmp_Z x 0 = Some Eq))
  | VBuf b f => match mv_len b f with Ok n => negb (n =? 0) | Raise _ => true end
  | VList l => match heap !! l with Some xs => negb (bool_decide (xs = [])) | None => true end
  end.

(** [_load(m, i)] *)
Definition _load (m : Value) (i : Z) : Res Value :=
  if i <? 0 then Raise IndexError
  else n ← py_len m;
       if n <=? i then Raise IndexError else py_getitem m i.
End Store.

(** [v[k] = x]: a list object is updated in [heap], a memoryview writes the
    bytes of [x] into its bytearray. *)
Definition py_setitem (heap : list (list Value)) (mem : list (list Z))
    (v : Value) (k : Z) (x : Value) : Res (list (list Value) * list (list Z)) :=
  match v with
  | VList l =>
      match heap !! l with
      | Some xs =>
          let n := Z.of_nat (length xs) in
          let k' := if k <? 0 then k + n else k in
          if (k' <? 0) || (n <=? k') then Raise IndexError
          else Ok (<[l := <[Z.to_nat k' := x]> xs]> heap, mem)
      | None => Raise TypeError
      end
  | VBuf b f =>
      n ← mv_len mem b f;
      let k' := if k <? 0 then k + n else k in
      if (k' <? 0) || (n <=? k') then Raise IndexError
      else
        bs ← pack_item false f (py_truth heap mem) x;
        match mem !! b with
        | Some old =>
            let off := (Z.to_nat k' * calcsize f)%nat in
            Ok (heap, <[b := take off old ++ bs ++ drop (off + calcsize f) old]> mem)
        | None => Raise TypeError
        end
  | _ => Raise TypeError
  end.

(** [_store(m, i, v)] *)
Definition _store (heap : list (list Value)) (mem : list (list Z))
    (m : Value) (i : Z) (v : Value) : Res (list (list Value) * list (list Z)) :=
  if i <? 0 then Raise IndexError
  else n ← py_len heap mem m;
       if n <=? i then Raise IndexError else py_setitem heap mem m i v.

(** [zip] applied to the unpacked list [ls]: as many tuples as the shortest
    list has items; no list, no tuple. *)
Fixpoint zip_star {A} (ls : list (list A)) : list (list A) :=
  match ls with
  | [] => []
  | [l] => map (λ x, [x]) l
  | l :: ls => zip_with cons l (zip_star ls)
  end.

Definition alloc {A} (h : list A) (x : A) : list A * nat := (h ++ [x], length h).

(** ** Instructions

    [DType] carries what the interpreter reads off a dtype: [fmt],
    [itemsize], [count], and for an [ImageDType] its [shape].  [kind] stands
    for the answers of [dtypes.is_int], [dtypes.is_unsigned] and
    [dtypes.is_float], which live in [tinygrad.dtype]. *)

Inductive DKind := KInt | KUInt | KFloat | KOther.

Record DType := mkDType {
  name : string;
  kind : DKind;
  itemsize : positive;
  fmt : option Fmt;
  count : Z;
  shape : option (list Z)
}.

#[global] Instance DKind_eq_dec : EqDecision DKind.
Proof. solve_decision. Defined.
#[global] Instance DType_eq_dec : EqDecision DType.
Proof. solve_decision. Defined.

Definition is_int (d : DType) : bool :=
  match kind d with KInt | KUInt => true | _ => false end.
Definition is_unsigned (d : DType) : bool :=
  match kind d with KUInt => true | _ => false end.
Definition is_float (d : DType) : bool :=
  match kind d with KFloat => true | _ => false end.
Definition is_image (d : DType) : bool :=
  match shape d with Some _ => true | None => false end.

Inductive UOps :=
| DEFINE_GLOBAL | DEFINE_LOCAL | DEFINE_VAR | SPECIAL | CONST | DEFINE_ACC
| RANGE | ENDRANGE | BARRIER | IF | ENDIF | VECTORIZE | CAST | BITCAST
| LOAD | STORE | ASSIGN | GEP | WMMA | ALU
| OTHER (tag : string).

#[global] Instance UOps_eq_dec : EqDecision UOps.
Proof. solve_decision. Defined.

Inductive AluOp := CMPNE | CMPLT | WHERE | OP (tag : string).

#[global] Instance AluOp_eq_dec : EqDecision AluOp.
Proof. solve_decision. Defined.

(** The payload [arg], one variant per shape the handlers take apart: a
    literal ([CONST]), a pair of a name and a size ([SPECIAL],
    [DEFINE_LOCAL]), a tuple of indices ([GEP]), an operation ([ALU]) and
    the tuple of a [WMMA], of which only item 4 is read.  A handler given
    another variant raises [TypeError]. *)
Inductive Arg :=
| ANone
| AVal (v : Value)
| ANamed (nm : string) (size : Z)
| AIdx (l : list Z)
| AOp (op : AluOp)
| AWmma (arg4 : string).

#[global] Instance Arg_eq_dec : EqDecision Arg.
Proof. solve_decision. Defined.

Definition UOp : Type := UOps * option DType * list nat * Arg.

Definition void_ops (u : UOps) : bool :=
  match u with
  | STORE | ENDRANGE | BARRIER | IF | ENDIF => true
  | _ => false
  end.

(** [all_same] of [tinygrad.helpers]: every item equals the first. *)
Definition all_same {A} `{EqDecision A} (items : list A) : bool :=
  match items with
  | [] => true
  | x :: _ => forallb (λ y, bool_decide (y = x)) items
  end.

(** [range(n)] and [itertools.product], rightmost factor fastest. *)
Definition range (n : Z) : list Z := map Z.of_nat (seq 0 (Z.to_nat n)).

Fixpoint product (ls : list (list Z)) : list (list Z) :=
  match ls with
  | [] => [[]]
  | l :: ls => flat_map (λ x, map (cons x) (product ls)) l
  end.

(** ** The execution context of one coordinate

    [ul], [dl] and [loop_ends] are the dicts of the source, [pbufs] and
    [pvals] the argument lists still to be popped, [pc] the local [i].
    [heap], [mem] and [stdout] are the objects the run can reach: list
    objects, bytearrays, and the uop positions printed under [TRACE]. *)

Record Ctx := mkCtx {
  ul : gmap nat Value;
  dl : gmap nat DType;
  pbufs : list nat;
  pvals : list Z;
  pc : nat;
  loop_ends : gmap nat nat;
  heap : list (list Value);
  mem : list (list Z);
  stdout : list nat
}.

Definition set_ul (f : gmap nat Value → gmap nat Value) (c : Ctx) : Ctx :=
  mkCtx (f (ul c)) (dl c) (pbufs c) (pvals c) (pc c) (loop_ends c) (heap c) (mem c) (stdout c).
Definition set_dl (f : gmap nat DType → gmap nat DType) (c : Ctx) : Ctx :=
  mkCtx (ul c) (f (dl c)) (pbufs c) (pvals c) (pc c) (loop_ends c) (heap c) (mem c) (stdout c).
Definition set_pbufs (l : list nat) (c : Ctx) : Ctx :=
  mkCtx (ul c) (dl c) l (pvals c) (pc c) (loop_ends c) (heap c) (mem c) (stdout c).
Definition set_pvals (l : list Z) (c : Ctx) : Ctx :=
  mkCtx (ul c) (dl c) (pbufs c) l (pc c) (loop_ends c) (heap c) (mem c) (stdout c).
Definition set_pc (i : nat) (c : Ctx) : Ctx :=
  mkCtx (ul c) (dl c) (pbufs c) (pvals c) i (loop_ends c) (heap c) (mem c) (stdout c).
Definition set_loop_ends (f : gmap nat nat → gmap nat nat) (c : Ctx) : Ctx :=
  mkCtx (ul c) (dl c) (pbufs c) (pvals c) (pc c) (f (loop_ends c)) (heap c) (mem c) (stdout c).
Definition set_heap (h : list (list Value)) (c : Ctx) : Ctx :=
  mkCtx (ul c) (dl c) (pbufs c) (pvals c) (pc c) (loop_ends c) h (mem c) (stdout c).
Definition set_mem (m : list (list Z)) (c : Ctx) : Ctx :=
  mkCtx (ul c) (dl c) (pbufs c) (pvals c) (pc c) (loop_ends c) (heap c) m (stdout c).
Definition set_stdout (o : list nat) (c : Ctx) : Ctx :=
  mkCtx (ul c) (dl c) (pbufs c) (pvals c) (pc c) (loop_ends c) (heap c) (mem c) o.

(** [ul[i] = <new list xs>] *)
Definition bind_new (i : nat) (xs : list Value) (c : Ctx) : Ctx :=
  let '(h, l) := alloc (heap c) xs in
  set_ul <[i := VList l]> (set_heap h c).

Fixpoint foldR {A S} (f : S → A → Res S) (s : S) (l : list A) : Res S :=
  match l with
  | [] => Ok s
  | x :: l => s' ← f s x; foldR f s' l
  end.

Definition enumerate {A} (l : list A) : list (Z * A) :=
  zip (range (Z.of_nat (length l))) l.

(** ** Memory instructions *)

Definition ObjStore : Type := list (list Value) * list (list Z).

(** One lane of a store: [if g: _store(m, o+j, v)]. *)
Definition store_lane (j : Z) (hm : ObjStore) (t : list Value) : Res ObjStore :=
  match t with
  | [m; o; v; g] =>
      if py_truth hm.1 hm.2 g then oz ← lane_int o; _store hm.1 hm.2 m (oz + j) v
      else Ok hm
  | _ => Raise ValueError
  end.

(** The test both image handlers make on a lane's address, in the order
    python evaluates it: [ox >= 0 and ox < shape[1] and oy >= 0 and
    oy < shape[0]].  [Some (x, y, w)] for an address inside the image. *)
Definition in_image (sh : list Z) (ox oy : Value) : Res (option (Z * Z * Z)) :=
  x ← lane_int ox;
  if x <? 0 then Ok None else
  w ← py_index sh 1;
  if w <=? x then Ok None else
  y ← lane_int oy;
  if y <? 0 then Ok None else
  h ← py_index sh 0;
  if h <=? y then Ok None else Ok (Some (x, y, w)).

(** One lane of an image store. *)
Definition image_store_lane (sh : list Z) (j : Z) (hm : ObjStore) (t : list Value)
  : Res ObjStore :=
  match t with
  | [m; ox; oy; v; g] =>
      a ← in_image sh ox oy;
      match a with
      | None => Raise AssertionError
      | Some (x, y, w) =>
          if py_truth hm.1 hm.2 g then _store hm.1 hm.2 m (x * 4 + y * w * 4 + j) v
          else Ok hm
      end
  | _ => Raise ValueError
  end.

Definition exec_store (inp : list Value) (dtp : list DType) (hm0 : ObjStore) : Res ObjStore :=
  '(inp, hm) ← (if bool_decide (length inp = 3%nat) then
                  v0 ← py_index inp 0; n ← py_len hm0.1 hm0.2 v0;
                  let '(h, l) := alloc hm0.1 (replicate (Z.to_nat n) (VBool true)) in
                  Ok (inp ++ [VList l], (h, hm0.2))
                else Ok (inp, hm0));
  d0 ← py_index dtp 0;
  if shape d0 is Some sh then
    d2 ← py_index dtp 2;
    _ ← assert_ (count d2 =? 4) AssertionError;
    vals ← (v2 ← py_index inp 2; py_iter hm.1 hm.2 v2);
    foldR (λ hm '(j, val),
             ms ← (v ← py_index inp 0; py_iter hm.1 hm.2 v);
             oxs ← (v ← py_index inp 1; x ← py_getitem hm.1 hm.2 v 0; py_iter hm.1 hm.2 x);
             oys ← (v ← py_index inp 1; y ← py_getitem hm.1 hm.2 v 1; py_iter hm.1 hm.2 y);
             vs ← py_iter hm.1 hm.2 val;
             gs ← (v ← py_index inp 3; py_iter hm.1 hm.2 v);
             foldR (image_store_lane sh j) hm (zip_star [ms; oxs; oys; vs; gs]))
          hm (enumerate vals)
  else
    d2 ← py_index dtp 2;
    if 1 <? count d2 then
      vals ← (v2 ← py_index inp 2; py_iter hm.1 hm.2 v2);
      foldR (λ hm '(j, val),
               ms ← (v ← py_index inp 0; py_iter hm.1 hm.2 v);
               os ← (v ← py_index inp 1; py_iter hm.1 hm.2 v);
               vs ← py_iter hm.1 hm.2 val;
               gs ← (v ← py_index inp 3; py_iter hm.1 hm.2 v);
               foldR (store_lane j) hm (zip_star [ms; os; vs; gs]))
            hm (enumerate vals)
    else
      ls ← mapR (py_iter hm.1 hm.2) inp;
      foldR (store_lane 0) hm (zip_star ls).

(** [load(inp, j)] *)
Definition load_lane (heap : list (list Value)) (mem : list (list Z)) (j : Z)
    (t : list Value) : Res Value :=
  match t with
  | [m; x; default; gate] =>
      if py_truth heap mem gate then xz ← lane_int x; _load heap mem m (xz + j)
      else Ok default
  | _ => Raise ValueError
  end.

Definition load (heap : list (list Value)) (mem : list (list Z))
    (inp : list Value) (j : Z) : Res (list Value) :=
  if bool_decide (length inp = 4%nat) then
    ls ← mapR (py_iter heap mem) inp;
    mapR (load_lane heap mem j) (zip_star ls)
  else
    ms ← (v ← py_index inp 0; py_iter heap mem v);
    xs ← (v ← py_index inp 1; py_iter heap mem v);
    mapR (λ '(m, x), xz ← lane_int x; _load heap mem m (xz + j)) (zip ms xs).

(** One lane of one component of an image load. *)
Definition image_load_lane (heap : list (list Value)) (mem : list (list Z))
    (sh : list Z) (j : Z) (t : Value * (Value * Value)) : Res Value :=
  let '(m, (ox, oy)) := t in
  a ← in_image sh ox oy;
  match a with
  | None => Ok (VInt 0)
  | Some (x, y, w) => _load heap mem m (x * 4 + y * w * 4 + j)
  end.

Definition image_load (heap : list (list Value)) (mem : list (list Z))
    (inp : list Value) (sh : list Z) (j : Z) : Res (list Value) :=
  ms ← (v ← py_index inp 0; py_iter heap mem v);
  oxs ← (v ← py_index inp 1; x ← py_getitem heap mem v 0; py_iter heap mem x);
  oys ← (v ← py_index inp 1; y ← py_getitem heap mem v 1; py_iter heap mem y);
  mapR (image_load_lane heap mem sh j) (zip ms (zip oxs oys)).

(** ** The interpreter *)

Section Interp.
(** [self.uops], and what one coordinate's run is given: the warp, the
    global index [idxs] and the [TRACE] switch of the environment. *)
Variable uops : list UOp.
Variable warp : list (list Z).
Variable idxs : list Z.
Variable trace : bool.

(** The collaborators imported from the rest of tinygrad: [exec_alu] and
    the [truncate] table of [tinygrad.ops], [dtypes.as_const], and the
    [wmma_model] of a [TensorCoreLayout] built from the warp size and the
    operands. *)
Variable exec_alu : Arg → DType → list Value → Res Value.
Variable truncate : DType → option (Value → Res Value).
Variable as_const : Value → DType → Res Value.
Variable wmma_model :
  nat → list Value → string → list (list Value) → Res (Value * list (list Value)).

Definition warp_size : nat := length warp.

(** [[tbl[v] for v in idp if self.uops[v][0] not in void_ops]] *)
Fixpoint operands {A} (tbl : gmap nat A) (idp : list nat) : Res (list A) :=
  match idp with
  | [] => Ok []
  | v :: idp =>
      match uops !! v with
      | None => Raise IndexError
      | Some (u, _, _, _) =>
          if void_ops u then operands tbl idp
          else match tbl !! v with
               | Some x => xs ← operands tbl idp; Ok (x :: xs)
               | None => Raise KeyError
               end
      end
  end.

(** [SPECIAL]: the axis is the last character of the name. *)
Definition digit (a : ascii) : Res Z :=
  let n := Z.of_nat (nat_of_ascii a) in
  if (48 <=? n) && (n <=? 57) then Ok (n - 48) else Raise ValueError.

Definition exec_special (i : nat) (arg : Arg) (c : Ctx) : Res Ctx :=
  match arg with
  | ANamed nm _ =>
      let cs := list_ascii_of_string nm in
      a0 ← py_index cs 0;
      if bool_decide (a0 = "g"%char) then
        al ← py_index cs (-1); d ← digit al;
        g ← py_index idxs (2 - d);
        Ok (bind_new i (replicate warp_size (VInt g)) c)
      else if bool_decide (a0 = "l"%char) then
        al ← py_index cs (-1); d ← digit al;
        xs ← mapR (λ x, py_index x (2 - d)) warp;
        Ok (bind_new i (VInt <$> xs) c)
      else Ok c
  | _ => Raise TypeError
  end.

Definition exec_define_acc (i : nat) (dtype : DType) (inp : list Value) (c : Ctx)
  : Res Ctx :=
  v0 ← py_index inp 0;
  x ← py_getitem (heap c) (mem c) v0 0;
  if 1 <? count dtype then
    '(h, ls) ← foldR (λ '(h, ls) _,
                  y ← py_getitem h (mem c) x 0;
                  let '(h', l) := alloc h (replicate warp_size y) in
                  Ok (h', ls ++ [VList l]))
                (heap c, []) (range (count dtype));
    Ok (bind_new i ls (set_heap h c))
  else Ok (bind_new i (replicate warp_size x) c).

(** [RANGE]; the result is the context and whether the loop is left
    (the [continue] of the source). *)
Definition exec_range (i : nat) (inp : list Value) (c : Ctx) : Res (Ctx * bool) :=
  match ul c !! i with
  | None =>
      v0 ← py_index inp 0;
      x ← py_getitem (heap c) (mem c) v0 0;
      Ok (bind_new i (replicate warp_size x) c, false)
  | Some r =>
      n ← py_len (heap c) (mem c) r;
      hm ← foldR (λ hm j,
              x ← py_getitem hm.1 hm.2 r j;
              y ← py_incr x;
              py_setitem hm.1 hm.2 r j y)
            (heap c, mem c) (range n);
      let c := set_mem hm.2 (set_heap hm.1 c) in
      a ← py_getitem (heap c) (mem c) r 0;
      v1 ← py_index inp 1;
      b ← py_getitem (heap c) (mem c) v1 0;
      if py_eq a b then
        match loop_ends c !! i with
        | Some e => Ok (set_pc (e + 1) (set_ul (delete i) c), true)
        | None => Raise KeyError
        end
      else Ok (c, false)
  end.

(** [struct.pack(str(warp_size) + f, *xs)] and
    [struct.unpack(str(warp_size) + f, bs)]. *)
Definition struct_pack (heap : list (list Value)) (mem : list (list Z))
    (f : Fmt) (xs : list Value) : Res (list Z) :=
  if bool_decide (length xs = warp_size) then
    bss ← mapR (pack_item true f (py_truth heap mem)) xs; Ok (concat bss)
  else Raise StructError.

Definition struct_unpack (f : Fmt) (bs : list Z) : Res (list Value) :=
  if bool_decide (length bs = (warp_size * calcsize f)%nat) then
    Ok (map (λ k, unpack_item f (take (calcsize f) (drop (k * calcsize f) bs)))
            (seq 0 warp_size))
  else Raise StructError.

(** The wrap of an integer cast:
    [(x + overflow_adjust) % 2**(itemsize*8) - overflow_adjust]. *)
Definition overflow_adjust (dtype : DType) : Z :=
  if negb (is_unsigned dtype) then 2 ^ (Z.pos (itemsize dtype) * 8 - 1) else 0.

Definition int_wrap (dtype : DType) (x : Z) : Z :=
  (x + overflow_adjust dtype) `mod` 2 ^ (Z.pos (itemsize dtype) * 8)
  - overflow_adjust dtype.

Definition exec_cast (bitcast : bool) (i : nat) (dtype : DType)
    (inp : list Value) (dtp : list DType) (c : Ctx) : Res Ctx :=
  d0 ← py_index dtp 0;
  match fmt d0, fmt dtype with
  | Some pack_format, Some unpack_format =>
      xs ← (v0 ← py_index inp 0; py_iter (heap c) (mem c) v0);
      if bitcast then
        bs ← struct_pack (heap c) (mem c) pack_format xs;
        ys ← struct_unpack unpack_format bs;
        Ok (bind_new i ys c)
      else
        casted ← mapR (λ x, as_const x dtype) xs;
        casted ← (if is_int dtype then
                    mapR (λ x, z ← lane_int x; Ok (VInt (int_wrap dtype z))) casted
                  else if is_float dtype then
                    mapR (λ x, match truncate dtype with
                               | Some f => f x
                               | None => Ok x
                               end) casted
                  else Ok casted);
        bs ← struct_pack (heap c) (mem c) unpack_format casted;
        ys ← struct_unpack unpack_format bs;
        Ok (bind_new i ys c)
  | _, _ => Raise AssertionError
  end.

Definition exec_load (i : nat) (dtype : DType) (inp : list Value) (dtp : list DType)
    (c : Ctx) : Res Ctx :=
  d0 ← py_index dtp 0;
  if shape d0 is Some sh then
    _ ← assert_ (count dtype =? 4) AssertionError;
    '(h, ls) ← foldR (λ '(h, ls) j,
                  ret ← image_load h (mem c) inp sh j;
                  let '(h', l) := alloc h ret in Ok (h', ls ++ [VList l]))
                (heap c, []) (range (count dtype));
    Ok (bind_new i ls (set_heap h c))
  else if 1 <? count dtype then
    '(h, ls) ← foldR (λ '(h, ls) j,
                  inp_j ← mapR (λ '(k, x),
                             d ← py_index dtp k;
                             if 1 <? count d then py_getitem h (mem c) x j else Ok x)
                           (enumerate inp);
                  ret ← load h (mem c) inp_j j;
                  let '(h', l) := alloc h ret in Ok (h', ls ++ [VList l]))
                (heap c, []) (range (count dtype));
    Ok (bind_new i ls (set_heap h c))
  else
    ret ← load (heap c) (mem c) inp 0;
    Ok (bind_new i ret c).

Definition exec_assign (i : nat) (inp : list Value) (c : Ctx) : Res Ctx :=
  v0 ← py_index inp 0;
  n ← py_len (heap c) (mem c) v0;
  hm ← foldR (λ hm j,
          v1 ← py_index inp 1;
          x ← py_getitem hm.1 hm.2 v1 j;
          py_setitem hm.1 hm.2 v0 j x)
        (heap c, mem c) (range n);
  Ok (set_ul <[i := v0]> (set_mem hm.2 (set_heap hm.1 c))).

Definition exec_gep (i : nat) (arg : Arg) (inp : list Value) (c : Ctx) : Res Ctx :=
  match arg with
  | AIdx l =>
      _ ← assert_ (bool_decide (length l = 1%nat)) AssertionError;
      v0 ← py_index inp 0;
      a0 ← py_index l 0;
      x ← py_getitem (heap c) (mem c) v0 a0;
      Ok (set_ul <[i := x]> c)
  | _ => Raise TypeError
  end.

Definition alu_exempt (arg : Arg) : bool :=
  match arg with
  | AOp CMPNE | AOp CMPLT | AOp WHERE => true
  | _ => false
  end.

Definition exec_alu_uop (i : nat) (dtype : DType) (arg : Arg)
    (inp : list Value) (dtp : list DType) (c : Ctx) : Res Ctx :=
  lens ← mapR (py_len (heap c) (mem c)) inp;
  _ ← assert_ (all_same lens) AssertionError;
  _ ← assert_ (all_same (dtype :: dtp) || alu_exempt arg) AssertionError;
  ls ← mapR (py_iter (heap c) (mem c)) inp;
  ys ← mapR (exec_alu arg dtype) (zip_star ls);
  Ok (bind_new i ys c).

Definition exec_define_global (i : nat) (dtype : DType) (c : Ctx) : Res Ctx :=
  match fmt dtype with
  | None => Raise AssertionError
  | Some f =>
      match pbufs c with
      | [] => Raise IndexError
      | b :: rest =>
          match mem c !! b with
          | Some bs =>
              if bool_decide ((length bs `mod` calcsize f)%nat = 0%nat) then
                Ok (bind_new i (replicate warp_size (VBuf b f)) (set_pbufs rest c))
              else Raise TypeError
          | None => Raise TypeError
          end
      end
  end.

(** [DEFINE_LOCAL]: a new bytearray of [arg[1]*dtype.itemsize] zero bytes. *)
Definition exec_define_local (i : nat) (dtype : DType) (arg : Arg) (c : Ctx) : Res Ctx :=
  match fmt dtype with
  | None => Raise AssertionError
  | Some f =>
      match arg with
      | ANamed _ size =>
          let n := size * Z.pos (itemsize dtype) in
          if n <? 0 then Raise ValueError
          else
            let '(m, b) := alloc (mem c) (replicate (Z.to_nat n) 0) in
            if bool_decide ((Z.to_nat n `mod` calcsize f)%nat = 0%nat) then
              Ok (bind_new i (replicate warp_size (VBuf b f)) (set_mem m c))
            else Raise TypeError
      | _ => Raise TypeError
      end
  end.

Definition exec_define_var (i : nat) (c : Ctx) : Res Ctx :=
  match pvals c with
  | [] => Raise IndexError
  | v :: rest => Ok (bind_new i (replicate warp_size (VInt v)) (set_pvals rest c))
  end.

Definition exec_const (i : nat) (arg : Arg) (c : Ctx) : Res Ctx :=
  match arg with
  | AVal v => Ok (bind_new i (replicate warp_size v) c)
  | _ => Raise TypeError
  end.

Definition exec_wmma (i : nat) (arg : Arg) (inp : list Value) (c : Ctx) : Res Ctx :=
  match arg with
  | AWmma a4 =>
      '(v, h) ← wmma_model warp_size inp a4 (heap c);
      Ok (set_ul <[i := v]> (set_heap h c))
  | _ => Raise TypeError
  end.

(** One turn of the [while] loop of [__call__]. *)
Definition step (c : Ctx) : Res Ctx :=
  let i := pc c in
  match uops !! i with
  | None => Raise IndexError
  | Some (uop, dtype, idp, arg) =>
      idp ← (if bool_decide (uop = DEFINE_ACC)
             then x ← py_index idp 0; Ok [x] else Ok idp);
      inp ← operands (ul c) idp;
      dtp ← operands (dl c) idp;
      let c := if trace then set_stdout (stdout c ++ [i]) c else c in
      match uop with
      | STORE =>
          hm ← exec_store inp dtp (heap c, mem c);
          Ok (set_pc (i + 1) (set_mem hm.2 (set_heap hm.1 c)))
      | ENDRANGE =>
          x ← py_index idp 0;
          Ok (set_pc x (set_loop_ends <[x := i]> c))
      | BARRIER | IF | ENDIF => Ok (set_pc (i + 1) c)
      | _ =>
          match dtype with
          | None => Raise AssertionError
          | Some dtype =>
              let c := set_dl <[i := dtype]> c in
              '(c, continue) ←
                match uop with
                | DEFINE_GLOBAL => c ← exec_define_global i dtype c; Ok (c, false)
                | DEFINE_LOCAL => c ← exec_define_local i dtype arg c; Ok (c, false)
                | DEFINE_VAR => c ← exec_define_var i c; Ok (c, false)
                | SPECIAL => c ← exec_special i arg c; Ok (c, false)
                | CONST => c ← exec_const i arg c; Ok (c, false)
                | DEFINE_ACC => c ← exec_define_acc i dtype inp c; Ok (c, false)
                | RANGE => exec_range i inp c
                | VECTORIZE => Ok (bind_new i inp c, false)
                | CAST => c ← exec_cast false i dtype inp dtp c; Ok (c, false)
                | BITCAST => c ← exec_cast true i dtype inp dtp c; Ok (c, false)
                | LOAD => c ← exec_load i dtype inp dtp c; Ok (c, false)
                | ASSIGN => c ← exec_assign i inp c; Ok (c, false)
                | GEP => c ← exec_gep i arg inp c; Ok (c, false)
                | WMMA => c ← exec_wmma i arg inp c; Ok (c, false)
                | ALU => c ← exec_alu_uop i dtype arg inp dtp c; Ok (c, false)
                | _ => Ok (c, false)
                end;
              if continue : bool then Ok c
              else
                _ ← assert_ (bool_decide (is_Some (ul c !! i))) AssertionError;
                Ok (set_pc (i + 1) c)
          end
      end
  end.

(** The [while i < len(self.uops)] loop, [fuel] turns at most: [None] when
    the fuel runs out before the loop ends. *)
Fixpoint run (fuel : nat) (c : Ctx) : option (Res Ctx) :=
  if bool_decide (pc c < length uops)%nat then
    match fuel with
    | O => None
    | S fuel =>
        match step c with
        | Ok c' => run fuel c'
        | Raise e => Some (Raise e)
        end
    end
  else Some (Ok c).
End Interp.

(** ** [PythonProgram.__call__] *)

Section Call.
Variable uops : list UOp.
Variable trace : bool.
Variable exec_alu : Arg → DType → list Value → Res Value.
Variable truncate : DType → option (Value → Res Value).
Variable as_const : Value → DType → Res Value.
Variable wmma_model :
  nat → list Value → string → list (list Value) → Res (Value * list (list Value)).
(** [time.perf_counter]: the reading of the [k]-th call, in seconds. *)
Variable perf_counter : nat → Q.

(** What outlives a coordinate's run: the objects and the output. *)
Definition World : Type := list (list Value) * list (list Z) * list nat.

Definition init_ctx (bufs : list nat) (vals : list Z) (w : World) : Ctx :=
  mkCtx ∅ ∅ bufs vals 0 ∅ w.1.1 w.1.2 w.2.

Definition run_coord (fuel : nat) (warp : list (list Z)) (bufs : list nat)
    (vals : list Z) (idxs : list Z) (w : World) : option (Res World) :=
  match run uops warp idxs trace exec_alu truncate as_const wmma_model fuel
            (init_ctx bufs vals w) with
  | None => None
  | Some (Raise e) => Some (Raise e)
  | Some (Ok c) => Some (Ok (heap c, mem c, stdout c))
  end.

(** The [for idxs in itertools.product(...)] loop. *)
Fixpoint run_coords (fuel : nat) (warp : list (list Z)) (bufs : list nat)
    (vals : list Z) (coords : list (list Z)) (w : World) : option (Res World) :=
  match coords with
  | [] => Some (Ok w)
  | idxs :: coords =>
      match run_coord fuel warp bufs vals idxs w with
      | Some (Ok w') => run_coords fuel warp bufs vals coords w'
      | r => r
      end
  end.

(** [__call__]: the buffers [bufs] are bytearrays of [mem]; the result is
    the elapsed time and the memory the call leaves.  Every coordinate's
    run gets [fuel] turns. *)
Definition call (fuel : nat) (bufs : list nat) (global_size local_size : list Z)
    (vals : list Z) (mem : list (list Z)) : option (Res (Q * list (list Z))) :=
  let st := perf_counter 0 in
  let warp := product (range <$> rev local_size) in
  match run_coords fuel warp bufs vals (product (range <$> rev global_size))
                   ([], mem, []) with
  | None => None
  | Some (Raise e) => Some (Raise e)
  | Some (Ok w) => Some (Ok ((perf_counter 1 - st)%Q, w.1.2))
  end.
End Call.

(** ** [PythonRenderer]

    [render] turns a list of [UOp] objects into the tuples a [PythonProgram]
    runs: every source is replaced by its position in the list,
    [uops.index(v)].  The class [UOp] lives in [tinygrad.ops]; the
    embedding takes the type of these objects, their equality and their four
    fields as given.  The pickling and the base64 coding of the tuples, and
    their decoding by [PythonCompiler.compile] and [PythonProgram.__init__],
    are left to the libraries. *)

Section Render.
Context {U : Type} `{EqDecision U}.
Variable op : U → UOps.
Variable dtype : U → option DType.
Variable src : U → list U.
Variable arg : U → Arg.

(** [l.index(v)]: the first position that holds [v]. *)
Definition index (l : list U) (v : U) : Res nat :=
  match list_find (λ x, x = v) l with
  | Some (i, _) => Ok i
  | None => Raise ValueError
  end.

Definition render (uops : list U) : Res (list UOp) :=
  mapR (λ u, idp ← mapR (index uops) (src u); Ok (op u, dtype u, idp, arg u)) uops.
End Render.

(** [PythonRenderer.__init__]: the environment may name a device to
    emulate.  [suffix] and [tensor_cores] are [None] as long as they are the
    ones inherited from [Renderer]; [tensor_cores] otherwise names the
    renderer class they are taken from. *)
Module PythonRenderer.
Record t := mk {
  device : string;
  suffix : option string;
  tensor_cores : option string
}.

(** [getenv(key)] is an int, 0 when the variable is not set. *)
Definition getenv (env : string → Z) (key : string) : bool := negb (env key =? 0).

Definition init (env : string → Z) : t :=
  let self := mk "PYTHON" None None in
  let self := if getenv env "EMULATE_METAL"
              then mk "METAL" (suffix self) (Some "MetalRenderer") else self in
  let self := if getenv env "EMULATE_AMD"
              then mk "AMD" (suffix self) (Some "AMDRenderer") else self in
  let self := if getenv env "EMULATE_CUDA"
              then mk "CUDA" (suffix self) (Some "CUDARenderer") else self in
  let self := if getenv env "EMULATE_INTEL"
              then mk "INTEL" (Some "INTEL") (Some "IntelRenderer") else self in
  let self := if getenv env "EMULATE_AMX"
              then mk "CLANG" (suffix self) (Some "ClangRenderer") else self in
  self.
End PythonRenderer.

(** ** Concrete collaborators and programs

    The examples run the interpreter with stand-ins for the collaborators:
    an [exec_alu] that adds python ints, an [as_const] that leaves an int
    alone, an empty [truncate] table, no tensor-core model, and a clock
    that ticks once a reading. *)

Definition add_alu (arg : Arg) (d : DType) (p : list Value) : Res Value :=
  match arg, p with
  | AOp (OP "ADD"), [VInt a; VInt b] => Ok (VInt (a + b))
  | _, _ => Raise ExternalError
  end.

Definition id_const (v : Value) (d : DType) : Res Value := Ok v.

Definition no_truncate (d : DType) : option (Value → Res Value) := None.

Definition no_wmma (n : nat) (inp : list Value) (a4 : string) (h : list (list Value))
  : Res (Value * list (list Value)) := Raise ExternalError.

Definition tick (k : nat) : Q := inject_Z (Z.of_nat k).

Definition int8 : DType := mkDType "char" KInt 1 (Some Fb) 1 None.
Definition uint8 : DType := mkDType "unsigned char" KUInt 1 (Some FB) 1 None.
Definition int32 : DType := mkDType "int" KInt 4 (Some Fi) 1 None.
Definition uint32 : DType := mkDType "unsigned int" KUInt 4 (Some FI) 1 None.
Definition float32 : DType := mkDType "float" KFloat 4 (Some Ff) 1 None.

(** The lanes of [ul[i]], when it is a list object. *)
Definition lanes_of (c : Ctx) (i : nat) : option (list Value) :=
  match ul c !! i with
  | Some (VList l) => heap c !! l
  | _ => None
  end.

(** The lanes of a scalar load: a view and an offset each. *)
Definition lane_bufs (lanes : list (nat * Fmt * Z)) : list Value :=
  map (λ t, VBuf t.1.1 t.1.2) lanes.
Definition lane_offsets (lanes : list (nat * Fmt * Z)) : list Value :=
  map (λ t, VInt t.2) lanes.


Definition result_lanes (r : option (Res Ctx)) (i : nat) : option (list Value) :=
  match r with
  | Some (Ok c) => lanes_of c i
  | _ => None
  end.

(** A warp of two lanes, [local_size = (2,1,1)], and the first coordinate. *)
Definition two_lanes : list (list Z) := [[0; 0; 0]; [0; 0; 1]].
Definition origin : list Z := [0; 0; 0].
Definition empty_world : World := ([], [], []).

(** [x] cast to [d]. *)
Definition cast_prog (d : DType) (x : Z) : list UOp :=
  [ (CONST, Some int32, [], AVal (VInt x));
    (CAST, Some d, [0%nat], ANone) ].

(** 1.0, and its bits taken as a uint32 and back. *)
Definition float_one : spec_float := S754_finite false 4503599627370496 (-52).

Definition bitcast_prog : list UOp :=
  [ (CONST, Some float32, [], AVal (VFloat float_one));
    (BITCAST, Some uint32, [0%nat], ANone);
    (BITCAST, Some float32, [1%nat], ANone) ].

(** What the two assertions of the [ALU] handler ask for. *)
Definition alu_precondition (dtype : DType) (arg : Arg) (lens : list Z)
    (dtp : list DType) : Prop :=
  (∀ n m, n ∈ lens → m ∈ lens → n = m) ∧
  (Forall (λ d, d = dtype) dtp ∨
   arg = AOp CMPNE ∨ arg = AOp CMPLT ∨ arg = AOp WHERE).


(** The context a handler starts from: the position traced, the dtype
    recorded. *)
Definition entered (trace : bool) (dtype : DType) (c : Ctx) : Ctx :=
  set_dl <[pc c := dtype]> (if trace then set_stdout (stdout c ++ [pc c]) c else c).

(** 1 + 2, and the context in front of the addition. *)
Definition alu_prog : list UOp :=
  [ (CONST, Some int32, [], AVal (VInt 1));
    (CONST, Some int32, [], AVal (VInt 2));
    (ALU, Some int32, [0; 1]%nat, AOp (OP "ADD")) ].

Definition alu_ctx : Ctx :=
  mkCtx (<[1%nat := VList 1]> (<[0%nat := VList 0]> ∅))
        (<[1%nat := int32]> (<[0%nat := int32]> ∅))
        [] [] 2 ∅ [[VInt 1]; [VInt 2]] [] [].

(** A value that is false whatever the objects hold: [False], [0]. *)
Definition falsy (g : Value) : Prop := ∀ h m, py_truth h m g = false.


(** The components of a vector value: the lanes of each. *)
Definition components_of (c : Ctx) (i : nat) : option (list (list Value)) :=
  match lanes_of c i with
  | Some ls =>
      mapM (λ v, match v with VList l => heap c !! l | _ => None end) ls
  | None => None
  end.

Definition result_components (r : option (Res Ctx)) (i : nat)
  : option (list (list Value)) :=
  match r with
  | Some (Ok c) => components_of c i
  | _ => None
  end.

(** A 2 by 2 image of float texels, all zero but component 1 of the texel at
    (1, 1), which is 1.0; the load of the texel at [(x, y)]. *)
Definition imagef : DType := mkDType "imagef" KFloat 4 (Some Ff) 1 (Some [2; 2; 4]).
Definition int2 : DType := mkDType "int2" KInt 8 None 2 None.
Definition float4 : DType := mkDType "float4" KFloat 16 None 4 None.

Definition image_bytes : list Z :=
  replicate 52 0 ++ [0; 0; 128; 63] ++ replicate 8 0.

Definition image_prog (x y : Z) : list UOp :=
  [ (DEFINE_GLOBAL, Some imagef, [], ANone);
    (CONST, Some int32, [], AVal (VInt x));
    (CONST, Some int32, [], AVal (VInt y));
    (VECTORIZE, Some int2, [1; 2]%nat, ANone);
    (LOAD, Some float4, [0; 3]%nat, ANone) ].

Definition float_zero : spec_float := S754_zero false.

(** What a zeroed item reads as. *)
Definition zero_item (f : Fmt) : Value :=
  match fmt_class f with
  | CBool => VBool false
  | CInt _ => VInt 0
  | CFloat _ _ => VFloat (S754_zero false)
  end.

(** The context a [DEFINE_LOCAL] of [size] items leaves. *)
Definition with_local (warp : list (list Z)) (i : nat) (dtype : DType) (f : Fmt)
    (size : Z) (c : Ctx) : Ctx :=
  bind_new i (replicate (length warp) (VBuf (length (mem c)) f))
    (set_mem (mem c ++ [replicate (Z.to_nat (size * Z.pos (itemsize dtype))) 0]) c).

(** Every coordinate reads item 0 of a local buffer into [out[gidx0]] and
    then writes 7 to that item. *)
Definition local_prog : list UOp :=
  [ (DEFINE_LOCAL, Some int32, [], ANamed "temp" 1);
    (CONST, Some int32, [], AVal (VInt 0));
    (LOAD, Some int32, [0; 1]%nat, ANone);
    (DEFINE_GLOBAL, Some int32, [], ANone);
    (SPECIAL, Some int32, [], ANamed "gidx0" 2);
    (STORE, None, [3; 4; 2]%nat, ANone);
    (CONST, Some int32, [], AVal (VInt 7));
    (STORE, None, [0; 1; 6]%nat, ANone) ].

#[global] Instance Res_fmap : FMap Res :=
  λ A B f r, match r with Ok a => Ok (f a) | Raise e => Raise e end.

(** A context without its output. *)
Definition silent (c : Ctx) : Ctx := set_stdout [] c.

(** Two calls agree: both run out of fuel, both raise the same exception,
    or both return and leave the same memory. *)
Definition same_outcome (r1 r2 : option (Res (Q * list (list Z)))) : Prop :=
  match r1, r2 with
  | None, None => True
  | Some (Raise e1), Some (Raise e2) => e1 = e2
  | Some (Ok (_, m1)), Some (Ok (_, m2)) => m1 = m2
  | _, _ => False
  end.

(** The outcome of a run without the output, and the objects a coordinate's
    run leaves. *)
Definition quiet (r : option (Res Ctx)) : option (Res Ctx) :=
  match r with
  | Some (Ok c) => Some (Ok (silent c))
  | _ => r
  end.

Definition objects_of (r : option (Res World)) : option (Res ObjStore) :=
  match r with
  | Some (Ok w) => Some (Ok w.1)
  | Some (Raise e) => Some (Raise e)
  | None => None
  end.

(** A loop from 0 to 0 around nothing: no load, no store. *)
Definition spin_prog : list UOp :=
  [ (CONST, Some int32, [], AVal (VInt 0));
    (CONST, Some int32, [], AVal (VInt 0));
    (RANGE, Some int32, [0; 1]%nat, ANone);
    (ENDRANGE, None, [2%nat], ANone) ].

(** The contexts of [spin_prog] whose loop variable is [k]: in front of the
    [ENDRANGE] and in front of the [RANGE]. *)
Definition spin_ul : gmap nat Value :=
  <[2%nat := VList 2]> (<[1%nat := VList 1]> (<[0%nat := VList 0]> ∅)).
Definition spin_dl : gmap nat DType :=
  <[2%nat := int32]> (<[1%nat := int32]> (<[0%nat := int32]> ∅)).
Definition spin_close (k : Z) : Ctx :=
  mkCtx spin_ul spin_dl [] [] 3 (<[2%nat := 3%nat]> ∅)
        [[VInt 0]; [VInt 0]; [VInt k]] [] [].
Definition spin_open (k : Z) : Ctx :=
  mkCtx spin_ul spin_dl [] [] 2 (<[2%nat := 3%nat]> ∅)
        [[VInt 0]; [VInt 0]; [VInt k]] [] [].

(** The list half way through a lane by lane rewriting of [old] into [new]. *)
Definition mixed {A} (j : nat) (new old : list A) : list A := take j new ++ drop j old.


(** The output after a turn at position [p]. *)
Definition traced (trace : bool) (O : list nat) (p : nat) : list nat :=
  if trace then O ++ [p] else O.

(** A program without a loop close. *)
Definition loop_free (uops : list UOp) : Prop :=
  Forall (λ u : UOp, u.1.1.1 ≠ ENDRANGE) uops.

(** 1 + 2 once more, as a whole call. *)
Definition no_bufs : list nat := [].

(** The first [n] turns of the loop of [run], when it takes that many. *)
Fixpoint turns (uops : list UOp) (warp : list (list Z)) (idxs : list Z) (trace : bool)
    (exec_alu : Arg → DType → list Value → Res Value)
    (truncate : DType → option (Value → Res Value))
    (as_const : Value → DType → Res Value)
    (wmma_model : nat → list Value → string → list (list Value)
                  → Res (Value * list (list Value)))
    (n : nat) (c : Ctx) : option Ctx :=
  match n with
  | O => Some c
  | S n =>
      if bool_decide (pc c < length uops)%nat then
        match step uops warp idxs trace exec_alu truncate as_const wmma_model c with
        | Ok c' => turns uops warp idxs trace exec_alu truncate as_const wmma_model n c'
        | Raise _ => None
        end
      else None
  end.

(** A handler leaves the control state alone. *)
Definition same_control (c c' : Ctx) : Prop :=
  pc c' = pc c ∧ loop_ends c' = loop_ends c.


(** ** The counting loop

    An accumulator seeded with 0 and a loop from 0 to [N] whose body adds 1
    to it and assigns the sum back. *)
Definition ADD : Arg := AOp (OP "ADD").

Definition loop_prog (dt : DType) (N : Z) : list UOp :=
  [ (CONST, Some dt, [], AVal (VInt 0));
    (CONST, Some dt, [], AVal (VInt N));
    (CONST, Some dt, [], AVal (VInt 1));
    (DEFINE_ACC, Some dt, [0; 4]%nat, ANone);
    (RANGE, Some dt, [0; 1]%nat, ANone);
    (ALU, Some dt, [3; 2]%nat, ADD);
    (ASSIGN, Some dt, [3; 5]%nat, ANone);
    (ENDRANGE, None, [4%nat], ANone) ].

(** All [w] lanes hold the int [z]. *)
Definition lanes (w : nat) (z : Z) : list Value := replicate w (VInt z).

(** The context in front of the loop body when the loop variable and the
    accumulator hold [k]; the five lists of the program are the objects
    [n0], ..., [n0 + 4]. *)
Definition body_state (n0 w : nat) (dt : DType) (N k : Z) (c : Ctx) : Prop :=
  pc c = 5%nat ∧
  (∀ j, (j < 5)%nat → ul c !! j = Some (VList (n0 + j))) ∧
  (∀ j, (j < 5)%nat → dl c !! j = Some dt) ∧
  heap c !! n0 = Some (lanes w 0) ∧
  heap c !! (n0 + 1)%nat = Some (lanes w N) ∧
  heap c !! (n0 + 2)%nat = Some (lanes w 1) ∧
  heap c !! (n0 + 3)%nat = Some (lanes w k) ∧
  heap c !! (n0 + 4)%nat = Some (lanes w k).

(** The context the loop leaves: it is over and the accumulator holds [N]. *)
Definition loop_done (n0 w : nat) (N : Z) (c : Ctx) : Prop :=
  pc c = 8%nat ∧ lanes_of c 3 = Some (lanes w N).

(** ** Buffer sizes

    [same_sizes m m']: the bytearrays of [m'] are those of [m], each with
    its length.  [sizes_kept m m']: [m'] may have more behind them. *)
Definition same_sizes (m m' : list (list Z)) : Prop :=
  length <$> m' = length <$> m.

Definition sizes_kept (m m' : list (list Z)) : Prop :=
  (length <$> m) `prefix_of` (length <$> m').

(** ** Launch dimensions

    The name of an axis: a prefix and the digit of the dimension, as in
    [gidx0] and [lidx2]. *)
Definition axis_name (prefix : string) (d : nat) : string :=
  prefix +:+ String (ascii_of_nat (48 + d)) EmptyString.

(** The lanes or coordinates a size tuple gives. *)
Definition grid (sizes : list Z) : list (list Z) := product (range <$> rev sizes).

(** A toy [UOp]: a constant, or an addition of two earlier objects. *)
Inductive Node := Leaf (z : Z) | Plus (a b : Node).

#[global] Instance Node_eq_dec : EqDecision Node.
Proof. solve_decision. Defined.

Definition node_op (n : Node) : UOps := match n with Leaf _ => CONST | Plus _ _ => ALU end.
Definition node_dtype (n : Node) : option DType := Some int32.
Definition node_src (n : Node) : list Node :=
  match n with Leaf _ => [] | Plus a b => [a; b] end.
Definition node_arg (n : Node) : Arg :=
  match n with Leaf z => AVal (VInt z) | Plus _ _ => ADD end.

(** Every operand position of a program is a position of the program. *)
Definition operands_in_range (lops : list UOp) : Prop :=
  Forall (λ u : UOp, Forall (λ v, is_Some (lops !! v)) u.1.2) lops.

(** A turn that pops neither a buffer nor a value. *)
Definition same_args (c c' : Ctx) : Prop :=
  pbufs c' = pbufs c ∧ pvals c' = pvals c.

(** * Properties *)

(** ** The result monad *)

Lemma bind_Ok {A B} (a : A) (f : A → Res B) : (Ok a ≫= f) = f a.
Proof. reflexivity. Qed.

Lemma bind_Raise {A B} (e : PyErr) (f : A → Res B) : (Raise e ≫= f) = Raise e.
Proof. reflexivity. Qed.

Lemma bind_inv_Ok {A B} (m : Res A) (f : A → Res B) (b : B) :
  (m ≫= f) = Ok b → ∃ a, m = Ok a ∧ f a = Ok b.
Proof. destruct m as [a|e]; [eauto | discriminate]. Qed.

Lemma mapR_Ok {A B} (f : A → Res B) (g : A → B) (l : list A) :
  (∀ x, x ∈ l → f x = Ok (g x)) → mapR f l = Ok (map g l).
Proof.
  induction l as [|x l IH]; intros H; simpl; [done|].
  rewrite (H x) by apply list_elem_of_here.
  rewrite bind_Ok, IH; [done|].
  intros y Hy. apply H. by apply list_elem_of_further.
Qed.

Lemma mapR_length {A B} (f : A → Res B) (l : list A) (ys : list B) :
  mapR f l = Ok ys → length ys = length l.
Proof.
  revert ys. induction l as [|x l IH]; intros ys; simpl.
  - by intros [= <-].
  - destruct (f x); [|discriminate]. rewrite bind_Ok.
    destruct (mapR f l) as [zs|]; [|discriminate].
    rewrite bind_Ok. intros [= <-]. simpl. by rewrite (IH zs).
Qed.

(** A [mapR] none of whose calls can raise anything but [e] raises [e]
    exactly when one of the calls does, and returns otherwise. *)
Lemma mapR_Raise_iff {A B} (f : A → Res B) (e : PyErr) (l : list A) :
  (∀ x, x ∈ l → is_ok (f x) = true ∨ f x = Raise e) →
  (mapR f l = Raise e ↔ ∃ x, x ∈ l ∧ f x = Raise e) ∧
  (is_ok (mapR f l) = true ↔ ∀ x, x ∈ l → is_ok (f x) = true).
Proof.
  induction l as [|x l IH]; intros H; simpl.
  - split; split.
    + discriminate.
    + intros (x & Hx & _). by apply elem_of_nil in Hx.
    + intros _ x Hx. by apply elem_of_nil in Hx.
    + done.
  - destruct IH as [IH1 IH2].
    { intros y Hy. apply H. by apply list_elem_of_further. }
    destruct (H x (list_elem_of_here _ _)) as [Hx|Hx].
    + destruct (f x) as [y|] eqn:E; [|discriminate]. rewrite bind_Ok.
      destruct (mapR f l) as [ys|e'] eqn:E'; simpl.
      * split; split.
        -- discriminate.
        -- intros (z & [->|Hz]%elem_of_cons & Hfz); [congruence|].
           assert (@Ok (list B) ys = Raise e) by (apply IH1; eauto). discriminate.
        -- intros _ z [->|Hz]%elem_of_cons; [by rewrite E|]. by apply IH2.
        -- done.
      * split; split.
        -- intros [= ->]. destruct IH1 as [IH1 _].
           destruct (IH1 eq_refl) as (z & Hz & Hfz).
           exists z. split; [by apply list_elem_of_further | done].
        -- intros (z & [->|Hz]%elem_of_cons & Hfz); [congruence|].
           assert (@Raise (list B) e' = Raise e) as [= ->] by (apply IH1; eauto). done.
        -- discriminate.
        -- intros Hall. apply IH2.
           intros z Hz. apply Hall. by apply list_elem_of_further.
    + rewrite Hx. simpl. split; split.
      * intros _. exists x. split; [apply list_elem_of_here | done].
      * done.
      * discriminate.
      * intros Hall. specialize (Hall x (list_elem_of_here _ _)). by rewrite Hx in Hall.
Qed.

(** ** Python indexing *)

Lemma py_index_nat {A} (l : list A) (k : nat) (x : A) :
  l !! k = Some x → py_index l (Z.of_nat k) = Ok x.
Proof.
  intros H. unfold py_index.
  pose proof (lookup_lt_Some _ _ _ H) as Hlt.
  destruct (Z.ltb_spec (Z.of_nat k) 0); [lia|].
  destruct (Z.ltb_spec (Z.of_nat k) 0); [lia|].
  destruct (Z.leb_spec (Z.of_nat (length l)) (Z.of_nat k)); [lia|].
  simpl. by rewrite Nat2Z.id, H.
Qed.

Lemma py_index_in {A} (l : list A) (k : Z) :
  0 ≤ k < Z.of_nat (length l) → ∃ x, l !! Z.to_nat k = Some x ∧ py_index l k = Ok x.
Proof.
  intros Hk. destruct (lookup_lt_is_Some_2 l (Z.to_nat k)) as [x Hx]; [lia|].
  exists x. split; [done|]. rewrite <- (Z2Nat.id k) by lia. by apply py_index_nat.
Qed.

(** ** The memory layer *)

Lemma mv_items_Ok (mem : list (list Z)) (b : nat) (f : Fmt) (bs : list Z) :
  mem !! b = Some bs →
  mv_items mem b f =
    Ok (map (λ k, unpack_item f (take (calcsize f) (drop (k * calcsize f) bs)))
            (seq 0 (length bs `div` calcsize f))).
Proof.
  intros H. unfold mv_items, mv_len. rewrite H, bind_Ok, Nat2Z.id.
  apply mapR_Ok. intros k _. unfold mv_item. by rewrite H.
Qed.

Lemma mv_getitem_in (heap : list (list Value)) (mem : list (list Z)) b f n i :
  mv_len mem b f = Ok n → 0 ≤ i < n →
  py_getitem heap mem (VBuf b f) i = mv_item mem b f (Z.to_nat i).
Proof.
  unfold mv_len, mv_item. intros H Hi. simpl.
  destruct (mem !! b) as [bs|] eqn:E; [|discriminate]. injection H as <-.
  rewrite (mv_items_Ok _ _ _ _ E), bind_Ok.
  rewrite <- (Z2Nat.id i) at 1 by lia. apply py_index_nat.
  rewrite list_lookup_fmap, lookup_seq_lt by lia. done.
Qed.

Lemma pack_item_not_IndexError strict f truth v :
  pack_item strict f truth v ≠ Raise IndexError.
Proof.
  unfold pack_item. destruct (fmt_class f); [done| |].
  - destruct (as_index v); [|by destruct strict].
    destruct (int_range _ _ _); [done | by destruct strict].
  - assert (as_float v ≠ Raise IndexError) as Hf.
    { unfold as_float. repeat case_match; done. }
    destruct (as_float v) as [x|e]; simpl; [|congruence].
    by case_match.
Qed.

Lemma mapR_map {A B C} (f : B → Res C) (g : A → B) (l : list A) :
  mapR f (map g l) = mapR (λ x, f (g x)) l.
Proof. induction l as [|x l IH]; simpl; [done|]. by rewrite IH. Qed.

Lemma mapR_ext {A B} (f g : A → Res B) (l : list A) :
  (∀ x, f x = g x) → mapR f l = mapR g l.
Proof. intros H. induction l as [|x l IH]; simpl; [done|]. by rewrite H, IH. Qed.

Lemma _load_out_of_bounds heap mem m i n :
  py_len heap mem m = Ok n → i < 0 ∨ n ≤ i → _load heap mem m i = Raise IndexError.
Proof.
  intros Hn Hi. unfold _load. destruct (Z.ltb_spec i 0); [done|].
  rewrite Hn, bind_Ok. destruct (Z.leb_spec n i); [done | lia].
Qed.

Lemma _store_out_of_bounds heap mem m i v n :
  py_len heap mem m = Ok n → i < 0 ∨ n ≤ i → _store heap mem m i v = Raise IndexError.
Proof.
  intros Hn Hi. unfold _store. destruct (Z.ltb_spec i 0); [done|].
  rewrite Hn, bind_Ok. destruct (Z.leb_spec n i); [done | lia].
Qed.

Lemma _load_in_bounds heap mem b f i n :
  mv_len mem b f = Ok n → 0 ≤ i < n →
  _load heap mem (VBuf b f) i = mv_item mem b f (Z.to_nat i) ∧
  is_ok (_load heap mem (VBuf b f) i) = true.
Proof.
  intros Hn Hi. unfold _load. destruct (Z.ltb_spec i 0); [lia|].
  simpl py_len. rewrite Hn, bind_Ok. destruct (Z.leb_spec n i); [lia|].
  rewrite (mv_getitem_in _ _ _ _ _ _ Hn Hi). split; [done|].
  unfold mv_len in Hn. unfold mv_item. by destruct (mem !! b).
Qed.

Lemma _store_in_bounds heap mem b f i v n :
  mv_len mem b f = Ok n → 0 ≤ i < n →
  _store heap mem (VBuf b f) i v = py_setitem heap mem (VBuf b f) i v ∧
  _store heap mem (VBuf b f) i v ≠ Raise IndexError.
Proof.
  intros Hn Hi.
  assert ((i <? 0) = false) as Hlt by (apply Z.ltb_ge; lia).
  assert ((n <=? i) = false) as Hle by (apply Z.leb_gt; lia).
  unfold _store. simpl py_len. rewrite Hlt, Hn, bind_Ok, Hle.
  split; [done|]. simpl. rewrite Hn, bind_Ok, !Hlt, Hle. simpl.
  pose proof (pack_item_not_IndexError false f (py_truth heap mem) v) as Hp.
  destruct (pack_item false f (py_truth heap mem) v) as [bs|e]; simpl; [|congruence].
  unfold mv_len in Hn. by destruct (mem !! b).
Qed.

Section Abort.
Variable uops : list UOp.
Variable trace : bool.
Variable exec_alu : Arg → DType → list Value → Res Value.
Variable truncate : DType → option (Value → Res Value).
Variable as_const : Value → DType → Res Value.
Variable wmma_model :
  nat → list Value → string → list (list Value) → Res (Value * list (list Value)).
Variable perf_counter : nat → Q.

Lemma run_step_Raise warp idxs fuel c e :
  (pc c < length uops)%nat →
  step uops warp idxs trace exec_alu truncate as_const wmma_model c = Raise e →
  run uops warp idxs trace exec_alu truncate as_const wmma_model (S fuel) c
    = Some (Raise e).
Proof. intros Hpc Hs. simpl. rewrite bool_decide_true by done. by rewrite Hs. Qed.

Lemma run_coords_Raise fuel warp bufs vals idxs rest w e :
  run_coord uops trace exec_alu truncate as_const wmma_model fuel warp bufs vals idxs w
    = Some (Raise e) →
  run_coords uops trace exec_alu truncate as_const wmma_model fuel warp bufs vals
    (idxs :: rest) w = Some (Raise e).
Proof. intros H. simpl. by rewrite H. Qed.

Lemma call_Raise fuel bufs global_size local_size vals mem e :
  run_coords uops trace exec_alu truncate as_const wmma_model fuel
    (product (range <$> rev local_size)) bufs vals
    (product (range <$> rev global_size)) ([], mem, []) = Some (Raise e) →
  call uops trace exec_alu truncate as_const wmma_model perf_counter fuel bufs
    global_size local_size vals mem = Some (Raise e).
Proof. intros H. unfold call. by rewrite H. Qed.
End Abort.

Lemma zip_lanes lanes :
  zip (lane_bufs lanes) (lane_offsets lanes)
  = map (λ t, (VBuf t.1.1 t.1.2, VInt t.2)) lanes.
Proof. induction lanes as [|t l IH]; simpl; [done|]. by rewrite <- IH. Qed.



(** ** Bytes *)

Lemma le_bytes_length n z : length (le_bytes n z) = n.
Proof. revert z. induction n as [|n IH]; intros z; simpl; [done|]. by rewrite IH. Qed.

Lemma le_int_le_bytes n z : le_int (le_bytes n z) = z `mod` 2 ^ (8 * Z.of_nat n).
Proof.
  revert z. induction n as [|n IH]; intros z.
  - simpl. by rewrite Z.mod_1_r.
  - cbn [le_bytes le_int]. rewrite IH.
    replace (8 * Z.of_nat (S n)) with (8 + 8 * Z.of_nat n) by lia.
    rewrite Z.pow_add_r by lia. change (2 ^ 8) with 256.
    rewrite Z.rem_mul_r; [done | lia | ]. apply Z.pow_pos_nonneg; lia.
Qed.

Lemma le_bytes_valid n z : Forall (λ b, 0 ≤ b < 256) (le_bytes n z).
Proof.
  revert z. induction n as [|n IH]; intros z; simpl; constructor; [|apply IH].
  apply Z.mod_pos_bound. lia.
Qed.

(** A byte string is the little-endian writing of the number it reads as. *)
Lemma le_bytes_le_int bs :
  Forall (λ b, 0 ≤ b < 256) bs → le_bytes (length bs) (le_int bs) = bs.
Proof.
  induction 1 as [|b bs Hb _ IH]; simpl; [done|].
  replace (b + 256 * le_int bs) with (b + le_int bs * 256) by lia.
  rewrite Z.mod_add, Z.div_add by lia.
  rewrite (Z.mod_small b), (Z.div_small b), Z.add_0_l by done. by rewrite IH.
Qed.

Lemma le_int_bound bs :
  Forall (λ b, 0 ≤ b < 256) bs → 0 ≤ le_int bs < 2 ^ (8 * Z.of_nat (length bs)).
Proof.
  intros H. rewrite <- (le_bytes_le_int bs H) at 1 2.
  rewrite le_int_le_bytes. apply Z.mod_pos_bound. apply Z.pow_pos_nonneg; lia.
Qed.

(** The [k]-th of equally long chunks laid end to end. *)
Lemma concat_chunk {A} (n : nat) (bss : list (list A)) (k : nat) (bs : list A) :
  Forall (λ b, length b = n) bss → bss !! k = Some bs →
  take n (drop (k * n) (concat bss)) = bs.
Proof.
  intros H. revert k. induction H as [|b bss Hb _ IH]; intros k Hk; [done|].
  destruct k as [|k]; simpl in *.
  - injection Hk as ->. rewrite drop_0. by apply take_app_length'.
  - rewrite drop_app_add' by done. by apply IH.
Qed.

Lemma map_chunks {A B} (g : list A → B) (n : nat) (bss : list (list A)) :
  Forall (λ b, length b = n) bss →
  map (λ k, g (take n (drop (k * n) (concat bss)))) (seq 0 (length bss)) = map g bss.
Proof.
  intros H. apply list_eq. intros k. rewrite !list_lookup_fmap.
  destruct (bss !! k) as [bs|] eqn:E; simpl.
  - rewrite lookup_seq_lt by (by eapply lookup_lt_Some). simpl.
    by rewrite (concat_chunk n bss k bs).
  - rewrite lookup_seq_ge; [done|]. by apply lookup_ge_None.
Qed.

Lemma concat_length_chunks {A} (n : nat) (bss : list (list A)) :
  Forall (λ b, length b = n) bss → length (concat bss) = (length bss * n)%nat.
Proof. induction 1 as [|b bss Hb _ IH]; simpl; [done|]. rewrite length_app. lia. Qed.

(** ** struct *)

Lemma fmt_class_CBool f : fmt_class f = CBool → calcsize f = 1%nat.
Proof. by destruct f. Qed.

Lemma pack_item_length strict f truth v bs :
  pack_item strict f truth v = Ok bs → length bs = calcsize f.
Proof.
  unfold pack_item. destruct (fmt_class f) eqn:E.
  - intros [= <-]. by rewrite fmt_class_CBool.
  - destruct (as_index v); [|discriminate].
    destruct (int_range _ _ _); [|discriminate].
    intros [= <-]. apply le_bytes_length.
  - destruct (as_float v); [|discriminate]. rewrite bind_Ok.
    case_match; [discriminate|]. intros [= <-]. apply le_bytes_length.
Qed.

Lemma mapR_Forall {A B} (f : A → Res B) (P : B → Prop) (l : list A) (ys : list B) :
  (∀ x y, f x = Ok y → P y) → mapR f l = Ok ys → Forall P ys.
Proof.
  intros H. revert ys. induction l as [|x l IH]; intros ys; simpl.
  - intros [= <-]. constructor.
  - destruct (f x) as [y|] eqn:E; [|discriminate]. rewrite bind_Ok.
    destruct (mapR f l) as [zs|]; [|discriminate].
    rewrite bind_Ok. intros [= <-]. constructor; eauto.
Qed.

(** [struct.unpack] after [struct.pack] takes the lanes apart again: lane
    [k] is read from the bytes of lane [k]. *)
Lemma struct_unpack_pack warp heap mem src dst xs bs :
  calcsize src = calcsize dst →
  struct_pack warp heap mem src xs = Ok bs →
  ∃ bss, mapR (pack_item true src (py_truth heap mem)) xs = Ok bss ∧
         bs = concat bss ∧
         struct_unpack warp dst bs = Ok (unpack_item dst <$> bss).
Proof.
  intros Hsz. unfold struct_pack, struct_unpack, warp_size.
  case_bool_decide as Hlen; [|discriminate].
  destruct (mapR _ xs) as [bss|] eqn:E; [|discriminate].
  rewrite bind_Ok. intros [= <-]. exists bss. split; [done|]. split; [done|].
  assert (Forall (λ b, length b = calcsize dst) bss) as Hall.
  { eapply mapR_Forall; [|exact E]. intros x y Hy. rewrite <- Hsz.
    by eapply pack_item_length. }
  pose proof (mapR_length _ _ _ E) as Hl.
  rewrite (concat_length_chunks _ _ Hall), bool_decide_true by lia.
  f_equal. rewrite <- Hlen, <- Hl. by apply map_chunks.
Qed.

(** ** Integer casts *)

Lemma unpack_pack_int strict f truth signed z :
  fmt_class f = CInt signed → int_range signed (calcsize f) z = true →
  ∃ bs, pack_item strict f truth (VInt z) = Ok bs ∧ unpack_item f bs = VInt z.
Proof.
  intros Hc Hr. unfold pack_item, unpack_item. rewrite Hc. simpl. rewrite Hr.
  eexists. split; [done|]. rewrite le_int_le_bytes. unfold fmt_bits.
  set (b := 8 * Z.of_nat (calcsize f)).
  assert (0 < b) by (unfold b; destruct f; simpl; lia).
  assert (2 ^ b = 2 * 2 ^ (b - 1)) as Hpow.
  { rewrite <- Z.pow_succ_r by lia. f_equal. lia. }
  assert (0 < 2 ^ (b - 1)) by (apply Z.pow_pos_nonneg; lia).
  rewrite Z.mod_mod by lia.
  unfold int_range in Hr. fold b in Hr. destruct signed.
  - apply andb_true_iff in Hr as [H1%Z.leb_le H2%Z.ltb_lt].
    destruct (Z.leb_spec (2 ^ (b - 1)) (z `mod` 2 ^ b)) as [Hge|Hlt]; f_equal.
    + destruct (decide (z < 0)) as [Hneg|Hpos].
      * rewrite <- (Z.mod_add z 1) by lia. rewrite Z.mod_small; lia.
      * rewrite Z.mod_small in Hge; lia.
    + destruct (decide (z < 0)) as [Hneg|Hpos].
      * rewrite <- (Z.mod_add z 1) in Hlt by lia. rewrite Z.mod_small in Hlt; lia.
      * rewrite Z.mod_small; lia.
  - apply andb_true_iff in Hr as [H1%Z.leb_le H2%Z.ltb_lt].
    f_equal. rewrite Z.mod_small; lia.
Qed.

Lemma int_wrap_spec d x :
  let b := Z.pos (itemsize d) * 8 in
  (int_wrap d x - x) `mod` 2 ^ b = 0 ∧
  (if is_unsigned d then 0 ≤ int_wrap d x ≤ 2 ^ b - 1
   else - 2 ^ (b - 1) ≤ int_wrap d x ≤ 2 ^ (b - 1) - 1).
Proof.
  intros b. unfold int_wrap, overflow_adjust. fold b.
  assert (0 < b) by (unfold b; lia).
  assert (2 ^ b = 2 * 2 ^ (b - 1)) as Hpow.
  { rewrite <- Z.pow_succ_r by lia. f_equal. lia. }
  assert (0 < 2 ^ (b - 1)) by (apply Z.pow_pos_nonneg; lia).
  split.
  - set (a := if negb (is_unsigned d) then 2 ^ (b - 1) else 0).
    replace ((x + a) `mod` 2 ^ b - a - x)
      with ((x + a) `mod` 2 ^ b - (x + a)) by lia.
    rewrite Zminus_mod, Z.mod_mod by lia. rewrite Z.sub_diag. by apply Z.mod_0_l; lia.
  - destruct (is_unsigned d); simpl.
    + pose proof (Z.mod_pos_bound (x + 0) (2 ^ b)). lia.
    + pose proof (Z.mod_pos_bound (x + 2 ^ (b - 1)) (2 ^ b)). lia.
Qed.

Lemma int_wrap_in_range d f z :
  fmt_class f = CInt (negb (is_unsigned d)) → calcsize f = Pos.to_nat (itemsize d) →
  int_range (negb (is_unsigned d)) (calcsize f) (int_wrap d z) = true.
Proof.
  intros Hc Hs. pose proof (int_wrap_spec d z) as [_ Hr]. simpl in Hr.
  unfold int_range. rewrite Hs.
  replace (8 * Z.of_nat (Pos.to_nat (itemsize d))) with (Z.pos (itemsize d) * 8) by lia.
  destruct (is_unsigned d); simpl; apply andb_true_iff; split;
    try apply Z.leb_le; try apply Z.ltb_lt; lia.
Qed.

Lemma struct_roundtrip_int warp heap mem f signed ws :
  fmt_class f = CInt signed →
  (∀ z, z ∈ ws → int_range signed (calcsize f) z = true) →
  length ws = length warp →
  ∃ bs, struct_pack warp heap mem f (VInt <$> ws) = Ok bs ∧
        struct_unpack warp f bs = Ok (VInt <$> ws).
Proof.
  intros Hc Hr Hlen.
  set (g := λ z, le_bytes (calcsize f) (z `mod` 2 ^ fmt_bits f)).
  assert (mapR (pack_item true f (py_truth heap mem)) (VInt <$> ws) = Ok (g <$> ws))
    as Hpack.
  { rewrite mapR_map. apply mapR_Ok. intros z Hz.
    unfold pack_item. rewrite Hc. simpl. by rewrite (Hr z Hz). }
  assert (struct_pack warp heap mem f (VInt <$> ws) = Ok (concat (g <$> ws))) as Hsp.
  { unfold struct_pack, warp_size. rewrite length_fmap, bool_decide_true by done.
    by rewrite Hpack. }
  exists (concat (g <$> ws)). split; [done|].
  destruct (struct_unpack_pack warp heap mem f f _ _ eq_refl Hsp)
    as (bss & Hbss & _ & ->).
  rewrite Hpack in Hbss. injection Hbss as <-. f_equal.
  rewrite <- list_fmap_compose. apply list_fmap_ext. intros k z Hz. simpl.
  destruct (unpack_pack_int true f (py_truth heap mem) signed z Hc) as (bs & Hbs & Hu).
  { apply Hr. by eapply list_elem_of_lookup_2. }
  unfold pack_item in Hbs. rewrite Hc in Hbs. simpl in Hbs.
  rewrite Hr in Hbs by (by eapply list_elem_of_lookup_2).
  injection Hbs as <-. done.
Qed.

Lemma exec_cast_int warp truncate as_const i dtype inp dtp c d0 f0 f v0 xs zs :
  is_int dtype = true → fmt dtype = Some f →
  fmt_class f = CInt (negb (is_unsigned dtype)) →
  calcsize f = Pos.to_nat (itemsize dtype) →
  py_index dtp 0 = Ok d0 → fmt d0 = Some f0 →
  py_index inp 0 = Ok v0 → py_iter (heap c) (mem c) v0 = Ok xs →
  length xs = length warp →
  mapR (λ x, as_const x dtype) xs = Ok (VInt <$> zs) →
  exec_cast warp truncate as_const false i dtype inp dtp c
  = Ok (bind_new i (VInt <$> (int_wrap dtype <$> zs)) c).
Proof.
  intros Hint Hf Hc Hs Hd0 Hf0 Hv0 Hxs Hlen Hcast.
  unfold exec_cast. rewrite Hd0, bind_Ok, Hf0, Hf, Hv0, bind_Ok, Hxs, bind_Ok.
  rewrite Hcast, bind_Ok, Hint.
  assert (mapR (λ x, lane_int x ≫= λ z, Ok (VInt (int_wrap dtype z))) (VInt <$> zs)
          = Ok (VInt <$> (int_wrap dtype <$> zs))) as ->.
  { rewrite mapR_map, <- list_fmap_compose. by apply mapR_Ok. }
  rewrite bind_Ok.
  destruct (struct_roundtrip_int warp (heap c) (mem c) f (negb (is_unsigned dtype))
              (int_wrap dtype <$> zs) Hc) as (bs & -> & Hu).
  - intros z (y & -> & _)%list_elem_of_fmap. by apply int_wrap_in_range.
  - rewrite length_fmap. apply mapR_length in Hcast.
    rewrite length_fmap in Hcast. lia.
  - by rewrite bind_Ok, Hu, bind_Ok.
Qed.

(** C3. A [CAST] to an integer dtype leaves in every lane the value reduced
    modulo [2^bits] into the range of the dtype, [-2^(bits-1) .. 2^(bits-1)-1]
    when signed and [0 .. 2^bits-1] when unsigned; 130 becomes -126 as an
    int8 and stays 130 as a uint8. *)
Theorem cast_to_int_wraps :
  (∀ d x, let b := Z.pos (itemsize d) * 8 in
     (int_wrap d x - x) `mod` 2 ^ b = 0 ∧
     (if is_unsigned d then 0 ≤ int_wrap d x ≤ 2 ^ b - 1
      else - 2 ^ (b - 1) ≤ int_wrap d x ≤ 2 ^ (b - 1) - 1)) ∧
  (∀ warp truncate as_const i dtype inp dtp c d0 f0 f v0 xs zs,
     is_int dtype = true → fmt dtype = Some f →
     fmt_class f = CInt (negb (is_unsigned dtype)) →
     calcsize f = Pos.to_nat (itemsize dtype) →
     py_index dtp 0 = Ok d0 → fmt d0 = Some f0 →
     py_index inp 0 = Ok v0 → py_iter (heap c) (mem c) v0 = Ok xs →
     length xs = length warp →
     mapR (λ x, as_const x dtype) xs = Ok (VInt <$> zs) →
     exec_cast warp truncate as_const false i dtype inp dtp c
     = Ok (bind_new i (VInt <$> (int_wrap dtype <$> zs)) c)) ∧
  int_wrap int8 130 = -126 ∧
  int_wrap uint8 130 = 130 ∧
  result_lanes (run (cast_prog int8 130) two_lanes origin false add_alu no_truncate
                    id_const no_wmma 2 (init_ctx [] [] empty_world)) 1
  = Some [VInt (-126); VInt (-126)] ∧
  result_lanes (run (cast_prog uint8 130) two_lanes origin false add_alu no_truncate
                    id_const no_wmma 2 (init_ctx [] [] empty_world)) 1
  = Some [VInt 130; VInt 130].
Proof.
  split; [|split; [|split; [|split; [|split]]]].
  - intros d x. apply int_wrap_spec.
  - intros. by eapply exec_cast_int.
  - reflexivity.
  - reflexivity.
  - vm_compute. reflexivity.
  - vm_compute. reflexivity.
Qed.

Lemma cast_to_int_wraps_witness :
  exec_cast [origin] no_truncate id_const false 1 int8 [VList 0] [int32]
    (bind_new 0 [VInt 130] (init_ctx [] [] empty_world))
  = Ok (bind_new 1 [VInt (-126)] (bind_new 0 [VInt 130] (init_ctx [] [] empty_world))).
Proof.
  apply (proj1 (proj2 cast_to_int_wraps) [origin] no_truncate id_const 1%nat int8
           [VList 0] [int32] (bind_new 0 [VInt 130] (init_ctx [] [] empty_world))
           int32 Fi Fb (VList 0) [VInt 130] [130]); reflexivity.
Defined.

(** ** Bit reinterpretation *)

Lemma exec_bitcast_lanes warp truncate as_const i dtype inp dtp c d0 src dst v0 xs bss :
  py_index dtp 0 = Ok d0 → fmt d0 = Some src → fmt dtype = Some dst →
  calcsize src = calcsize dst →
  py_index inp 0 = Ok v0 → py_iter (heap c) (mem c) v0 = Ok xs →
  length xs = length warp →
  mapR (pack_item true src (py_truth (heap c) (mem c))) xs = Ok bss →
  exec_cast warp truncate as_const true i dtype inp dtp c
  = Ok (bind_new i (unpack_item dst <$> bss) c).
Proof.
  intros Hd0 Hsrc Hdst Hsz Hv0 Hxs Hlen Hpack.
  unfold exec_cast. rewrite Hd0, bind_Ok, Hsrc, Hdst, Hv0, bind_Ok, Hxs, bind_Ok.
  assert (struct_pack warp (heap c) (mem c) src xs = Ok (concat bss)) as Hsp.
  { unfold struct_pack, warp_size. rewrite bool_decide_true by done. by rewrite Hpack. }
  destruct (struct_unpack_pack warp (heap c) (mem c) src dst _ _ Hsz Hsp)
    as (bss' & Hbss & _ & Hu).
  rewrite Hpack in Hbss. injection Hbss as <-.
  by rewrite Hsp, bind_Ok, Hu, bind_Ok.
Qed.

(** Reading bytes as an integer and writing that integer gives the bytes. *)
Lemma pack_unpack_int strict dst truth signed bs :
  fmt_class dst = CInt signed → length bs = calcsize dst →
  Forall (λ b, 0 ≤ b < 256) bs →
  pack_item strict dst truth (unpack_item dst bs) = Ok bs.
Proof.
  intros Hc Hlen Hbs. pose proof (le_int_bound bs Hbs) as Hu.
  rewrite Hlen in Hu. fold (fmt_bits dst) in Hu.
  set (b := fmt_bits dst) in *.
  assert (0 < b) by (unfold b, fmt_bits; destruct dst; simpl; lia).
  assert (2 ^ b = 2 * 2 ^ (b - 1)) as Hpow.
  { rewrite <- Z.pow_succ_r by lia. f_equal. lia. }
  assert (0 < 2 ^ (b - 1)) by (apply Z.pow_pos_nonneg; lia).
  assert (∀ z, z `mod` 2 ^ b = le_int bs →
               int_range signed (calcsize dst) z = true →
               pack_item strict dst truth (VInt z) = Ok bs) as Hgo.
  { intros z Hz Hr. unfold pack_item. rewrite Hc. simpl. rewrite Hr. fold b.
    rewrite Hz, <- Hlen. by rewrite le_bytes_le_int. }
  unfold unpack_item. rewrite Hc. fold b. unfold int_range in Hgo.
  fold (fmt_bits dst) in Hgo. fold b in Hgo. destruct signed.
  - destruct (Z.leb_spec (2 ^ (b - 1)) (le_int bs)); apply Hgo.
    + rewrite <- (Z.mod_add _ 1) by lia. rewrite Z.mod_small; lia.
    + apply andb_true_iff. split; [apply Z.leb_le | apply Z.ltb_lt]; lia.
    + rewrite Z.mod_small; lia.
    + apply andb_true_iff. split; [apply Z.leb_le | apply Z.ltb_lt]; lia.
  - apply Hgo.
    + rewrite Z.mod_small; lia.
    + apply andb_true_iff. split; [apply Z.leb_le | apply Z.ltb_lt]; lia.
Qed.

(** C8. A [BITCAST] reads every lane's bytes in the destination format:
    the value is not converted, and for an integer destination the result
    writes back to those very bytes.  The float 1.0 read as a uint32 is
    0x3F800000, and that read as a float32 is 1.0 again. *)
Theorem bitcast_reinterprets :
  (∀ warp truncate as_const i dtype inp dtp c d0 src dst v0 xs bss,
     py_index dtp 0 = Ok d0 → fmt d0 = Some src → fmt dtype = Some dst →
     calcsize src = calcsize dst →
     py_index inp 0 = Ok v0 → py_iter (heap c) (mem c) v0 = Ok xs →
     length xs = length warp →
     mapR (pack_item true src (py_truth (heap c) (mem c))) xs = Ok bss →
     exec_cast warp truncate as_const true i dtype inp dtp c
     = Ok (bind_new i (unpack_item dst <$> bss) c)) ∧
  (∀ strict dst truth signed bs,
     fmt_class dst = CInt signed → length bs = calcsize dst →
     Forall (λ b, 0 ≤ b < 256) bs →
     pack_item strict dst truth (unpack_item dst bs) = Ok bs) ∧
  (∀ truth,
     pack_item true Ff truth (VFloat float_one) = Ok [0; 0; 128; 63] ∧
     unpack_item FI [0; 0; 128; 63] = VInt 0x3F800000 ∧
     pack_item true FI truth (VInt 0x3F800000) = Ok [0; 0; 128; 63] ∧
     unpack_item Ff [0; 0; 128; 63] = VFloat float_one) ∧
  result_lanes (run bitcast_prog two_lanes origin false add_alu no_truncate
                    id_const no_wmma 3 (init_ctx [] [] empty_world)) 1
  = Some [VInt 0x3F800000; VInt 0x3F800000] ∧
  result_lanes (run bitcast_prog two_lanes origin false add_alu no_truncate
                    id_const no_wmma 3 (init_ctx [] [] empty_world)) 2
  = Some [VFloat float_one; VFloat float_one].
Proof.
  split; [|split; [|split; [|split]]].
  - intros. by eapply exec_bitcast_lanes.
  - intros. by eapply pack_unpack_int.
  - intros truth. repeat split; vm_compute; reflexivity.
  - vm_compute. reflexivity.
  - vm_compute. reflexivity.
Qed.

Lemma bitcast_reinterprets_witness :
  exec_cast [origin] no_truncate id_const true 1 uint32 [VList 0] [float32]
    (bind_new 0 [VFloat float_one] (init_ctx [] [] empty_world))
  = Ok (bind_new 1 [VInt 0x3F800000]
          (bind_new 0 [VFloat float_one] (init_ctx [] [] empty_world))).
Proof.
  apply (proj1 bitcast_reinterprets [origin] no_truncate id_const 1%nat uint32
           [VList 0] [float32]
           (bind_new 0 [VFloat float_one] (init_ctx [] [] empty_world))
           float32 Ff FI (VList 0) [VFloat float_one] [[0; 0; 128; 63]]);
    reflexivity.
Defined.

(** ** Elementwise arithmetic *)

Lemma all_same_true {A} `{EqDecision A} (l : list A) :
  all_same l = true ↔ ∀ x y, x ∈ l → y ∈ l → x = y.
Proof.
  destruct l as [|a l]; [split; [intros _ x y Hx; by apply elem_of_nil in Hx | done]|].
  unfold all_same. rewrite forallb_forall. split.
  - intros H x y Hx Hy. apply list_elem_of_In in Hx, Hy.
    apply H in Hx, Hy. apply bool_decide_eq_true in Hx, Hy. congruence.
  - intros H x Hx. apply bool_decide_eq_true. apply list_elem_of_In in Hx.
    apply H; [done | apply list_elem_of_here].
Qed.

Lemma all_same_cons {A} `{EqDecision A} (d : A) (l : list A) :
  all_same (d :: l) = true ↔ Forall (λ x, x = d) l.
Proof.
  rewrite all_same_true, Forall_forall. split.
  - intros H x Hx. apply H; [by apply list_elem_of_further | apply list_elem_of_here].
  - intros H x y [->|Hx]%elem_of_cons [->|Hy]%elem_of_cons; try done.
    + symmetry. by apply H.
    + by apply H.
    + rewrite (H x Hx). symmetry. by apply H.
Qed.

Lemma alu_exempt_true arg :
  alu_exempt arg = true ↔ arg = AOp CMPNE ∨ arg = AOp CMPLT ∨ arg = AOp WHERE.
Proof.
  split.
  - destruct arg as [| | | |[]|]; simpl; try discriminate; auto.
  - intros [->|[->| ->]]; reflexivity.
Qed.

(** The tuple [zip] hands to lane [k] holds item [k] of every operand. *)
Lemma zip_star_lookup {A} (ls : list (list A)) (k : nat) :
  ls ≠ [] → zip_star ls !! k = mapM (λ l, l !! k) ls.
Proof.
  induction ls as [|l ls IH]; [done|]. intros _.
  destruct ls as [|l' ls].
  - simpl. rewrite list_lookup_fmap. by destruct (l !! k).
  - change (zip_star (l :: l' :: ls)) with (zip_with cons l (zip_star (l' :: ls))).
    rewrite lookup_zip_with. rewrite IH by done.
    change (mapM (λ l0, l0 !! k) (l :: l' :: ls))
      with (l !! k ≫= λ y, mapM (λ l0, l0 !! k) (l' :: ls) ≫= λ t, mret (y :: t)).
    destruct (l !! k); [|done]. simpl.
    by destruct (mapM (λ l0, l0 !! k) (l' :: ls)).
Qed.

Lemma exec_alu_uop_spec exec_alu i dtype arg inp dtp c lens :
  mapR (py_len (heap c) (mem c)) inp = Ok lens →
  (¬ alu_precondition dtype arg lens dtp →
   exec_alu_uop exec_alu i dtype arg inp dtp c = Raise AssertionError) ∧
  (alu_precondition dtype arg lens dtp →
   exec_alu_uop exec_alu i dtype arg inp dtp c
   = (mapR (py_iter (heap c) (mem c)) inp ≫= λ ls,
      mapR (exec_alu arg dtype) (zip_star ls) ≫= λ ys, Ok (bind_new i ys c))).
Proof.
  intros Hlens. unfold exec_alu_uop, alu_precondition. rewrite Hlens, bind_Ok.
  rewrite <- all_same_true, <- all_same_cons, <- alu_exempt_true.
  generalize (all_same lens) (all_same (dtype :: dtp)) (alu_exempt arg).
  intros [] [] []; simpl; (split; [intros Hn | intros [? [|]]]); try done;
    exfalso; apply Hn; auto.
Qed.

Section Alu.
Variable uops : list UOp.
Variable warp : list (list Z).
Variable idxs : list Z.
Variable trace : bool.
Variable exec_alu : Arg → DType → list Value → Res Value.
Variable truncate : DType → option (Value → Res Value).
Variable as_const : Value → DType → Res Value.
Variable wmma_model :
  nat → list Value → string → list (list Value) → Res (Value * list (list Value)).

Lemma step_alu c dtype idp arg inp dtp lens :
  uops !! pc c = Some (ALU, Some dtype, idp, arg) →
  operands uops (ul c) idp = Ok inp →
  operands uops (dl c) idp = Ok dtp →
  mapR (py_len (heap c) (mem c)) inp = Ok lens →
  (¬ alu_precondition dtype arg lens dtp →
   step uops warp idxs trace exec_alu truncate as_const wmma_model c
   = Raise AssertionError) ∧
  (alu_precondition dtype arg lens dtp →
   ∀ ls ys, mapR (py_iter (heap c) (mem c)) inp = Ok ls →
            mapR (exec_alu arg dtype) (zip_star ls) = Ok ys →
            step uops warp idxs trace exec_alu truncate as_const wmma_model c
            = Ok (set_pc (pc c + 1) (bind_new (pc c) ys (entered trace dtype c)))).
Proof.
  intros Hu Hinp Hdtp Hlens. unfold step. rewrite Hu. simpl.
  rewrite Hinp, Hdtp. simpl.
  fold (entered trace dtype c).
  assert (heap (entered trace dtype c) = heap c ∧ mem (entered trace dtype c) = mem c) as [Hh Hm].
  { unfold entered. by destruct trace. }
  destruct (exec_alu_uop_spec exec_alu (pc c) dtype arg inp dtp (entered trace dtype c) lens)
    as [Hbad Hgood]; [by rewrite Hh, Hm|].
  split.
  - intros Hn. by rewrite (Hbad Hn).
  - intros Hp ls ys Hls Hys. rewrite (Hgood Hp), Hh, Hm, Hls, bind_Ok, Hys. simpl.
    unfold bind_new at 1. simpl. by rewrite lookup_insert_eq.
Qed.
End Alu.

(** C7. An [ALU] uop raises [AssertionError] unless its operands are all of
    one length and, the operation not being [CMPNE], [CMPLT] or [WHERE], all
    of the result's dtype; when they are, lane [k] of the result is
    [exec_alu] applied to the tuple of the operands' items [k]. *)
Theorem alu_precondition_checked :
  ∀ uops warp idxs trace exec_alu truncate as_const wmma_model c
    dtype idp arg inp dtp lens,
    uops !! pc c = Some (ALU, Some dtype, idp, arg) →
    operands uops (ul c) idp = Ok inp →
    operands uops (dl c) idp = Ok dtp →
    mapR (py_len (heap c) (mem c)) inp = Ok lens →
    (¬ alu_precondition dtype arg lens dtp →
     step uops warp idxs trace exec_alu truncate as_const wmma_model c
     = Raise AssertionError) ∧
    (alu_precondition dtype arg lens dtp →
     ∀ ls ys, mapR (py_iter (heap c) (mem c)) inp = Ok ls →
              mapR (exec_alu arg dtype) (zip_star ls) = Ok ys →
              step uops warp idxs trace exec_alu truncate as_const wmma_model c
              = Ok (set_pc (pc c + 1) (bind_new (pc c) ys (entered trace dtype c))) ∧
              (inp ≠ [] → ∀ k y, ys !! k = Some y →
                 ∃ p, mapM (λ l, l !! k) ls = Some p ∧ exec_alu arg dtype p = Ok y)).
Proof.
  intros uops warp idxs trace exec_alu truncate as_const wmma_model c
    dtype idp arg inp dtp lens Hu Hinp Hdtp Hlens.
  destruct (step_alu uops warp idxs trace exec_alu truncate as_const wmma_model
              c dtype idp arg inp dtp lens Hu Hinp Hdtp Hlens) as [Hbad Hgood].
  split; [done|]. intros Hp ls ys Hls Hys. split; [by apply (Hgood Hp ls ys)|].
  intros Hne k y Hy.
  assert (ls ≠ []) as Hls'.
  { apply mapR_length in Hls. destruct ls; [|done]. by destruct inp. }
  rewrite <- zip_star_lookup by done.
  clear -Hys Hy. revert ys k Hys Hy.
  induction (zip_star ls) as [|p ps IH]; intros ys k; simpl.
  - intros [= <-]. by rewrite lookup_nil.
  - destruct (exec_alu arg dtype p) as [y0|] eqn:E; [|discriminate]. rewrite bind_Ok.
    destruct (mapR (exec_alu arg dtype) ps) as [zs|]; [|discriminate].
    rewrite bind_Ok. intros [= <-]. destruct k as [|k]; simpl.
    + intros [= <-]. eauto.
    + intros Hk. by eapply IH.
Qed.

Lemma alu_precondition_checked_witness :
  step alu_prog [origin] origin false add_alu no_truncate id_const no_wmma alu_ctx
  = Ok (set_pc 3 (bind_new 2 [VInt 3] (entered false int32 alu_ctx))).
Proof.
  destruct (alu_precondition_checked alu_prog [origin] origin false add_alu no_truncate
              id_const no_wmma alu_ctx int32 [0; 1]%nat (AOp (OP "ADD"))
              [VList 0; VList 1] [int32; int32] [1; 1]
              eq_refl eq_refl eq_refl eq_refl) as [_ H].
  assert (alu_precondition int32 (AOp (OP "ADD")) [1; 1] [int32; int32]) as Hp.
  { split.
    - apply all_same_true. vm_compute. reflexivity.
    - left. apply all_same_cons. vm_compute. reflexivity. }
  apply (proj1 (H Hp [[VInt 1]; [VInt 2]] [VInt 3] eq_refl eq_refl)).
Defined.

(** ** Stores *)

(** Overwriting [bs] at offset [off]: the bytes read back, all others stay. *)
Lemma splice_lookup (old bs : list Z) (off sz p : nat) :
  length bs = sz → (off + sz ≤ length old)%nat →
  (take off old ++ bs ++ drop (off + sz) old) !! p
  = if decide (off ≤ p < off + sz)%nat then bs !! (p - off)%nat else old !! p.
Proof.
  intros <- Hlen.
  assert (length (take off old) = off) as Ht by (rewrite length_take; lia).
  case_decide as Hp.
  - rewrite lookup_app_r by lia. rewrite Ht. rewrite lookup_app_l by lia. done.
  - destruct (decide (p < off)%nat).
    + rewrite lookup_app_l by lia. by rewrite lookup_take_lt.
    + rewrite lookup_app_r by lia. rewrite Ht. rewrite lookup_app_r by lia.
      rewrite lookup_drop. f_equal. lia.
Qed.

Lemma splice_length (old bs : list Z) (off sz : nat) :
  length bs = sz → (off + sz ≤ length old)%nat →
  length (take off old ++ bs ++ drop (off + sz) old) = length old.
Proof. intros <- H. rewrite !length_app, length_take, length_drop. lia. Qed.

Lemma splice_item (old bs : list Z) (i sz : nat) :
  length bs = sz → (i * sz + sz ≤ length old)%nat →
  take sz (drop (i * sz) (take (i * sz) old ++ bs ++ drop (i * sz + sz) old)) = bs.
Proof.
  intros <- H. rewrite drop_app_length' by (rewrite length_take; lia).
  by rewrite take_app_length.
Qed.

(** What a store into a memoryview that returns has done. *)
Lemma _store_buf_effect h mm b f i v h' mm' :
  _store h mm (VBuf b f) i v = Ok (h', mm') →
  h' = h ∧
  ∃ old bs,
    mm !! b = Some old ∧
    pack_item false f (py_truth h mm) v = Ok bs ∧
    0 ≤ i < Z.of_nat (length old `div` calcsize f) ∧
    mm' = <[b := take (Z.to_nat i * calcsize f) old ++ bs
                  ++ drop (Z.to_nat i * calcsize f + calcsize f) old]> mm.
Proof.
  intros Hs. unfold _store in Hs.
  destruct (Z.ltb_spec i 0) as [|Hi0]; [discriminate|].
  simpl py_len in Hs. unfold mv_len in Hs.
  destruct (mm !! b) as [old|] eqn:Hold; [|discriminate]. rewrite bind_Ok in Hs.
  destruct (Z.leb_spec (Z.of_nat (length old `div` calcsize f)) i) as [|Hin];
    [discriminate|].
  unfold py_setitem, mv_len in Hs. rewrite Hold, bind_Ok in Hs.
  assert ((i <? 0) = false) as Hlt by (apply Z.ltb_ge; lia).
  assert ((Z.of_nat (length old `div` calcsize f) <=? i) = false) as Hle
    by (apply Z.leb_gt; lia).
  rewrite !Hlt, Hle in Hs. simpl orb in Hs. cbv iota in Hs.
  destruct (pack_item false f (py_truth h mm) v) as [bs|] eqn:Hbs;
    [|by rewrite bind_Raise in Hs].
  rewrite bind_Ok in Hs. injection Hs as <- <-. split; [done|].
  exists old, bs. repeat split; try done; lia.
Qed.

Lemma item_fits (old : list Z) (sz i : nat) :
  (i < length old `div` sz)%nat → (i * sz + sz ≤ length old)%nat.
Proof.
  intros H. destruct sz as [|sz]; [simpl in H; lia|].
  pose proof (Nat.Div0.mul_div_le (length old) (S sz)).
  assert (S i * S sz ≤ (length old `div` S sz) * S sz)%nat by (apply Nat.mul_le_mono_r; lia).
  lia.
Qed.

Lemma _store_buf_frame h mm b f i v h' mm' old :
  _store h mm (VBuf b f) i v = Ok (h', mm') → mm !! b = Some old →
  ∃ bs new,
    pack_item false f (py_truth h mm) v = Ok bs ∧
    mm' !! b = Some new ∧ length new = length old ∧
    take (calcsize f) (drop (Z.to_nat i * calcsize f) new) = bs ∧
    mv_item mm' b f (Z.to_nat i) = Ok (unpack_item f bs) ∧
    (∀ p, ¬ (Z.to_nat i * calcsize f ≤ p < Z.to_nat i * calcsize f + calcsize f)%nat →
          new !! p = old !! p) ∧
    (∀ b', b' ≠ b → mm' !! b' = mm !! b').
Proof.
  intros Hs Hold. destruct (_store_buf_effect _ _ _ _ _ _ _ _ Hs)
    as (_ & old' & bs & Hold' & Hbs & Hi & ->).
  rewrite Hold in Hold'. injection Hold' as <-.
  pose proof (pack_item_length _ _ _ _ _ Hbs) as Hlen.
  assert (Z.to_nat i * calcsize f + calcsize f ≤ length old)%nat as Hfit
    by (apply item_fits; lia).
  exists bs, (take (Z.to_nat i * calcsize f) old ++ bs
              ++ drop (Z.to_nat i * calcsize f + calcsize f) old).
  assert (b < length mm)%nat by (by eapply lookup_lt_Some).
  split; [done|]. split; [by rewrite list_lookup_insert_eq|].
  split; [by apply splice_length|].
  split; [by apply splice_item|]. split.
  - unfold mv_item. rewrite list_lookup_insert_eq by done. f_equal. f_equal.
    by apply splice_item.
  - split.
    + intros p Hp. rewrite (splice_lookup _ _ _ (calcsize f)) by done.
      by rewrite decide_False by lia.
    + intros b' Hb'. by rewrite list_lookup_insert_ne.
Qed.

Lemma foldR_frame {A S} (f : S → A → Res S) (l : list A) (s s' : S) :
  (∀ x t', x ∈ l → f s x = Ok t' → t' = s) → foldR f s l = Ok s' → s' = s.
Proof.
  induction l as [|x l IH]; intros Hf; simpl.
  - by intros [= <-].
  - destruct (f s x) as [t|] eqn:E; [|discriminate]. rewrite bind_Ok. intros Hl.
    apply (Hf x) in E; [|apply list_elem_of_here]. subst t.
    apply IH; [|done]. intros y t' Hy. apply Hf. by apply list_elem_of_further.
Qed.

Lemma store_lane_off j hm m o v g :
  py_truth hm.1 hm.2 g = false → store_lane j hm [m; o; v; g] = Ok hm.
Proof. intros H. simpl. by rewrite H. Qed.

Lemma store_lane_on j hm m o v g oz :
  py_truth hm.1 hm.2 g = true → lane_int o = Ok oz →
  store_lane j hm [m; o; v; g] = _store hm.1 hm.2 m (oz + j) v.
Proof. intros H Ho. simpl. by rewrite H, Ho. Qed.

Lemma image_store_lane_off sh j hm m ox oy v g hm' :
  py_truth hm.1 hm.2 g = false →
  image_store_lane sh j hm [m; ox; oy; v; g] = Ok hm' → hm' = hm.
Proof.
  intros H. simpl. destruct (in_image sh ox oy) as [[[[x y] w]|]|]; simpl;
    try discriminate. rewrite H. by intros [= <-].
Qed.

Lemma image_store_lane_on sh j hm m ox oy v g x y w :
  py_truth hm.1 hm.2 g = true → in_image sh ox oy = Ok (Some (x, y, w)) →
  image_store_lane sh j hm [m; ox; oy; v; g]
  = _store hm.1 hm.2 m (x * 4 + y * w * 4 + j) v.
Proof. intros H Hin. simpl. by rewrite Hin, bind_Ok, H. Qed.

(** Lanes of four and of five operands end in the gate's item. *)
Lemma zip_star_4 {A} (a b c d : list A) (t : list A) :
  t ∈ zip_star [a; b; c; d] → ∃ x y z w, t = [x; y; z; w] ∧ w ∈ d.
Proof.
  simpl. intros (x & t1 & -> & _ & (y & t2 & -> & _ & (z & t3 & -> & _ & H)%elem_of_zip_with
    )%elem_of_zip_with)%elem_of_zip_with.
  apply list_elem_of_fmap in H as (w & -> & Hw). eauto 10.
Qed.

Lemma zip_star_5 {A} (a b c d e : list A) (t : list A) :
  t ∈ zip_star [a; b; c; d; e] → ∃ x y z w u, t = [x; y; z; w; u] ∧ u ∈ e.
Proof.
  intros (x & t1 & -> & _ & H)%elem_of_zip_with.
  apply zip_star_4 in H as (y & z & w & u & -> & Hu). eauto 10.
Qed.


(** Case analysis on the result a bind waits for: the exception ends a goal
    that claims a result. *)
Tactic Notation "case_res" constr(t) "as" ident(x) :=
  destruct t as [x|]; [rewrite bind_Ok | rewrite ?bind_Raise; discriminate].

Lemma exec_store_all_off vm vo vv vg dtp hm hm' gs :
  py_iter hm.1 hm.2 vg = Ok gs → Forall falsy gs →
  exec_store [vm; vo; vv; vg] dtp hm = Ok hm' → hm' = hm.
Proof.
  intros Hgs Hoff. rewrite Forall_forall in Hoff.
  unfold exec_store. rewrite bool_decide_false by done. rewrite bind_Ok.
  case_res (py_index dtp 0) as d0.
  destruct (shape d0) as [sh|].
  - case_res (py_index dtp 2) as d2.
    case_res (assert_ (count d2 =? 4) AssertionError) as u.
    case_res (py_index [vm; vo; vv; vg] 2 ≫= py_iter hm.1 hm.2) as vals.
    apply foldR_frame. intros [j val] t' _.
    change (py_index [vm; vo; vv; vg] 0) with (Ok vm).
    change (py_index [vm; vo; vv; vg] 1) with (Ok vo).
    change (py_index [vm; vo; vv; vg] 3) with (Ok vg). rewrite !bind_Ok.
    case_res (py_iter hm.1 hm.2 vm) as ms.
    case_res (py_getitem hm.1 hm.2 vo 0 ≫= py_iter hm.1 hm.2) as oxs.
    case_res (py_getitem hm.1 hm.2 vo 1 ≫= py_iter hm.1 hm.2) as oys.
    case_res (py_iter hm.1 hm.2 val) as vs.
    rewrite Hgs, bind_Ok.
    apply foldR_frame. intros t t'' Ht.
    apply zip_star_5 in Ht as (m & ox & oy & v & g & -> & Hg).
    apply image_store_lane_off. by apply Hoff.
  - case_res (py_index dtp 2) as d2.
    destruct (1 <? count d2).
    + case_res (py_index [vm; vo; vv; vg] 2 ≫= py_iter hm.1 hm.2) as vals.
      apply foldR_frame. intros [j val] t' _.
      change (py_index [vm; vo; vv; vg] 0) with (Ok vm).
      change (py_index [vm; vo; vv; vg] 1) with (Ok vo).
      change (py_index [vm; vo; vv; vg] 3) with (Ok vg). rewrite !bind_Ok.
      case_res (py_iter hm.1 hm.2 vm) as ms.
      case_res (py_iter hm.1 hm.2 vo) as os.
      case_res (py_iter hm.1 hm.2 val) as vs.
      rewrite Hgs, bind_Ok.
      apply foldR_frame. intros t t'' Ht.
      apply zip_star_4 in Ht as (m & o & v & g & -> & Hg).
      rewrite store_lane_off by (by apply Hoff). by intros [= <-].
    + cbn [mapR]. case_res (py_iter hm.1 hm.2 vm) as ms.
      case_res (py_iter hm.1 hm.2 vo) as os.
      case_res (py_iter hm.1 hm.2 vv) as vs. rewrite Hgs, !bind_Ok.
      apply foldR_frame. intros t t'' Ht.
      apply zip_star_4 in Ht as (m & o & v & g & -> & Hg).
      rewrite store_lane_off by (by apply Hoff). by intros [= <-].
Qed.

Lemma exec_store_default_gate vm vo vv dtp hm n :
  py_len hm.1 hm.2 vm = Ok n →
  exec_store [vm; vo; vv] dtp hm
  = exec_store [vm; vo; vv; VList (length hm.1)] dtp
      (hm.1 ++ [replicate (Z.to_nat n) (VBool true)], hm.2).
Proof.
  intros Hn. unfold exec_store at 1. rewrite bool_decide_true by done.
  change (py_index [vm; vo; vv] 0) with (Ok vm). rewrite bind_Ok, Hn, bind_Ok.
  unfold alloc. rewrite bind_Ok.
  unfold exec_store. rewrite bool_decide_false by done. by rewrite bind_Ok.
Qed.

Lemma _store_int_reads_back h mm b f i z h' mm' signed :
  fmt_class f = CInt signed →
  _store h mm (VBuf b f) i (VInt z) = Ok (h', mm') →
  mv_item mm' b f (Z.to_nat i) = Ok (VInt z).
Proof.
  intros Hc Hs.
  destruct (_store_buf_effect _ _ _ _ _ _ _ _ Hs) as (_ & old & bs & Hold & Hbs & _ & _).
  destruct (_store_buf_frame _ _ _ _ _ _ _ _ _ Hs Hold)
    as (bs' & new & Hbs' & _ & _ & _ & -> & _).
  rewrite Hbs in Hbs'. injection Hbs' as <-. f_equal.
  assert (int_range signed (calcsize f) z = true) as Hr.
  { unfold pack_item in Hbs. rewrite Hc in Hbs. simpl in Hbs.
    by destruct (int_range signed (calcsize f) z). }
  destruct (unpack_pack_int false f (py_truth h mm) signed z Hc Hr) as (bs' & Hp & Hu).
  rewrite Hbs in Hp. by injection Hp as <-.
Qed.



(** ** Loads from an image *)

Lemma in_image_spec sh ox oy x y w h :
  lane_int ox = Ok x → lane_int oy = Ok y →
  py_index sh 1 = Ok w → py_index sh 0 = Ok h →
  in_image sh ox oy
  = Ok (if decide (0 ≤ x < w ∧ 0 ≤ y < h) then Some (x, y, w) else None).
Proof.
  intros Hx Hy Hw Hh. unfold in_image. rewrite Hx, bind_Ok.
  destruct (Z.ltb_spec x 0); [by rewrite decide_False by lia|].
  rewrite Hw, bind_Ok.
  destruct (Z.leb_spec w x); [by rewrite decide_False by lia|].
  rewrite Hy, bind_Ok.
  destruct (Z.ltb_spec y 0); [by rewrite decide_False by lia|].
  rewrite Hh, bind_Ok.
  destruct (Z.leb_spec h y); [by rewrite decide_False by lia|].
  by rewrite decide_True by lia.
Qed.

Lemma image_load_lane_spec heap mem sh j m ox oy x y w h :
  lane_int ox = Ok x → lane_int oy = Ok y →
  py_index sh 1 = Ok w → py_index sh 0 = Ok h →
  (x < 0 ∨ w ≤ x ∨ y < 0 ∨ h ≤ y →
   image_load_lane heap mem sh j (m, (ox, oy)) = Ok (VInt 0)) ∧
  (0 ≤ x < w → 0 ≤ y < h →
   image_load_lane heap mem sh j (m, (ox, oy))
   = _load heap mem m (x * 4 + y * w * 4 + j)).
Proof.
  intros Hx Hy Hw Hh. unfold image_load_lane.
  rewrite (in_image_spec sh ox oy x y w h) by done. rewrite bind_Ok. split.
  - intros Hout. by rewrite decide_False by lia.
  - intros Hxin Hyin. by rewrite decide_True by lia.
Qed.

(** *** Results do not depend on the list objects allocated later *)

Lemma py_iter_grow h e mem v xs :
  py_iter h mem v = Ok xs → py_iter (h ++ e) mem v = Ok xs.
Proof.
  destruct v; simpl; try done.
  destruct (h !! l) eqn:E; [|done]. by rewrite (lookup_app_l_Some _ _ _ _ E).
Qed.

Lemma py_len_grow h e mem v n :
  py_len h mem v = Ok n → py_len (h ++ e) mem v = Ok n.
Proof.
  destruct v; simpl; try done.
  destruct (h !! l) eqn:E; [|done]. by rewrite (lookup_app_l_Some _ _ _ _ E).
Qed.

Lemma py_getitem_grow h e mem v k x :
  py_getitem h mem v k = Ok x → py_getitem (h ++ e) mem v k = Ok x.
Proof.
  destruct v; simpl; try done.
  destruct (h !! l) eqn:E; [|done]. by rewrite (lookup_app_l_Some _ _ _ _ E).
Qed.

Lemma _load_grow h e mem m i x :
  _load h mem m i = Ok x → _load (h ++ e) mem m i = Ok x.
Proof.
  unfold _load. destruct (i <? 0); [done|].
  destruct (py_len h mem m) as [n|] eqn:E; [|done].
  rewrite (py_len_grow _ e _ _ _ E), !bind_Ok.
  destruct (n <=? i); [done|]. apply py_getitem_grow.
Qed.

Lemma mapR_impl {A B} (f g : A → Res B) (l : list A) (ys : list B) :
  (∀ x y, f x = Ok y → g x = Ok y) → mapR f l = Ok ys → mapR g l = Ok ys.
Proof.
  intros H. revert ys. induction l as [|x l IH]; intros ys; simpl; [done|].
  destruct (f x) as [y|] eqn:E; [|done]. rewrite (H _ _ E), !bind_Ok.
  destruct (mapR f l) as [zs|]; [|done]. by rewrite (IH zs eq_refl).
Qed.

Lemma image_load_grow h e mem inp sh j r :
  image_load h mem inp sh j = Ok r → image_load (h ++ e) mem inp sh j = Ok r.
Proof.
  unfold image_load.
  destruct (py_index inp 0) as [v0|]; [|done]. rewrite !bind_Ok.
  destruct (py_iter h mem v0) as [ms|] eqn:Hms; [|done].
  rewrite (py_iter_grow _ e _ _ _ Hms), !bind_Ok.
  destruct (py_index inp 1) as [v1|]; [|done]. rewrite !bind_Ok.
  destruct (py_getitem h mem v1 0) as [x|] eqn:Hx; [|done].
  rewrite (py_getitem_grow _ e _ _ _ _ Hx), !bind_Ok.
  destruct (py_iter h mem x) as [oxs|] eqn:Hoxs; [|done].
  rewrite (py_iter_grow _ e _ _ _ Hoxs), !bind_Ok.
  destruct (py_getitem h mem v1 1) as [y|] eqn:Hy; [|done].
  rewrite (py_getitem_grow _ e _ _ _ _ Hy), !bind_Ok.
  destruct (py_iter h mem y) as [oys|] eqn:Hoys; [|done].
  rewrite (py_iter_grow _ e _ _ _ Hoys), !bind_Ok.
  apply mapR_impl. intros [m [ox oy]] v. unfold image_load_lane.
  destruct (in_image sh ox oy) as [[[[a b] w]|]|]; try done.
  rewrite !bind_Ok. apply _load_grow.
Qed.

(** The loop that loads one component after the other, allocating the list
    of each, ends with the components appended to the heap. *)
Lemma foldR_collect (F : list (list Value) → Z → Res (list Value))
    (js : list Z) (h0 : list (list Value)) (ls0 : list Value)
    (rets : list (list Value)) :
  (∀ h e j r, F h j = Ok r → F (h ++ e) j = Ok r) →
  mapR (F h0) js = Ok rets →
  foldR (λ '(h, ls) j,
           F h j ≫= λ ret, let '(h', l) := alloc h ret in Ok (h', ls ++ [VList l]))
        (h0, ls0) js
  = Ok (h0 ++ rets, ls0 ++ (VList <$> seq (length h0) (length rets))).
Proof.
  intros Hgrow. revert h0 ls0 rets.
  induction js as [|j js IH]; intros h0 ls0 rets; simpl.
  - intros [= <-]. simpl. by rewrite !app_nil_r.
  - destruct (F h0 j) as [r|] eqn:E; [|done]. rewrite !bind_Ok.
    destruct (mapR (F h0) js) as [rs|] eqn:E'; [|done]. rewrite bind_Ok.
    intros [= <-].
    assert (mapR (F (h0 ++ [r])) js = Ok rs) as Hm.
    { eapply mapR_impl; [|exact E']. intros x y. apply Hgrow. }
    specialize (IH (h0 ++ [r]) (ls0 ++ [VList (length h0)]) rs Hm).
    etransitivity; [exact IH|].
    rewrite length_app. simpl. rewrite <- !app_assoc. simpl.
    by rewrite Nat.add_1_r.
Qed.

Lemma exec_load_image i dtype inp dtp c d0 sh rets :
  py_index dtp 0 = Ok d0 → shape d0 = Some sh → count dtype = 4 →
  mapR (image_load (heap c) (mem c) inp sh) [0; 1; 2; 3] = Ok rets →
  exec_load i dtype inp dtp c
  = Ok (bind_new i (VList <$> seq (length (heap c)) 4)
          (set_heap (heap c ++ rets) c)).
Proof.
  intros Hd0 Hsh Hcount Hrets. unfold exec_load.
  rewrite Hd0, bind_Ok, Hsh, Hcount. simpl assert_. rewrite bind_Ok.
  change (range 4) with [0; 1; 2; 3].
  rewrite (foldR_collect (λ h j, image_load h (mem c) inp sh j) [0; 1; 2; 3]
             (heap c) [] rets); [| |done].
  - rewrite bind_Ok. simpl app. apply mapR_length in Hrets. rewrite Hrets. done.
  - intros h e j r. apply image_load_grow.
Qed.

Lemma image_load_lanes heap mem inp sh j v0 v1 vx vy ms oxs oys :
  py_index inp 0 = Ok v0 → py_iter heap mem v0 = Ok ms →
  py_index inp 1 = Ok v1 →
  py_getitem heap mem v1 0 = Ok vx → py_iter heap mem vx = Ok oxs →
  py_getitem heap mem v1 1 = Ok vy → py_iter heap mem vy = Ok oys →
  image_load heap mem inp sh j
  = mapR (image_load_lane heap mem sh j) (zip ms (zip oxs oys)).
Proof.
  intros H0 Hms H1 Hx Hoxs Hy Hoys. unfold image_load.
  by rewrite H0, H1, !bind_Ok, Hms, Hx, Hy, !bind_Ok, Hoxs, Hoys, !bind_Ok.
Qed.

(** C5. A lane of an image [LOAD] whose address is outside the image gets
    0 and raises nothing; a lane whose address is inside reads item
    [x*4 + y*width*4 + component] of the buffer.  The instruction leaves the
    four components, each the list of its lanes. *)
Theorem image_load_zero_fills :
  (∀ heap mem sh j m ox oy x y w h,
     lane_int ox = Ok x → lane_int oy = Ok y →
     py_index sh 1 = Ok w → py_index sh 0 = Ok h →
     (x < 0 ∨ w ≤ x ∨ y < 0 ∨ h ≤ y →
      image_load_lane heap mem sh j (m, (ox, oy)) = Ok (VInt 0)) ∧
     (0 ≤ x < w → 0 ≤ y < h →
      image_load_lane heap mem sh j (m, (ox, oy))
      = _load heap mem m (x * 4 + y * w * 4 + j))) ∧
  (∀ heap mem inp sh j v0 v1 vx vy ms oxs oys,
     py_index inp 0 = Ok v0 → py_iter heap mem v0 = Ok ms →
     py_index inp 1 = Ok v1 →
     py_getitem heap mem v1 0 = Ok vx → py_iter heap mem vx = Ok oxs →
     py_getitem heap mem v1 1 = Ok vy → py_iter heap mem vy = Ok oys →
     image_load heap mem inp sh j
     = mapR (image_load_lane heap mem sh j) (zip ms (zip oxs oys))) ∧
  (∀ i dtype inp dtp c d0 sh rets,
     py_index dtp 0 = Ok d0 → shape d0 = Some sh → count dtype = 4 →
     mapR (image_load (heap c) (mem c) inp sh) [0; 1; 2; 3] = Ok rets →
     exec_load i dtype inp dtp c
     = Ok (bind_new i (VList <$> seq (length (heap c)) 4)
             (set_heap (heap c ++ rets) c))) ∧
  result_components
    (run (image_prog 5 0) two_lanes origin false add_alu no_truncate id_const no_wmma
         5 (init_ctx [0%nat] [] ([], [image_bytes], []))) 4
  = Some (replicate 4 [VInt 0; VInt 0]) ∧
  result_components
    (run (image_prog 1 (-1)) two_lanes origin false add_alu no_truncate id_const no_wmma
         5 (init_ctx [0%nat] [] ([], [image_bytes], []))) 4
  = Some (replicate 4 [VInt 0; VInt 0]) ∧
  result_components
    (run (image_prog 1 1) two_lanes origin false add_alu no_truncate id_const no_wmma
         5 (init_ctx [0%nat] [] ([], [image_bytes], []))) 4
  = Some [ [VFloat float_zero; VFloat float_zero];
           [VFloat float_one; VFloat float_one];
           [VFloat float_zero; VFloat float_zero];
           [VFloat float_zero; VFloat float_zero] ].
Proof.
  split; [|split; [|split; [|split; [|split]]]].
  - intros. by apply image_load_lane_spec.
  - intros. by eapply image_load_lanes.
  - intros. by eapply exec_load_image.
  - vm_compute. reflexivity.
  - vm_compute. reflexivity.
  - vm_compute. reflexivity.
Qed.

Lemma image_load_zero_fills_witness :
  image_load_lane [] [[]] [2; 2; 4] 3 (VBuf 0 Ff, (VInt 2, VInt 0)) = Ok (VInt 0).
Proof.
  apply (proj1 (proj1 image_load_zero_fills [] [[]] [2; 2; 4] 3 (VBuf 0 Ff)
                  (VInt 2) (VInt 0) 2 0 2 2 eq_refl eq_refl eq_refl eq_refl)).
  lia.
Defined.

(** ** Local buffers *)

Lemma unpack_zero f : unpack_item f (replicate (calcsize f) 0) = zero_item f.
Proof. destruct f; vm_compute; reflexivity. Qed.

Lemma exec_define_local_inv warp i dtype arg c c' :
  exec_define_local warp i dtype arg c = Ok c' →
  ∃ nm size f,
    arg = ANamed nm size ∧ fmt dtype = Some f ∧ 0 ≤ size ∧
    c' = with_local warp i dtype f size c.
Proof.
  unfold exec_define_local. destruct (fmt dtype) as [f|]; [|done].
  destruct arg as [| |nm size| | |]; try done.
  destruct (Z.ltb_spec (size * Z.pos (itemsize dtype)) 0) as [|Hn]; [done|].
  unfold alloc. case_bool_decide; [|done]. intros [= <-].
  exists nm, size, f. split; [done|]. split; [done|]. split; [nia|done].
Qed.

Lemma exec_define_local_Ok warp i dtype nm size f c :
  fmt dtype = Some f → 0 ≤ size →
  (Z.to_nat (size * Z.pos (itemsize dtype)) `mod` calcsize f)%nat = 0%nat →
  exec_define_local warp i dtype (ANamed nm size) c
  = Ok (with_local warp i dtype f size c).
Proof.
  intros Hf Hs Hm. unfold exec_define_local. rewrite Hf.
  destruct (Z.ltb_spec (size * Z.pos (itemsize dtype)) 0) as [|Hn]; [nia|].
  unfold alloc. by rewrite bool_decide_true.
Qed.

(** The buffer of [with_local] is a new bytearray of zero bytes: every item
    of it loads as zero, and the bytearrays there were are unchanged. *)
Lemma with_local_fresh warp i dtype f size c :
  let c' := with_local warp i dtype f size c in
  let b := length (mem c) in
  let n := Z.to_nat (size * Z.pos (itemsize dtype)) in
  mem c !! b = None ∧
  mem c' !! b = Some (replicate n 0) ∧
  (∀ b' bs, mem c !! b' = Some bs → mem c' !! b' = Some bs) ∧
  lanes_of c' i = Some (replicate (length warp) (VBuf b f)) ∧
  (∀ k len, mv_len (mem c') b f = Ok len → 0 ≤ k < len →
     _load (heap c') (mem c') (VBuf b f) k = Ok (zero_item f)).
Proof.
  intros c' b n.
  assert (mem c' = mem c ++ [replicate n 0]) as Hmem by done.
  assert (mem c' !! b = Some (replicate n 0)) as Hb.
  { rewrite Hmem. rewrite lookup_app_r by done. unfold b. by rewrite Nat.sub_diag. }
  split; [by apply lookup_ge_None|]. split; [done|]. split.
  { intros b' bs Hb'. rewrite Hmem. by apply lookup_app_l_Some. }
  split.
  { unfold lanes_of, c', with_local, bind_new, alloc. simpl.
    rewrite lookup_insert_eq. rewrite lookup_app_r by done.
    by rewrite Nat.sub_diag. }
  intros k len Hlen Hk.
  destruct (_load_in_bounds (heap c') (mem c') b f k len Hlen Hk) as [-> _].
  unfold mv_item. rewrite Hb. f_equal. rewrite <- unpack_zero. f_equal.
  unfold mv_len in Hlen. rewrite Hb in Hlen. injection Hlen as <-.
  rewrite length_replicate in Hk.
  assert (Z.to_nat k * calcsize f + calcsize f ≤ n)%nat as Hfit.
  { pose proof (item_fits (replicate n 0) (calcsize f) (Z.to_nat k)) as Hf.
    rewrite length_replicate in Hf. apply Hf. lia. }
  rewrite drop_replicate, take_replicate. f_equal. lia.
Qed.

Section Local.
Variable uops : list UOp.
Variable warp : list (list Z).
Variable idxs : list Z.
Variable trace : bool.
Variable exec_alu : Arg → DType → list Value → Res Value.
Variable truncate : DType → option (Value → Res Value).
Variable as_const : Value → DType → Res Value.
Variable wmma_model :
  nat → list Value → string → list (list Value) → Res (Value * list (list Value)).

Lemma step_define_local c c' dtype idp arg :
  uops !! pc c = Some (DEFINE_LOCAL, dtype, idp, arg) →
  step uops warp idxs trace exec_alu truncate as_const wmma_model c = Ok c' →
  ∃ d nm size f,
    dtype = Some d ∧ arg = ANamed nm size ∧ fmt d = Some f ∧ 0 ≤ size ∧
    c' = set_pc (pc c + 1) (with_local warp (pc c) d f size (entered trace d c)).
Proof.
  intros Hu. unfold step. rewrite Hu. simpl.
  case_res (operands uops (ul c) idp) as inp.
  case_res (operands uops (dl c) idp) as dtp.
  destruct dtype as [d|]; [|done]. fold (entered trace d c).
  destruct (exec_define_local warp (pc c) d arg (entered trace d c)) as [c1|] eqn:E;
    [|done].
  apply exec_define_local_inv in E as (nm & size & f & -> & Hf & Hs & ->).
  rewrite !bind_Ok.
  assert (is_Some (ul (with_local warp (pc c) d f size (entered trace d c)) !! pc c))
    as Hin.
  { unfold with_local, bind_new, alloc. simpl. rewrite lookup_insert_eq. eauto. }
  rewrite bool_decide_true by done. simpl. intros [= <-]. eauto 10.
Qed.
End Local.

(** C9. Whatever the context, and so whatever an earlier coordinate wrote,
    a [DEFINE_LOCAL] that returns has made a new bytearray, none of those
    there were, which are all unchanged; its bytes are zero and every item
    loads as zero; all lanes hold the view of it.  A coordinate starts with
    an empty [ul].  In the example the second coordinate reads 0, not the 7
    the first one wrote. *)
Theorem local_buffers_start_zeroed :
  (∀ uops warp idxs trace exec_alu truncate as_const wmma_model c c' dtype idp arg,
     uops !! pc c = Some (DEFINE_LOCAL, dtype, idp, arg) →
     step uops warp idxs trace exec_alu truncate as_const wmma_model c = Ok c' →
     ∃ d nm size f,
       dtype = Some d ∧ arg = ANamed nm size ∧ fmt d = Some f ∧
       mem c !! length (mem c) = None ∧
       mem c' !! length (mem c)
       = Some (replicate (Z.to_nat (size * Z.pos (itemsize d))) 0) ∧
       (∀ b' bs, mem c !! b' = Some bs → mem c' !! b' = Some bs) ∧
       lanes_of c' (pc c) = Some (replicate (length warp) (VBuf (length (mem c)) f)) ∧
       (∀ k len, mv_len (mem c') (length (mem c)) f = Ok len → 0 ≤ k < len →
          _load (heap c') (mem c') (VBuf (length (mem c)) f) k = Ok (zero_item f))) ∧
  (∀ bufs vals w i, ul (init_ctx bufs vals w) !! i = None) ∧
  call local_prog false add_alu no_truncate id_const no_wmma tick 8 [0%nat]
       [2; 1; 1] [1; 1; 1] [] [[9; 9; 9; 9; 9; 9; 9; 9]]
  = Some (Ok (1%Q, [[0; 0; 0; 0; 0; 0; 0; 0]; [7; 0; 0; 0]; [7; 0; 0; 0]])).
Proof.
  split; [|split].
  - intros uops warp idxs trace exec_alu truncate as_const wmma_model c c' dtype
      idp arg Hu Hs.
    destruct (step_define_local _ _ _ _ _ _ _ _ _ _ _ _ _ Hu Hs)
      as (d & nm & size & f & -> & -> & Hf & Hsz & ->).
    exists d, nm, size, f. split; [done|]. split; [done|]. split; [done|].
    assert (mem (entered trace d c) = mem c) as Hm by (unfold entered; by destruct trace).
    assert (pc (entered trace d c) = pc c) as Hp by (unfold entered; by destruct trace).
    pose proof (with_local_fresh warp (pc c) d f size (entered trace d c)) as Hfresh.
    cbv zeta in Hfresh. rewrite !Hm in Hfresh.
    destruct Hfresh as (H1 & H2 & H3 & H4 & H5).
    split; [done|]. split; [exact H2|]. split; [exact H3|]. split; [exact H4|].
    exact H5.
  - intros. apply lookup_empty.
  - vm_compute. reflexivity.
Qed.

Lemma local_buffers_start_zeroed_witness :
  ∃ c', step local_prog [origin] origin false add_alu no_truncate id_const no_wmma
          (init_ctx [0%nat] [] ([], [[7; 7; 7; 7]], [])) = Ok c' ∧
        mem c' !! 1%nat = Some [0; 0; 0; 0].
Proof.
  eexists. split; [reflexivity|].
  destruct (proj1 local_buffers_start_zeroed local_prog [origin] origin false add_alu
              no_truncate id_const no_wmma
              (init_ctx [0%nat] [] ([], [[7; 7; 7; 7]], [])) _
              (Some int32) [] (ANamed "temp" 1) eq_refl eq_refl)
    as (d & nm & size & f & Hd & Ha & Hf & _ & H & _).
  injection Hd as <-. injection Ha as <- <-. exact H.
Defined.

(** ** The output is only written *)

(** No handler reads [stdout]: it runs the same with another output and
    leaves that output in place. *)
Ltac stdout_irrelevant :=
  intros;
  match goal with c : Ctx |- _ => destruct c end;
  simpl; unfold mbind, Res_bind, fmap, Res_fmap; simpl;
  repeat case_match; simplify_eq; try reflexivity.

Section Stdout.
Variable uops : list UOp.
Variable warp : list (list Z).
Variable idxs : list Z.
Variable exec_alu : Arg → DType → list Value → Res Value.
Variable truncate : DType → option (Value → Res Value).
Variable as_const : Value → DType → Res Value.
Variable wmma_model :
  nat → list Value → string → list (list Value) → Res (Value * list (list Value)).

Lemma bind_new_stdout o i xs c :
  bind_new i xs (set_stdout o c) = set_stdout o (bind_new i xs c).
Proof. by destruct c. Qed.

Lemma exec_define_global_stdout o i dtype c :
  exec_define_global warp i dtype (set_stdout o c)
  = set_stdout o <$> exec_define_global warp i dtype c.
Proof. unfold exec_define_global. stdout_irrelevant. Qed.

Lemma exec_define_local_stdout o i dtype arg c :
  exec_define_local warp i dtype arg (set_stdout o c)
  = set_stdout o <$> exec_define_local warp i dtype arg c.
Proof. unfold exec_define_local. stdout_irrelevant. Qed.

Lemma exec_define_var_stdout o i c :
  exec_define_var warp i (set_stdout o c) = set_stdout o <$> exec_define_var warp i c.
Proof. unfold exec_define_var. stdout_irrelevant. Qed.

Lemma exec_special_stdout o i arg c :
  exec_special warp idxs i arg (set_stdout o c)
  = set_stdout o <$> exec_special warp idxs i arg c.
Proof. unfold exec_special. stdout_irrelevant. Qed.

Lemma exec_const_stdout o i arg c :
  exec_const warp i arg (set_stdout o c) = set_stdout o <$> exec_const warp i arg c.
Proof. unfold exec_const. stdout_irrelevant. Qed.

Lemma exec_define_acc_stdout o i dtype inp c :
  exec_define_acc warp i dtype inp (set_stdout o c)
  = set_stdout o <$> exec_define_acc warp i dtype inp c.
Proof. unfold exec_define_acc. stdout_irrelevant. Qed.

Lemma exec_range_stdout o i inp c :
  exec_range warp i inp (set_stdout o c)
  = prod_map (set_stdout o) id <$> exec_range warp i inp c.
Proof. unfold exec_range. stdout_irrelevant. Qed.

Lemma exec_cast_stdout o b i dtype inp dtp c :
  exec_cast warp truncate as_const b i dtype inp dtp (set_stdout o c)
  = set_stdout o <$> exec_cast warp truncate as_const b i dtype inp dtp c.
Proof. unfold exec_cast. stdout_irrelevant. Qed.

Lemma exec_load_stdout o i dtype inp dtp c :
  exec_load i dtype inp dtp (set_stdout o c)
  = set_stdout o <$> exec_load i dtype inp dtp c.
Proof. unfold exec_load. stdout_irrelevant. Qed.

Lemma exec_assign_stdout o i inp c :
  exec_assign i inp (set_stdout o c) = set_stdout o <$> exec_assign i inp c.
Proof. unfold exec_assign. stdout_irrelevant. Qed.

Lemma exec_gep_stdout o i arg inp c :
  exec_gep i arg inp (set_stdout o c) = set_stdout o <$> exec_gep i arg inp c.
Proof. unfold exec_gep. stdout_irrelevant. Qed.

Lemma exec_wmma_stdout o i arg inp c :
  exec_wmma warp wmma_model i arg inp (set_stdout o c)
  = set_stdout o <$> exec_wmma warp wmma_model i arg inp c.
Proof. unfold exec_wmma. stdout_irrelevant. Qed.

Lemma exec_alu_uop_stdout o i dtype arg inp dtp c :
  exec_alu_uop exec_alu i dtype arg inp dtp (set_stdout o c)
  = set_stdout o <$> exec_alu_uop exec_alu i dtype arg inp dtp c.
Proof. unfold exec_alu_uop. stdout_irrelevant. Qed.
End Stdout.

Section Silent.
Variable uops : list UOp.
Variable warp : list (list Z).
Variable idxs : list Z.
Variable exec_alu : Arg → DType → list Value → Res Value.
Variable truncate : DType → option (Value → Res Value).
Variable as_const : Value → DType → Res Value.
Variable wmma_model :
  nat → list Value → string → list (list Value) → Res (Value * list (list Value)).

Local Abbreviation step' trace :=
  (step uops warp idxs trace exec_alu truncate as_const wmma_model).
Local Abbreviation run' trace :=
  (run uops warp idxs trace exec_alu truncate as_const wmma_model).

Lemma fmap_Ok {A B} (f : A → B) (a : A) : f <$> Ok a = Ok (f a).
Proof. reflexivity. Qed.

Lemma fmap_Raise {A B} (f : A → B) (e : PyErr) : f <$> (@Raise A e) = Raise e.
Proof. reflexivity. Qed.

Lemma fmap_bind {A B C} (f : B → C) (m : Res A) (k : A → Res B) :
  f <$> (m ≫= k) = m ≫= λ a, f <$> k a.
Proof. by destruct m. Qed.

(** A turn started with output [o], traced or not, is the untraced turn with
    another output. *)
Lemma step_stdout trace o c :
  step' trace (set_stdout o c)
  = set_stdout (if trace then o ++ [pc c] else o) <$> step' false c.
Proof.
  unfold step.
  change (pc (set_stdout o c)) with (pc c).
  change (ul (set_stdout o c)) with (ul c).
  change (dl (set_stdout o c)) with (dl c).
  destruct (uops !! pc c) as [[[[uop dtype] idp] arg]|]; [|done].
  rewrite !fmap_bind.
  destruct (if bool_decide (uop = DEFINE_ACC) then _ else _) as [idp'|]; [|done].
  rewrite !bind_Ok.
  destruct (operands uops (ul c) idp') as [inp|]; [|done]. rewrite !bind_Ok.
  destruct (operands uops (dl c) idp') as [dtp|]; [|done]. rewrite !bind_Ok.
  set (o' := if trace then o ++ [pc c] else o).
  assert ((if trace then set_stdout (stdout (set_stdout o c) ++ [pc c]) (set_stdout o c)
           else set_stdout o c) = set_stdout o' c) as -> by (by destruct trace).
  cbv zeta.
  change (heap (set_stdout o' c)) with (heap c).
  change (mem (set_stdout o' c)) with (mem c).
  destruct uop;
    try (by destruct (py_index idp' 0));
    try done;
    try (destruct dtype as [dtype|]; [|done];
         change (set_dl <[pc c:=dtype]> (set_stdout o' c))
           with (set_stdout o' (set_dl <[pc c:=dtype]> c));
         rewrite ?exec_define_global_stdout, ?exec_define_local_stdout,
           ?exec_define_var_stdout, ?exec_special_stdout, ?exec_const_stdout,
           ?exec_define_acc_stdout, ?exec_range_stdout, ?exec_cast_stdout,
           ?exec_load_stdout, ?exec_assign_stdout, ?exec_gep_stdout,
           ?exec_wmma_stdout, ?exec_alu_uop_stdout, ?bind_new_stdout;
         rewrite ?bind_Ok).
  all: try (destruct (exec_store inp dtp (heap c, mem c)) as [[h m]|]; done).
  all: unfold fmap, Res_fmap, mbind, Res_bind, assert_.
  all: repeat case_match; simplify_eq; try done.
  all: try (cbn [ul set_stdout] in *; congruence).
Qed.

Lemma run_stdout trace fuel o c :
  quiet (run' trace fuel (set_stdout o c)) = quiet (run' false fuel c).
Proof.
  revert o c. induction fuel as [|fuel IH]; intros o c; simpl;
    change (pc (set_stdout o c)) with (pc c); case_bool_decide; try done.
  rewrite step_stdout.
  destruct (step' false c) as [c1|e]; [|done].
  rewrite fmap_Ok. apply IH.
Qed.

Lemma run_trace trace fuel c :
  quiet (run' trace fuel c) = quiet (run' false fuel c).
Proof.
  rewrite <- (run_stdout trace fuel (stdout c) c). by destruct c.
Qed.
End Silent.

Section Deterministic.
Variable uops : list UOp.
Variable exec_alu : Arg → DType → list Value → Res Value.
Variable truncate : DType → option (Value → Res Value).
Variable as_const : Value → DType → Res Value.
Variable wmma_model :
  nat → list Value → string → list (list Value) → Res (Value * list (list Value)).

Local Abbreviation run_coord' trace :=
  (run_coord uops trace exec_alu truncate as_const wmma_model).
Local Abbreviation run_coords' trace :=
  (run_coords uops trace exec_alu truncate as_const wmma_model).

Lemma run_coord_stdout trace fuel warp bufs vals idxs h m o :
  objects_of (run_coord' trace fuel warp bufs vals idxs (h, m, o))
  = objects_of (run_coord' false fuel warp bufs vals idxs (h, m, [])).
Proof.
  unfold run_coord.
  pose proof (run_trace uops warp idxs exec_alu truncate as_const wmma_model
                trace fuel (init_ctx bufs vals (h, m, o))) as H1.
  pose proof (run_stdout uops warp idxs exec_alu truncate as_const wmma_model
                false fuel o (init_ctx bufs vals (h, m, []))) as H2.
  change (set_stdout o (init_ctx bufs vals (h, m, [])))
    with (init_ctx bufs vals (h, m, o)) in H2.
  rewrite H2 in H1. clear H2.
  destruct (run uops warp idxs trace _ _ _ _ fuel (init_ctx bufs vals (h, m, o)))
    as [[c1|e1]|];
  destruct (run uops warp idxs false _ _ _ _ fuel (init_ctx bufs vals (h, m, [])))
    as [[c2|e2]|]; simpl in H1; simplify_eq; try done.
  simpl. unfold silent in H. destruct c1, c2. simpl in *. by simplify_eq.
Qed.

Lemma run_coords_stdout trace fuel warp bufs vals coords h m o :
  objects_of (run_coords' trace fuel warp bufs vals coords (h, m, o))
  = objects_of (run_coords' false fuel warp bufs vals coords (h, m, [])).
Proof.
  revert trace h m o.
  induction coords as [|idxs coords IH]; intros trace h m o; simpl; [done|].
  pose proof (run_coord_stdout trace fuel warp bufs vals idxs h m o) as H.
  destruct (run_coord' trace fuel warp bufs vals idxs (h, m, o))
    as [[[[h1 m1] o1]|e1]|];
  destruct (run_coord' false fuel warp bufs vals idxs (h, m, []))
    as [[[[h2 m2] o2]|e2]|]; simpl in H; simplify_eq; try done.
  rewrite IH. symmetry. apply IH.
Qed.

Lemma call_outcome trace1 trace2 clock1 clock2 fuel bufs global_size local_size vals m :
  same_outcome
    (call uops trace1 exec_alu truncate as_const wmma_model clock1 fuel bufs
          global_size local_size vals m)
    (call uops trace2 exec_alu truncate as_const wmma_model clock2 fuel bufs
          global_size local_size vals m).
Proof.
  unfold call.
  pose proof (run_coords_stdout trace1 fuel (product (range <$> rev local_size))
                bufs vals (product (range <$> rev global_size)) [] m []) as H1.
  pose proof (run_coords_stdout trace2 fuel (product (range <$> rev local_size))
                bufs vals (product (range <$> rev global_size)) [] m []) as H2.
  rewrite <- H2 in H1. clear H2.
  destruct (run_coords' trace1 _ _ _ _ _ _) as [[[[h1 m1] o1]|e1]|];
  destruct (run_coords' trace2 _ _ _ _ _ _) as [[[[h2 m2] o2]|e2]|];
    simpl in H1; simplify_eq; done.
Qed.
End Deterministic.

(** X1. Two calls with the same uops, buffers, sizes and values agree,
    whatever the clock reads and whether [TRACE] is set: both run out of
    fuel, or both raise the same exception, or both return and leave the
    same memory. *)
Theorem call_is_deterministic :
  ∀ uops exec_alu truncate as_const wmma_model trace1 trace2 clock1 clock2
    fuel bufs global_size local_size vals mem,
    same_outcome
      (call uops trace1 exec_alu truncate as_const wmma_model clock1 fuel bufs
            global_size local_size vals mem)
      (call uops trace2 exec_alu truncate as_const wmma_model clock2 fuel bufs
            global_size local_size vals mem).
Proof. intros. apply call_outcome. Qed.

(** ** Loops over the lanes of a list object *)

Lemma range_of_nat (n : nat) : range (Z.of_nat n) = Z.of_nat <$> seq 0 n.
Proof. unfold range. by rewrite Nat2Z.id. Qed.

(** A fold over the indices whose [j]-th turn takes state [st j] to
    [st (j+1)] ends in [st n]. *)
Lemma foldR_states {S} (F : S → Z → Res S) (st : nat → S) (n : nat) :
  (∀ j, (j < n)%nat → F (st j) (Z.of_nat j) = Ok (st (Datatypes.S j))) →
  foldR F (st 0%nat) (range (Z.of_nat n)) = Ok (st n).
Proof.
  rewrite range_of_nat. intros H.
  assert (∀ m k, (k + m = n)%nat →
            foldR F (st k) (Z.of_nat <$> seq k m) = Ok (st n)) as Hgen.
  { induction m as [|m IH]; intros k Hk; simpl.
    - by replace k with n by lia.
    - rewrite H by lia. rewrite bind_Ok. apply IH. lia. }
  by apply Hgen.
Qed.

Lemma mixed_0 {A} (new old : list A) : mixed 0 new old = old.
Proof. reflexivity. Qed.

Lemma mixed_all {A} (new old : list A) :
  length new = length old → mixed (length new) new old = new.
Proof.
  intros H. unfold mixed. rewrite take_ge by lia. rewrite drop_ge by lia.
  by rewrite app_nil_r.
Qed.

Lemma mixed_length {A} (j : nat) (new old : list A) :
  length new = length old → length (mixed j new old) = length old.
Proof. intros H. unfold mixed. rewrite length_app, length_take, length_drop. lia. Qed.

Lemma mixed_lookup {A} (j : nat) (new old : list A) :
  (j ≤ length new)%nat → mixed j new old !! j = old !! j.
Proof.
  intros H. unfold mixed. rewrite lookup_app_r by (rewrite length_take; lia).
  rewrite length_take, lookup_drop. f_equal. lia.
Qed.

Lemma mixed_step {A} (j : nat) (new old : list A) (y : A) :
  length new = length old → new !! j = Some y →
  <[j := y]> (mixed j new old) = mixed (S j) new old.
Proof.
  intros Hlen Hy. pose proof (lookup_lt_Some _ _ _ Hy) as Hj. unfold mixed.
  assert (length (take j new) = j) as Ht by (rewrite length_take; lia).
  rewrite <- (Nat.add_0_r j) at 1. rewrite <- Ht at 1. rewrite insert_app_r.
  rewrite (take_S_r new j y Hy), <- app_assoc. f_equal.
  destruct (lookup_lt_is_Some_2 old j) as [x Hx]; [lia|].
  by rewrite (drop_S old x j Hx).
Qed.

Lemma py_index_lookup {A} (l : list A) (j : nat) (x : A) :
  l !! j = Some x → py_index l (Z.of_nat j) = Ok x.
Proof. apply py_index_nat. Qed.

Lemma py_setitem_list heap mem l xs (j : nat) x :
  heap !! l = Some xs → (j < length xs)%nat →
  py_setitem heap mem (VList l) (Z.of_nat j) x = Ok (<[l := <[j := x]> xs]> heap, mem).
Proof.
  intros Hl Hj. unfold py_setitem. rewrite Hl. cbv zeta.
  assert ((Z.of_nat j <? 0) = false) as Hlt by (apply Z.ltb_ge; lia).
  assert ((Z.of_nat (length xs) <=? Z.of_nat j) = false) as Hle by (apply Z.leb_gt; lia).
  rewrite !Hlt, Hle. cbn [orb]. by rewrite Nat2Z.id.
Qed.

(** [for j in range(len(ul[i])): ul[i][j] += 1] on a list of ints. *)
Lemma foldR_incr heap mem r zs :
  heap !! r = Some (VInt <$> zs) →
  foldR (λ hm j,
           py_getitem hm.1 hm.2 (VList r) j ≫= λ x,
           py_incr x ≫= λ y, py_setitem hm.1 hm.2 (VList r) j y)
        (heap, mem) (range (Z.of_nat (length zs)))
  = Ok (<[r := VInt <$> ((λ z, z + 1) <$> zs)]> heap, mem).
Proof.
  intros Hr. pose proof (lookup_lt_Some _ _ _ Hr) as Hlt.
  set (old := VInt <$> zs). set (new := VInt <$> ((λ z, z + 1) <$> zs)).
  assert (length new = length old) as Hlen by (unfold new, old; by rewrite !length_fmap).
  set (st := λ j : nat, (<[r := mixed j new old]> heap, mem)).
  assert (st 0%nat = (heap, mem)) as H0.
  { unfold st. rewrite mixed_0. by rewrite list_insert_id. }
  assert (st (length zs) = (<[r := new]> heap, mem)) as Hn.
  { unfold st. replace (length zs) with (length new)
      by (unfold new; by rewrite !length_fmap). by rewrite mixed_all. }
  rewrite <- H0, <- Hn. apply foldR_states. intros j Hj. unfold st.
  cbn [fst snd py_getitem]. rewrite list_lookup_insert_eq by done.
  destruct (lookup_lt_is_Some_2 zs j Hj) as [z Hz].
  assert (mixed j new old !! j = Some (VInt z)) as Hmj.
  { rewrite mixed_lookup by (unfold new; rewrite !length_fmap; lia).
    unfold old. by rewrite list_lookup_fmap, Hz. }
  rewrite (py_index_lookup _ _ _ Hmj), bind_Ok. cbn [py_incr]. rewrite bind_Ok.
  rewrite (py_setitem_list _ _ _ (mixed j new old)).
  - rewrite list_insert_insert_eq. f_equal. f_equal. f_equal.
    apply mixed_step; [done|]. unfold new. by rewrite !list_lookup_fmap, Hz.
  - by rewrite list_lookup_insert_eq.
  - rewrite mixed_length by done. unfold old. rewrite length_fmap. lia.
Qed.

(** [for j in range(len(inp[0])): inp[0][j] = inp[1][j]] between two
    different lists of one length. *)
Lemma foldR_assign heap mem a s xs ys :
  heap !! a = Some xs → heap !! s = Some ys → a ≠ s → length ys = length xs →
  foldR (λ hm j,
           py_index [VList a; VList s] 1 ≫= λ v1,
           py_getitem hm.1 hm.2 v1 j ≫= λ x, py_setitem hm.1 hm.2 (VList a) j x)
        (heap, mem) (range (Z.of_nat (length xs)))
  = Ok (<[a := ys]> heap, mem).
Proof.
  intros Ha Hs Hne Hlen. pose proof (lookup_lt_Some _ _ _ Ha) as Hlt.
  set (st := λ j : nat, (<[a := mixed j ys xs]> heap, mem)).
  assert (st 0%nat = (heap, mem)) as H0.
  { unfold st. rewrite mixed_0. by rewrite list_insert_id. }
  assert (st (length xs) = (<[a := ys]> heap, mem)) as Hn.
  { unfold st. rewrite <- Hlen. by rewrite mixed_all. }
  rewrite <- H0, <- Hn. apply foldR_states. intros j Hj. unfold st.
  change (py_index [VList a; VList s] 1) with (Ok (VList s)). rewrite bind_Ok.
  cbn [fst snd py_getitem]. rewrite list_lookup_insert_ne by done. rewrite Hs.
  destruct (lookup_lt_is_Some_2 ys j) as [y Hy]; [lia|].
  rewrite (py_index_lookup _ _ _ Hy), bind_Ok.
  rewrite (py_setitem_list _ _ _ (mixed j ys xs)).
  - rewrite list_insert_insert_eq. f_equal. f_equal. f_equal. by apply mixed_step.
  - by rewrite list_lookup_insert_eq.
  - rewrite mixed_length by done. lia.
Qed.

(** ** Single turns on explicit contexts *)

Section Turns.
Variable uops : list UOp.
Variable warp : list (list Z).
Variable idxs : list Z.
Variable trace : bool.
Variable exec_alu : Arg → DType → list Value → Res Value.
Variable truncate : DType → option (Value → Res Value).
Variable as_const : Value → DType → Res Value.
Variable wmma_model :
  nat → list Value → string → list (list Value) → Res (Value * list (list Value)).

Local Abbreviation step' :=
  (step uops warp idxs trace exec_alu truncate as_const wmma_model).
Local Abbreviation run' :=
  (run uops warp idxs trace exec_alu truncate as_const wmma_model).

Lemma operands_cons {A} (tbl : gmap nat A) v rest u d i a x :
  uops !! v = Some (u, d, i, a) → void_ops u = false → tbl !! v = Some x →
  operands uops tbl (v :: rest) = operands uops tbl rest ≫= λ xs, Ok (x :: xs).
Proof. intros Hu Hv Hx. simpl. by rewrite Hu, Hv, Hx. Qed.

Lemma operands_1 {A} (tbl : gmap nat A) v u d i a x :
  uops !! v = Some (u, d, i, a) → void_ops u = false → tbl !! v = Some x →
  operands uops tbl [v] = Ok [x].
Proof. intros. by erewrite operands_cons. Qed.

Lemma operands_2 {A} (tbl : gmap nat A) v w u d i a u' d' i' a' x y :
  uops !! v = Some (u, d, i, a) → void_ops u = false → tbl !! v = Some x →
  uops !! w = Some (u', d', i', a') → void_ops u' = false → tbl !! w = Some y →
  operands uops tbl [v; w] = Ok [x; y].
Proof.
  intros. erewrite operands_cons by done. by erewrite operands_1.
Qed.

Lemma run_turn fuel c c' :
  (pc c < length uops)%nat → step' c = Ok c' → run' (S fuel) c = run' fuel c'.
Proof. intros Hpc Hs. simpl. rewrite bool_decide_true by done. by rewrite Hs. Qed.

Lemma run_turns n fuel c c' :
  turns uops warp idxs trace exec_alu truncate as_const wmma_model n c = Some c' →
  run' (n + fuel) c = run' fuel c'.
Proof.
  revert c. induction n as [|n IH]; intros c; simpl.
  - by intros [= <-].
  - case_bool_decide; [|done].
    destruct (step' c) as [c1|]; [|done]. apply IH.
Qed.

Lemma run_done fuel c :
  (length uops ≤ pc c)%nat → run' fuel c = Some (Ok c).
Proof. intros Hpc. destruct fuel; simpl; by rewrite bool_decide_false by lia. Qed.

Lemma step_const U D B V p LE H M O dt v :
  uops !! p = Some (CONST, Some dt, [], AVal v) →
  step' (mkCtx U D B V p LE H M O)
  = Ok (mkCtx (<[p := VList (length H)]> U) (<[p := dt]> D) B V (p + 1) LE
          (H ++ [replicate (length warp) v]) M (traced trace O p)).
Proof.
  intros Hu. unfold step. cbn [pc ul dl]. rewrite Hu. cbn [operands].
  rewrite bool_decide_false by done. rewrite !bind_Ok.
  unfold traced. destruct trace; cbn; by rewrite lookup_insert_eq.
Qed.

Lemma step_define_acc U D B V p LE H M O dt i0 rest arg u d i a l0 d0 x xs :
  uops !! p = Some (DEFINE_ACC, Some dt, i0 :: rest, arg) →
  uops !! i0 = Some (u, d, i, a) → void_ops u = false →
  U !! i0 = Some (VList l0) → D !! i0 = Some d0 →
  H !! l0 = Some (x :: xs) → (1 <? count dt) = false →
  step' (mkCtx U D B V p LE H M O)
  = Ok (mkCtx (<[p := VList (length H)]> U) (<[p := dt]> D) B V (p + 1) LE
          (H ++ [replicate (length warp) x]) M (traced trace O p)).
Proof.
  intros Hu Hi0 Hv HU HD HH Hc. unfold step. cbn [pc ul dl]. rewrite Hu.
  rewrite bool_decide_true by done.
  change (py_index (i0 :: rest) 0) with (Ok i0). rewrite !bind_Ok.
  rewrite (operands_1 U i0 u d i a (VList l0)) by done.
  rewrite (operands_1 D i0 u d i a d0) by done. rewrite !bind_Ok.
  unfold exec_define_acc.
  change (py_index [VList l0] 0) with (Ok (VList l0)). rewrite bind_Ok.
  unfold traced. destruct trace; cbn [heap mem set_dl set_stdout py_getitem];
    rewrite HH; change (py_index (x :: xs) 0) with (Ok x); rewrite bind_Ok, Hc;
    cbn; by rewrite lookup_insert_eq.
Qed.

Lemma step_endrange U D B V p LE H M O dtype x arg u d i a v dx :
  uops !! p = Some (ENDRANGE, dtype, [x], arg) →
  uops !! x = Some (u, d, i, a) → void_ops u = false →
  U !! x = Some v → D !! x = Some dx →
  step' (mkCtx U D B V p LE H M O)
  = Ok (mkCtx U D B V x (<[x := p]> LE) H M (traced trace O p)).
Proof.
  intros Hu Hx Hv HU HD. unfold step. cbn [pc ul dl]. rewrite Hu.
  rewrite bool_decide_false by done. rewrite !bind_Ok.
  rewrite (operands_1 U x u d i a v) by done.
  rewrite (operands_1 D x u d i a dx) by done. rewrite !bind_Ok.
  change (py_index [x] 0) with (Ok x). rewrite bind_Ok.
  unfold traced. by destruct trace.
Qed.

Lemma step_range_first U D B V p LE H M O dt i0 i1 arg
    u d i a u' d' i' a' l0 v1 d0 d1 x xs :
  uops !! p = Some (RANGE, Some dt, [i0; i1], arg) →
  uops !! i0 = Some (u, d, i, a) → void_ops u = false →
  uops !! i1 = Some (u', d', i', a') → void_ops u' = false →
  U !! i0 = Some (VList l0) → U !! i1 = Some v1 →
  D !! i0 = Some d0 → D !! i1 = Some d1 →
  U !! p = None → H !! l0 = Some (x :: xs) →
  step' (mkCtx U D B V p LE H M O)
  = Ok (mkCtx (<[p := VList (length H)]> U) (<[p := dt]> D) B V (p + 1) LE
          (H ++ [replicate (length warp) x]) M (traced trace O p)).
Proof.
  intros Hu Hi0 Hv0 Hi1 Hv1 HU0 HU1 HD0 HD1 HUp HH.
  unfold step. cbn [pc ul dl]. rewrite Hu.
  rewrite bool_decide_false by done. rewrite !bind_Ok.
  rewrite (operands_2 U i0 i1 u d i a u' d' i' a' (VList l0) v1) by done.
  rewrite (operands_2 D i0 i1 u d i a u' d' i' a' d0 d1) by done. rewrite !bind_Ok.
  unfold exec_range, traced.
  destruct trace; cbn [ul heap mem set_dl set_stdout]; rewrite HUp;
    change (py_index [VList l0; v1] 0) with (Ok (VList l0)); rewrite bind_Ok;
    cbn [py_getitem]; rewrite HH; change (py_index (x :: xs) 0) with (Ok x);
    rewrite !bind_Ok; cbn; by rewrite lookup_insert_eq.
Qed.

(** A later visit of the [RANGE]: every lane one more, and then the test
    against the bound. *)
Lemma step_range_again U D B V p LE H M O dt i0 i1 arg
    u d i a u' d' i' a' v0 l1 d0 d1 r z zs b bs :
  uops !! p = Some (RANGE, Some dt, [i0; i1], arg) →
  uops !! i0 = Some (u, d, i, a) → void_ops u = false →
  uops !! i1 = Some (u', d', i', a') → void_ops u' = false →
  U !! i0 = Some v0 → U !! i1 = Some (VList l1) →
  D !! i0 = Some d0 → D !! i1 = Some d1 →
  U !! p = Some (VList r) → H !! r = Some (VInt <$> (z :: zs)) →
  r ≠ l1 → H !! l1 = Some (VInt b :: bs) →
  let H' := <[r := VInt <$> ((λ z, z + 1) <$> (z :: zs))]> H in
  step' (mkCtx U D B V p LE H M O)
  = if z + 1 =? b then
      match LE !! p with
      | Some e => Ok (mkCtx (delete p U) (<[p := dt]> D) B V (e + 1) LE H' M (traced trace O p))
      | None => Raise KeyError
      end
    else Ok (mkCtx U (<[p := dt]> D) B V (p + 1) LE H' M (traced trace O p)).
Proof.
  intros Hu Hi0 Hv0 Hi1 Hv1 HU0 HU1 HD0 HD1 HUp Hr Hne Hl1 H'.
  unfold step. cbn [pc ul dl]. rewrite Hu.
  rewrite bool_decide_false by done. rewrite !bind_Ok.
  rewrite (operands_2 U i0 i1 u d i a u' d' i' a' v0 (VList l1)) by done.
  rewrite (operands_2 D i0 i1 u d i a u' d' i' a' d0 d1) by done. rewrite !bind_Ok.
  assert (exec_range warp p [v0; VList l1]
            (mkCtx U (<[p := dt]> D) B V p LE H M (traced trace O p))
          = if z + 1 =? b then
              match LE !! p with
              | Some e => Ok (mkCtx (delete p U) (<[p := dt]> D) B V (e + 1) LE H' M
                                (traced trace O p), true)
              | None => Raise KeyError
              end
            else Ok (mkCtx U (<[p := dt]> D) B V p LE H' M (traced trace O p), false)) as Hex.
  { unfold exec_range. cbn [ul heap mem]. rewrite HUp.
    cbn [py_len]. rewrite Hr, bind_Ok, length_fmap.
    rewrite (foldR_incr H M r (z :: zs) Hr). rewrite bind_Ok. fold H'.
    cbn [fst snd set_heap set_mem heap mem ul dl pbufs pvals pc loop_ends stdout].
    pose proof (lookup_lt_Some _ _ _ Hr) as Hlt.
    assert (H' !! r = Some (VInt <$> ((λ z0, z0 + 1) <$> z :: zs))) as Hr'
      by (unfold H'; by rewrite list_lookup_insert_eq).
    assert (H' !! l1 = Some (VInt b :: bs)) as Hl1'
      by (unfold H'; by rewrite list_lookup_insert_ne).
    cbn [py_getitem]. rewrite Hr'.
    change (py_index (VInt <$> ((λ z0, z0 + 1) <$> z :: zs)) 0) with (Ok (VInt (z + 1))).
    rewrite bind_Ok. change (py_index [v0; VList l1] 1) with (Ok (VList l1)).
    rewrite bind_Ok. cbn [py_getitem]. rewrite Hl1'.
    change (py_index (VInt b :: bs) 0) with (Ok (VInt b)). rewrite bind_Ok.
    change (py_eq (VInt (z + 1)) (VInt b)) with (z + 1 =? b).
    destruct (z + 1 =? b); [|done]. cbn [loop_ends set_ul set_pc ul dl pbufs pvals pc
      heap mem stdout]. by destruct (LE !! p). }
  cbv zeta. cbn [pc ul dl stdout].
  assert (set_dl <[p := dt]>
            (if trace then set_stdout (O ++ [p]) (mkCtx U D B V p LE H M O)
             else mkCtx U D B V p LE H M O)
          = mkCtx U (<[p := dt]> D) B V p LE H M (traced trace O p)) as ->
    by (unfold traced; by destruct trace).
  rewrite Hex. destruct (z + 1 =? b).
  - destruct (LE !! p); [|done]. by rewrite !bind_Ok.
  - rewrite !bind_Ok. cbn [ul]. rewrite HUp. by rewrite bool_decide_true by eauto.
Qed.

Lemma step_assign U D B V p LE H M O dt ia isrc arg
    u d i a u' d' i' a' la ls da ds xs ys :
  uops !! p = Some (ASSIGN, Some dt, [ia; isrc], arg) →
  uops !! ia = Some (u, d, i, a) → void_ops u = false →
  uops !! isrc = Some (u', d', i', a') → void_ops u' = false →
  U !! ia = Some (VList la) → U !! isrc = Some (VList ls) →
  D !! ia = Some da → D !! isrc = Some ds →
  H !! la = Some xs → H !! ls = Some ys → la ≠ ls → length ys = length xs →
  step' (mkCtx U D B V p LE H M O)
  = Ok (mkCtx (<[p := VList la]> U) (<[p := dt]> D) B V (p + 1) LE
          (<[la := ys]> H) M (traced trace O p)).
Proof.
  intros Hu Hia Hva His Hvs HUa HUs HDa HDs Hxs Hys Hne Hlen.
  unfold step. cbn [pc ul dl]. rewrite Hu.
  rewrite bool_decide_false by done. rewrite !bind_Ok.
  rewrite (operands_2 U ia isrc u d i a u' d' i' a' (VList la) (VList ls)) by done.
  rewrite (operands_2 D ia isrc u d i a u' d' i' a' da ds) by done. rewrite !bind_Ok.
  unfold exec_assign, traced.
  change (py_index [VList la; VList ls] 0) with (Ok (VList la)).
  destruct trace; cbn [set_dl set_stdout ul dl pbufs pvals pc loop_ends heap mem stdout];
    rewrite bind_Ok; cbn [py_len]; rewrite Hxs, bind_Ok;
    rewrite (foldR_assign H M la ls xs ys) by done; rewrite bind_Ok;
    cbn; by rewrite lookup_insert_eq.
Qed.
End Turns.

(** ** A loop that never ends *)

Section Spin.
Local Abbreviation spin_step :=
  (step spin_prog [origin] origin false add_alu no_truncate id_const no_wmma).
Local Abbreviation spin_run :=
  (run spin_prog [origin] origin false add_alu no_truncate id_const no_wmma).

Lemma spin_step_close k : spin_step (spin_close k) = Ok (spin_open k).
Proof. vm_compute. reflexivity. Qed.

Lemma spin_step_open k : 0 ≤ k → spin_step (spin_open k) = Ok (spin_close (k + 1)).
Proof.
  intros Hk. unfold spin_open.
  rewrite (step_range_again spin_prog [origin] origin false add_alu no_truncate
             id_const no_wmma spin_ul spin_dl [] [] 2 (<[2%nat := 3%nat]> ∅)
             [[VInt 0]; [VInt 0]; [VInt k]] [] [] int32 0 1 ANone
             CONST (Some int32) [] (AVal (VInt 0)) CONST (Some int32) [] (AVal (VInt 0))
             (VList 0) 1 int32 int32 2 k [] 0 []); try reflexivity; [|done].
  assert ((k + 1 =? 0) = false) as -> by (apply Z.eqb_neq; lia).
  reflexivity.
Qed.

Lemma spin_loops fuel :
  ∀ k, 0 ≤ k →
    spin_run fuel (spin_close k) = None ∧ spin_run fuel (spin_open k) = None.
Proof.
  induction fuel as [|fuel IH]; intros k Hk; [done|].
  destruct (IH k Hk) as [_ IHo]. destruct (IH (k + 1)) as [IHc _]; [lia|].
  split.
  - rewrite (run_turn _ _ _ _ _ _ _ _ _ _ (spin_open k)); [done|simpl; lia|].
    apply spin_step_close.
  - rewrite (run_turn _ _ _ _ _ _ _ _ _ _ (spin_close (k + 1))); [done|simpl; lia|].
    by apply spin_step_open.
Qed.

Lemma spin_diverges fuel : spin_run fuel (init_ctx [] [] empty_world) = None.
Proof.
  do 4 (destruct fuel as [|fuel]; [reflexivity|]).
  change (S (S (S (S fuel)))) with (4 + fuel)%nat.
  rewrite (run_turns _ _ _ _ _ _ _ _ 4 fuel _ (spin_open 0)); [by apply spin_loops|].
  vm_compute. reflexivity.
Qed.
End Spin.

(** A loop whose bound is its first value never ends: the loop variable is
    compared with the bound only after it has been incremented, and never
    meets it.  No load and no store is involved. *)
Lemma spin_never_returns :
  ¬ ∃ fuel r,
      call spin_prog false add_alu no_truncate id_const no_wmma tick fuel []
           [1; 1; 1] [1; 1; 1] [] [] = Some r.
Proof.
  intros (fuel & r & H). unfold call in H.
  change (product (range <$> rev [1; 1; 1])) with [origin] in H.
  cbn [run_coords] in H. unfold run_coord in H.
  change (init_ctx [] [] ([], [], [])) with (init_ctx [] [] empty_world) in H.
  by rewrite spin_diverges in H.
Qed.

(** ** Programs without loops *)

(** A handler that returns has left [pc] and [loop_ends] alone. *)
Ltac keeps_control :=
  intros;
  match goal with c : Ctx |- _ => destruct c end;
  repeat match goal with
         | H : _ = Ok _ |- _ => revert H
         end;
  simpl; unfold mbind, Res_bind; simpl; intros;
  repeat case_match; simplify_eq; try done.

Section Control.
Variable uops : list UOp.
Variable warp : list (list Z).
Variable idxs : list Z.
Variable trace : bool.
Variable exec_alu : Arg → DType → list Value → Res Value.
Variable truncate : DType → option (Value → Res Value).
Variable as_const : Value → DType → Res Value.
Variable wmma_model :
  nat → list Value → string → list (list Value) → Res (Value * list (list Value)).

Local Abbreviation step' :=
  (step uops warp idxs trace exec_alu truncate as_const wmma_model).
Local Abbreviation run' :=
  (run uops warp idxs trace exec_alu truncate as_const wmma_model).

Lemma exec_define_global_control i dtype c c' :
  exec_define_global warp i dtype c = Ok c' → same_control c c'.
Proof. unfold exec_define_global, same_control. keeps_control. Qed.

Lemma exec_define_local_control i dtype arg c c' :
  exec_define_local warp i dtype arg c = Ok c' → same_control c c'.
Proof. unfold exec_define_local, same_control. keeps_control. Qed.

Lemma exec_define_var_control i c c' :
  exec_define_var warp i c = Ok c' → same_control c c'.
Proof. unfold exec_define_var, same_control. keeps_control. Qed.

Lemma exec_special_control i arg c c' :
  exec_special warp idxs i arg c = Ok c' → same_control c c'.
Proof. unfold exec_special, same_control. keeps_control. Qed.

Lemma exec_const_control i arg c c' :
  exec_const warp i arg c = Ok c' → same_control c c'.
Proof. unfold exec_const, same_control. keeps_control. Qed.

Lemma exec_define_acc_control i dtype inp c c' :
  exec_define_acc warp i dtype inp c = Ok c' → same_control c c'.
Proof. unfold exec_define_acc, same_control. keeps_control. Qed.

Lemma exec_range_control i inp c c' b :
  exec_range warp i inp c = Ok (c', b) →
  loop_ends c' = loop_ends c ∧
  (if b then is_Some (loop_ends c !! i) else pc c' = pc c).
Proof. unfold exec_range. keeps_control; eauto. Qed.

Lemma exec_cast_control b i dtype inp dtp c c' :
  exec_cast warp truncate as_const b i dtype inp dtp c = Ok c' → same_control c c'.
Proof. unfold exec_cast, same_control. keeps_control. Qed.

Lemma exec_load_control i dtype inp dtp c c' :
  exec_load i dtype inp dtp c = Ok c' → same_control c c'.
Proof. unfold exec_load, same_control. keeps_control. Qed.

Lemma exec_assign_control i inp c c' :
  exec_assign i inp c = Ok c' → same_control c c'.
Proof. unfold exec_assign, same_control. keeps_control. Qed.

Lemma exec_gep_control i arg inp c c' :
  exec_gep i arg inp c = Ok c' → same_control c c'.
Proof. unfold exec_gep, same_control. keeps_control. Qed.

Lemma exec_wmma_control i arg inp c c' :
  exec_wmma warp wmma_model i arg inp c = Ok c' → same_control c c'.
Proof. unfold exec_wmma, same_control. keeps_control. Qed.

Lemma exec_alu_uop_control i dtype arg inp dtp c c' :
  exec_alu_uop exec_alu i dtype arg inp dtp c = Ok c' → same_control c c'.
Proof. unfold exec_alu_uop, same_control. keeps_control. Qed.

(** Without a loop close nothing enters [loop_ends], and every turn that
    returns goes on to the next position. *)
Lemma step_advances c c' :
  loop_free uops → loop_ends c = ∅ → step' c = Ok c' →
  pc c' = (pc c + 1)%nat ∧ loop_ends c' = ∅.
Proof.
  intros Hfree Hle. unfold step.
  destruct (uops !! pc c) as [[[[uop dtype] idp] arg]|] eqn:Hu; [|done].
  assert (uop ≠ ENDRANGE) as Hno.
  { unfold loop_free in Hfree. rewrite Forall_forall in Hfree.
    apply (Hfree (uop, dtype, idp, arg)). by eapply list_elem_of_lookup_2. }
  case_res (if bool_decide (uop = DEFINE_ACC) then py_index idp 0 ≫= λ x, Ok [x]
            else Ok idp) as idp'.
  case_res (operands uops (ul c) idp') as inp.
  case_res (operands uops (dl c) idp') as dtp.
  cbv zeta.
  set (c0 := if trace then set_stdout (stdout c ++ [pc c]) c else c).
  assert (pc c0 = pc c ∧ loop_ends c0 = ∅) as [Hp0 Hl0]
    by (unfold c0; destruct trace; by rewrite <- Hle).
  destruct uop; try done.
  all: try (destruct dtype as [dtype|]; [|done];
            set (c1 := set_dl <[pc c:=dtype]> c0);
            assert (pc c1 = pc c ∧ loop_ends c1 = ∅) as [Hp1 Hl1]
              by (by rewrite <- Hp0, <- Hl0)).
  all: intros Hs.
  all: try (apply bind_inv_Ok in Hs as ([c2 b] & H1 & H2)).
  all: try (apply bind_inv_Ok in H1 as (c3 & Hh & Heq); injection Heq as <- <-).
  all: try (apply exec_define_global_control in Hh as [Hp2 Hl2]).
  all: try (apply exec_define_local_control in Hh as [Hp2 Hl2]).
  all: try (apply exec_define_var_control in Hh as [Hp2 Hl2]).
  all: try (apply exec_special_control in Hh as [Hp2 Hl2]).
  all: try (apply exec_const_control in Hh as [Hp2 Hl2]).
  all: try (apply exec_define_acc_control in Hh as [Hp2 Hl2]).
  all: try (apply exec_cast_control in Hh as [Hp2 Hl2]).
  all: try (apply exec_load_control in Hh as [Hp2 Hl2]).
  all: try (apply exec_assign_control in Hh as [Hp2 Hl2]).
  all: try (apply exec_gep_control in Hh as [Hp2 Hl2]).
  all: try (apply exec_wmma_control in Hh as [Hp2 Hl2]).
  all: try (apply exec_alu_uop_control in Hh as [Hp2 Hl2]).
  all: try (apply bind_inv_Ok in H2 as (u & _ & Heq); injection Heq as <-;
            cbn [pc loop_ends set_pc]; split; congruence).
  all: try (injection Hs as <-; cbn [pc loop_ends set_pc set_mem set_heap];
            split; congruence).
  all: try (injection H1 as <- <-;
            apply bind_inv_Ok in H2 as (u & _ & Heq); injection Heq as <-;
            unfold bind_new, alloc; cbn [pc loop_ends set_pc set_ul set_heap];
            split; congruence).
  apply exec_range_control in H1 as [Hl2 Hb]. destruct b.
  - rewrite Hl1, lookup_empty in Hb. by destruct Hb.
  - apply bind_inv_Ok in H2 as (u & _ & Heq). injection Heq as <-.
    cbn [pc loop_ends set_pc]. split; congruence.
  - injection H2 as <-. cbn [pc loop_ends set_pc set_mem set_heap]. by split.
Qed.



Lemma run_terminates fuel c :
  loop_free uops → loop_ends c = ∅ → (length uops - pc c ≤ fuel)%nat →
  ∃ r, run' fuel c = Some r.
Proof.
  intros Hfree. revert c. induction fuel as [|fuel IH]; intros c Hle Hfuel; simpl.
  - rewrite bool_decide_false by lia. eauto.
  - case_bool_decide; [|eauto].
    destruct (step' c) as [c1|e] eqn:Hs; [|eauto].
    destruct (step_advances c c1 Hfree Hle Hs) as [Hpc Hle1].
    apply IH; [done | lia].
Qed.
End Control.

Section Termination.
Variable uops : list UOp.
Variable trace : bool.
Variable exec_alu : Arg → DType → list Value → Res Value.
Variable truncate : DType → option (Value → Res Value).
Variable as_const : Value → DType → Res Value.
Variable wmma_model :
  nat → list Value → string → list (list Value) → Res (Value * list (list Value)).
Variable perf_counter : nat → Q.

Lemma run_coord_terminates warp bufs vals idxs w :
  loop_free uops →
  ∃ r, run_coord uops trace exec_alu truncate as_const wmma_model (length uops)
         warp bufs vals idxs w = Some r.
Proof.
  intros Hfree. unfold run_coord.
  destruct (run_terminates uops warp idxs trace exec_alu truncate as_const wmma_model
              (length uops) (init_ctx bufs vals w) Hfree) as [r Hr];
    [done | simpl; lia |].
  rewrite Hr. destruct r; eauto.
Qed.

Lemma run_coords_terminates warp bufs vals coords w :
  loop_free uops →
  ∃ r, run_coords uops trace exec_alu truncate as_const wmma_model (length uops)
         warp bufs vals coords w = Some r.
Proof.
  intros Hfree. revert w. induction coords as [|idxs coords IH]; intros w; simpl.
  - eauto.
  - destruct (run_coord_terminates warp bufs vals idxs w Hfree) as [r Hr].
    rewrite Hr. destruct r as [w'|e]; [apply IH | eauto].
Qed.

Lemma call_terminates bufs global_size local_size vals mem :
  loop_free uops →
  ∃ r, call uops trace exec_alu truncate as_const wmma_model perf_counter
         (length uops) bufs global_size local_size vals mem = Some r.
Proof.
  intros Hfree. unfold call.
  destruct (run_coords_terminates (product (range <$> rev local_size)) bufs vals
              (product (range <$> rev global_size)) ([], mem, []) Hfree) as [r Hr].
  rewrite Hr. destruct r; eauto.
Qed.

Lemma call_elapsed fuel bufs global_size local_size vals mem t m :
  (perf_counter 0%nat <= perf_counter 1%nat)%Q →
  call uops trace exec_alu truncate as_const wmma_model perf_counter
    fuel bufs global_size local_size vals mem = Some (Ok (t, m)) →
  (0 <= t)%Q.
Proof.
  intros Hclock. unfold call.
  destruct (run_coords _ _ _ _ _ _ _ _ _ _ _ _) as [[w|e]|]; try done.
  intros [= <- _]. by apply Qle_minus_iff in Hclock.
Qed.
End Termination.

(** X2. With a clock that does not run backwards, a call that returns
    returns an elapsed time of at least 0; and a program without a loop
    close ends within [len(uops)] turns for every coordinate, raising an
    exception or returning. *)
Theorem call_terminates_without_loops :
  ∀ uops trace exec_alu truncate as_const wmma_model perf_counter
    bufs global_size local_size vals mem,
    (perf_counter 0%nat <= perf_counter 1%nat)%Q →
    (∀ fuel t m,
       call uops trace exec_alu truncate as_const wmma_model perf_counter
         fuel bufs global_size local_size vals mem = Some (Ok (t, m)) →
       (0 <= t)%Q) ∧
    (loop_free uops →
     ∃ r, call uops trace exec_alu truncate as_const wmma_model perf_counter
            (length uops) bufs global_size local_size vals mem = Some r).
Proof.
  intros uops trace exec_alu truncate as_const wmma_model perf_counter
    bufs global_size local_size vals mem Hclock. split.
  - intros fuel t m. by apply call_elapsed.
  - by apply call_terminates.
Qed.

Lemma call_terminates_without_loops_witness :
  ∃ r, call alu_prog false add_alu no_truncate id_const no_wmma tick
         (length alu_prog) no_bufs [2; 1; 1] [2; 1; 1] [] [] = Some r.
Proof.
  assert (tick 0%nat <= tick 1%nat)%Q as Hclock by (vm_compute; discriminate).
  apply (proj2 (call_terminates_without_loops alu_prog false add_alu no_truncate
                  id_const no_wmma tick no_bufs [2; 1; 1] [2; 1; 1] [] [] Hclock)).
  repeat constructor; discriminate.
Defined.

(** ** The counting loop *)

Lemma zip_star_replicate_2 {A} (w : nat) (a b : A) :
  zip_star [replicate w a; replicate w b] = replicate w [a; b].
Proof. induction w as [|w IH]; simpl in *; [done|]. by rewrite IH. Qed.

Lemma mapR_replicate {A B} (f : A → Res B) (w : nat) (x : A) (y : B) :
  f x = Ok y → mapR f (replicate w x) = Ok (replicate w y).
Proof. intros H. induction w as [|w IH]; simpl; [done|]. by rewrite H, IH. Qed.

Lemma lanes_length w z : length (lanes w z) = w.
Proof. apply length_replicate. Qed.

Lemma lanes_fmap w z : lanes w z = VInt <$> replicate w z.
Proof. unfold lanes. by rewrite fmap_replicate. Qed.

Section Counting.
Variable warp : list (list Z).
Variable idxs : list Z.
Variable trace : bool.
Variable exec_alu : Arg → DType → list Value → Res Value.
Variable truncate : DType → option (Value → Res Value).
Variable as_const : Value → DType → Res Value.
Variable wmma_model :
  nat → list Value → string → list (list Value) → Res (Value * list (list Value)).
Variable dt : DType.
Variable N : Z.

Local Abbreviation step' :=
  (step (loop_prog dt N) warp idxs trace exec_alu truncate as_const wmma_model).
Local Abbreviation run' :=
  (run (loop_prog dt N) warp idxs trace exec_alu truncate as_const wmma_model).
Local Abbreviation turns' :=
  (turns (loop_prog dt N) warp idxs trace exec_alu truncate as_const wmma_model).
Local Abbreviation w := (length warp).

(** The addition of the body. *)
Lemma loop_step_alu U D B V LE H M O la lb k :
  U !! 3%nat = Some (VList la) → U !! 2%nat = Some (VList lb) →
  D !! 3%nat = Some dt → D !! 2%nat = Some dt →
  H !! la = Some (lanes w k) → H !! lb = Some (lanes w 1) →
  exec_alu ADD dt [VInt k; VInt 1] = Ok (VInt (k + 1)) →
  step' (mkCtx U D B V 5 LE H M O)
  = Ok (mkCtx (<[5%nat := VList (length H)]> U) (<[5%nat := dt]> D) B V 6 LE
          (H ++ [lanes w (k + 1)]) M (traced trace O 5)).
Proof.
  intros HU3 HU2 HD3 HD2 Ha Hb Hadd.
  destruct (step_alu (loop_prog dt N) warp idxs trace exec_alu truncate as_const
              wmma_model (mkCtx U D B V 5 LE H M O) dt [3; 2]%nat ADD
              [VList la; VList lb] [dt; dt] [Z.of_nat w; Z.of_nat w]) as [_ Hgo].
  - reflexivity.
  - by apply (operands_2 _ U 3 2 DEFINE_ACC (Some dt) [0; 4]%nat ANone
                CONST (Some dt) [] (AVal (VInt 1))).
  - by apply (operands_2 _ D 3 2 DEFINE_ACC (Some dt) [0; 4]%nat ANone
                CONST (Some dt) [] (AVal (VInt 1))).
  - cbn [mapR py_len heap mem]. rewrite Ha, Hb, !bind_Ok. by rewrite !lanes_length.
  - rewrite (Hgo (conj (proj1 (all_same_true [Z.of_nat w; Z.of_nat w])
                          (ltac:(unfold all_same; simpl; by rewrite !bool_decide_true)))
                       (or_introl (proj1 (all_same_cons dt [dt; dt])
                          (ltac:(unfold all_same; simpl; by rewrite !bool_decide_true)))))
               [lanes w k; lanes w 1] (lanes w (k + 1))).
    + unfold traced. by destruct trace.
    + cbn [mapR py_iter heap mem]. by rewrite Ha, Hb.
    + unfold lanes. rewrite zip_star_replicate_2. by apply mapR_replicate.
Qed.

Lemma turns_S n c c' :
  step' c = Ok c' → (pc c < 8)%nat → turns' (S n) c = turns' n c'.
Proof.
  intros Hs Hpc. cbn [turns]. change (length (loop_prog dt N)) with 8%nat.
  rewrite bool_decide_true by done. by rewrite Hs.
Qed.

(** One turn around the loop: the body, the loop close and the loop open. *)
Lemma loop_iteration n0 k c :
  (1 ≤ w)%nat → body_state n0 w dt N k c →
  exec_alu ADD dt [VInt k; VInt 1] = Ok (VInt (k + 1)) →
  ∃ c', turns' 4 c = Some c' ∧
        if k + 1 =? N then loop_done n0 w N c'
        else body_state n0 w dt N (k + 1) c'.
Proof.
  intros Hw Hst Hadd. destruct c as [U D B V p LE H M O].
  destruct Hst as (Hp & HU & HD & H0 & H1 & H2 & H3 & H4). cbn in Hp, HU, HD, H0, H1, H2, H3, H4.
  subst p.
  destruct (length warp) as [|w'] eqn:Hwarp; [lia|]. clear Hw.
  pose proof (lookup_lt_Some _ _ _ H3) as Hlt3.
  pose proof (lookup_lt_Some _ _ _ H4) as Hlt4.
  (* the addition *)
  pose proof (loop_step_alu U D B V LE H M O (n0 + 3) (n0 + 2) k
                (HU 3%nat ltac:(lia)) (HU 2%nat ltac:(lia))
                (HD 3%nat ltac:(lia)) (HD 2%nat ltac:(lia))) as S1.
  rewrite Hwarp in S1. specialize (S1 H3 H2 Hadd).
  set (U1 := <[5%nat := VList (length H)]> U) in *.
  set (D1 := <[5%nat := dt]> D) in *.
  set (H1' := H ++ [lanes (S w') (k + 1)]) in *.
  (* the assignment *)
  assert (H1' !! (n0 + 3)%nat = Some (lanes (S w') k)) as Ha
    by (by apply lookup_app_l_Some).
  assert (H1' !! length H = Some (lanes (S w') (k + 1))) as Hs
    by (by apply list_lookup_middle).
  pose proof (step_assign (loop_prog dt N) warp idxs trace exec_alu truncate as_const
                wmma_model U1 D1 B V 6 LE H1' M (traced trace O 5) dt 3 5 ANone
                DEFINE_ACC (Some dt) [0; 4]%nat ANone ALU (Some dt) [3; 2]%nat ADD
                (n0 + 3) (length H) dt dt (lanes (S w') k) (lanes (S w') (k + 1))
                eq_refl eq_refl eq_refl eq_refl eq_refl) as S2.
  unfold U1, D1 in S2. rewrite lookup_insert_ne, lookup_insert_eq in S2 by done.
  rewrite lookup_insert_ne, lookup_insert_eq in S2 by done.
  specialize (S2 (HU 3%nat ltac:(lia)) eq_refl (HD 3%nat ltac:(lia)) eq_refl Ha Hs
                ltac:(lia) ltac:(by rewrite !lanes_length)).
  fold U1 D1 in S2. change (6 + 1)%nat with 7%nat in S2.
  set (U2 := <[6%nat := VList (n0 + 3)]> U1) in *.
  set (D2 := <[6%nat := dt]> D1) in *.
  set (H2' := <[(n0 + 3)%nat := lanes (S w') (k + 1)]> H1') in *.
  set (O2 := traced trace (traced trace O 5) 6) in *.
  assert (∀ j, (j < 5)%nat → U2 !! j = Some (VList (n0 + j))) as HU2.
  { intros j Hj. unfold U2, U1. rewrite !lookup_insert_ne by lia. by apply HU. }
  assert (∀ j, (j < 5)%nat → D2 !! j = Some dt) as HD2.
  { intros j Hj. unfold D2, D1. rewrite !lookup_insert_ne by lia. by apply HD. }
  (* the loop close *)
  pose proof (step_endrange (loop_prog dt N) warp idxs trace exec_alu truncate as_const
                wmma_model U2 D2 B V 7 LE H2' M O2 None 4 ANone
                RANGE (Some dt) [0; 1]%nat ANone (VList (n0 + 4)) dt
                eq_refl eq_refl eq_refl (HU2 4%nat ltac:(lia)) (HD2 4%nat ltac:(lia)))
    as S3.
  set (LE3 := <[4%nat := 7%nat]> LE) in *.
  set (O3 := traced trace O2 7) in *.
  (* the loop open *)
  assert (length H1' = S (length H)) as Hlen1
    by (unfold H1'; rewrite length_app; simpl; lia).
  assert (∀ l, l ≠ (n0 + 3)%nat → (l < length H)%nat → H2' !! l = H !! l) as Hsame.
  { intros l Hne Hl. unfold H2', H1'. rewrite list_lookup_insert_ne by done.
    by rewrite lookup_app_l. }
  assert (H2' !! (n0 + 3)%nat = Some (lanes (S w') (k + 1))) as Hacc.
  { unfold H2'. rewrite list_lookup_insert_eq; [done | lia]. }
  pose proof (step_range_again (loop_prog dt N) warp idxs trace exec_alu truncate
                as_const wmma_model U2 D2 B V 4 LE3 H2' M O3 dt 0 1 ANone
                CONST (Some dt) [] (AVal (VInt 0)) CONST (Some dt) [] (AVal (VInt N))
                (VList (n0 + 0)) (n0 + 1) dt dt (n0 + 4) k (replicate w' k)
                N (replicate w' (VInt N))
                eq_refl eq_refl eq_refl eq_refl eq_refl
                (HU2 0%nat ltac:(lia)) (HU2 1%nat ltac:(lia))
                (HD2 0%nat ltac:(lia)) (HD2 1%nat ltac:(lia))
                (HU2 4%nat ltac:(lia))) as S4.
  rewrite !Hsame in S4 by lia.
  specialize (S4 ltac:(rewrite H4; unfold lanes; simpl; by rewrite fmap_replicate)
                ltac:(lia) ltac:(by rewrite H1)).
  cbv zeta in S4.
  set (H4' := <[(n0 + 4)%nat := VInt <$> ((λ z, z + 1) <$> k :: replicate w' k)]> H2') in *.
  assert (VInt <$> ((λ z, z + 1) <$> k :: replicate w' k) = lanes (S w') (k + 1)) as Hnew
    by (unfold lanes; simpl; by rewrite !fmap_replicate).
  assert (LE3 !! 4%nat = Some 7%nat) as HLE by apply lookup_insert_eq.
  rewrite HLE in S4. change (7 + 1)%nat with 8%nat in S4.
  change (4 + 1)%nat with 5%nat in S4.
  assert (length H2' = S (length H)) as Hlen2 by (unfold H2'; by rewrite length_insert).
  destruct (Z.eqb_spec (k + 1) N) as [HN|HN].
  - eexists. split.
    { rewrite (turns_S 3 _ _ S1) by (cbn; lia).
      rewrite (turns_S 2 _ _ S2) by (cbn; lia).
      rewrite (turns_S 1 _ _ S3) by (cbn; lia).
      rewrite (turns_S 0 _ _ S4) by (cbn; lia). reflexivity. }
    split; [done|]. unfold lanes_of. cbn [ul heap].
    rewrite lookup_delete_ne by done. rewrite (HU2 3%nat) by lia.
    unfold H4'. rewrite list_lookup_insert_ne by lia. by rewrite Hacc, HN.
  - eexists. split.
    { rewrite (turns_S 3 _ _ S1) by (cbn; lia).
      rewrite (turns_S 2 _ _ S2) by (cbn; lia).
      rewrite (turns_S 1 _ _ S3) by (cbn; lia).
      rewrite (turns_S 0 _ _ S4) by (cbn; lia). reflexivity. }
    split; [done|]. cbn [ul dl heap].
    split; [done|]. split.
    { intros j Hj. destruct (decide (j = 4%nat)) as [->|];
        [by rewrite lookup_insert_eq | rewrite lookup_insert_ne by done; by apply HD2]. }
    assert (∀ l, l ≠ (n0 + 4)%nat → H4' !! l = H2' !! l) as Hsame4
      by (intros l Hl; unfold H4'; by rewrite list_lookup_insert_ne).
    assert (H4' !! (n0 + 4)%nat = Some (lanes (S w') (k + 1))) as Hrng
      by (unfold H4'; rewrite list_lookup_insert_eq by lia; by rewrite Hnew).
    repeat split.
    + rewrite Hsame4, Hsame by lia. done.
    + rewrite Hsame4, Hsame by lia. done.
    + rewrite Hsame4, Hsame by lia. done.
    + rewrite Hsame4 by lia. done.
    + done.
Qed.

Lemma turns_add n m c :
  turns' (n + m) c = turns' n c ≫= turns' m.
Proof.
  revert c. induction n as [|n IH]; intros c; [done|].
  cbn [Nat.add turns]. case_bool_decide; [|done].
  destruct (step' c) as [c1|]; [apply IH | done].
Qed.

Lemma run_short n fuel c c' :
  turns' n c = Some c' → (fuel < n)%nat → run' fuel c = None.
Proof.
  revert fuel c. induction n as [|n IH]; intros fuel c Ht Hlt; [lia|].
  cbn [turns] in Ht. case_bool_decide as Hpc; [|done].
  destruct fuel as [|fuel]; simpl; rewrite bool_decide_true by done; [done|].
  destruct (step' c) as [c1|]; [|done]. apply (IH fuel c1 Ht). lia.
Qed.

(** The five turns in front of the loop body. *)
Lemma loop_entry bufs vals h0 m0 o0 :
  (1 ≤ w)%nat → (1 <? count dt) = false →
  ∃ c, turns' 5 (init_ctx bufs vals (h0, m0, o0)) = Some c ∧
       body_state (length h0) w dt N 0 c.
Proof.
  intros Hw Hcount. destruct (length warp) as [|w'] eqn:Hwarp; [lia|]. clear Hw.
  unfold init_ctx. cbn [fst snd].
  pose proof (step_const (loop_prog dt N) warp idxs trace exec_alu truncate as_const
                wmma_model ∅ ∅ bufs vals 0 ∅ h0 m0 o0 dt (VInt 0) eq_refl) as S0.
  rewrite Hwarp in S0. change (0 + 1)%nat with 1%nat in S0.
  set (U0 := <[0%nat := VList (length h0)]> (∅ : gmap nat Value)) in *.
  set (D0 := <[0%nat := dt]> (∅ : gmap nat DType)) in *.
  set (H0 := h0 ++ [replicate (S w') (VInt 0)]) in *.
  set (O0 := traced trace o0 0) in *.
  pose proof (step_const (loop_prog dt N) warp idxs trace exec_alu truncate as_const
                wmma_model U0 D0 bufs vals 1 ∅ H0 m0 O0 dt (VInt N) eq_refl) as S1.
  rewrite Hwarp in S1. change (1 + 1)%nat with 2%nat in S1.
  set (U1 := <[1%nat := VList (length H0)]> U0) in *.
  set (D1 := <[1%nat := dt]> D0) in *.
  set (H1 := H0 ++ [replicate (S w') (VInt N)]) in *.
  set (O1 := traced trace O0 1) in *.
  pose proof (step_const (loop_prog dt N) warp idxs trace exec_alu truncate as_const
                wmma_model U1 D1 bufs vals 2 ∅ H1 m0 O1 dt (VInt 1) eq_refl) as S2.
  rewrite Hwarp in S2. change (2 + 1)%nat with 3%nat in S2.
  set (U2 := <[2%nat := VList (length H1)]> U1) in *.
  set (D2 := <[2%nat := dt]> D1) in *.
  set (H2 := H1 ++ [replicate (S w') (VInt 1)]) in *.
  set (O2 := traced trace O1 2) in *.
  assert (length H0 = (length h0 + 1)%nat) as L0 by (unfold H0; by rewrite length_app).
  assert (length H1 = (length h0 + 2)%nat) as L1
    by (unfold H1; rewrite length_app, L0; simpl; lia).
  assert (length H2 = (length h0 + 3)%nat) as L2
    by (unfold H2; rewrite length_app, L1; simpl; lia).
  assert (H2 !! length h0 = Some (replicate (S w') (VInt 0))) as Hseed.
  { unfold H2, H1, H0. rewrite <- !app_assoc. by apply list_lookup_middle. }
  assert (U2 !! 0%nat = Some (VList (length h0))) as HU20
    by (unfold U2, U1, U0; by rewrite !lookup_insert_ne, lookup_insert_eq by done).
  assert (D2 !! 0%nat = Some dt) as HD20
    by (unfold D2, D1, D0; by rewrite !lookup_insert_ne, lookup_insert_eq by done).
  pose proof (step_define_acc (loop_prog dt N) warp idxs trace exec_alu truncate
                as_const wmma_model U2 D2 bufs vals 3 ∅ H2 m0 O2 dt 0 [4%nat] ANone
                CONST (Some dt) [] (AVal (VInt 0)) (length h0) dt
                (VInt 0) (replicate w' (VInt 0)) eq_refl eq_refl eq_refl
                HU20 HD20 Hseed Hcount) as S3.
  rewrite Hwarp in S3. change (3 + 1)%nat with 4%nat in S3.
  set (U3 := <[3%nat := VList (length H2)]> U2) in *.
  set (D3 := <[3%nat := dt]> D2) in *.
  set (H3 := H2 ++ [replicate (S w') (VInt 0)]) in *.
  set (O3 := traced trace O2 3) in *.
  assert (length H3 = (length h0 + 4)%nat) as L3
    by (unfold H3; rewrite length_app, L2; simpl; lia).
  assert (H3 !! length h0 = Some (replicate (S w') (VInt 0))) as Hseed3
    by (by apply lookup_app_l_Some).
  assert (U3 !! 0%nat = Some (VList (length h0))) as HU30
    by (unfold U3, U2, U1, U0; by rewrite !lookup_insert_ne, lookup_insert_eq by done).
  assert (U3 !! 1%nat = Some (VList (length H0))) as HU31
    by (unfold U3, U2, U1; by rewrite !lookup_insert_ne, lookup_insert_eq by done).
  assert (U3 !! 4%nat = None) as HU34
    by (unfold U3, U2, U1, U0; by rewrite !lookup_insert_ne, lookup_empty by done).
  assert (D3 !! 0%nat = Some dt) as HD30
    by (unfold D3, D2, D1, D0; by rewrite !lookup_insert_ne, lookup_insert_eq by done).
  assert (D3 !! 1%nat = Some dt) as HD31
    by (unfold D3, D2, D1; by rewrite !lookup_insert_ne, lookup_insert_eq by done).
  pose proof (step_range_first (loop_prog dt N) warp idxs trace exec_alu truncate
                as_const wmma_model U3 D3 bufs vals 4 ∅ H3 m0 O3 dt 0 1 ANone
                CONST (Some dt) [] (AVal (VInt 0)) CONST (Some dt) [] (AVal (VInt N))
                (length h0) (VList (length H0)) dt dt
                (VInt 0) (replicate w' (VInt 0))
                eq_refl eq_refl eq_refl eq_refl eq_refl
                HU30 HU31 HD30 HD31 HU34 Hseed3) as S4.
  rewrite Hwarp in S4. change (4 + 1)%nat with 5%nat in S4.
  eexists. split.
  { rewrite (turns_S 4 _ _ S0) by (cbn; lia).
    rewrite (turns_S 3 _ _ S1) by (cbn; lia).
    rewrite (turns_S 2 _ _ S2) by (cbn; lia).
    rewrite (turns_S 1 _ _ S3) by (cbn; lia).
    rewrite (turns_S 0 _ _ S4) by (cbn; lia). reflexivity. }
  assert (H3 ++ [replicate (S w') (VInt 0)]
          = h0 ++ [lanes (S w') 0; lanes (S w') N; lanes (S w') 1; lanes (S w') 0;
                   lanes (S w') 0]) as Hheap.
  { unfold H3, H2, H1, H0. by rewrite <- !app_assoc. }
  unfold body_state. cbn [pc ul dl heap]. rewrite Hheap.
  split; [done|]. split.
  { intros j Hj. unfold U3, U2, U1, U0. rewrite L0, L1, L2, L3.
    destruct j as [|[|[|[|[|j]]]]]; [| | | | |lia].
    - rewrite !lookup_insert_ne by done. rewrite lookup_insert_eq.
      by rewrite Nat.add_0_r.
    - by rewrite !lookup_insert_ne, lookup_insert_eq by done.
    - by rewrite !lookup_insert_ne, lookup_insert_eq by done.
    - by rewrite !lookup_insert_ne, lookup_insert_eq by done.
    - by rewrite lookup_insert_eq. }
  split.
  { intros j Hj. unfold D3, D2, D1, D0.
    destruct j as [|[|[|[|[|j]]]]]; [| | | | |lia].
    - rewrite !lookup_insert_ne by done. by rewrite lookup_insert_eq.
    - by rewrite !lookup_insert_ne, lookup_insert_eq by done.
    - by rewrite !lookup_insert_ne, lookup_insert_eq by done.
    - by rewrite !lookup_insert_ne, lookup_insert_eq by done.
    - by rewrite lookup_insert_eq. }
  rewrite <- (Nat.add_0_r (length h0)) at 1.
  rewrite !lookup_app_r by lia.
  replace (length h0 + 0 - length h0)%nat with 0%nat by lia.
  replace (length h0 + 1 - length h0)%nat with 1%nat by lia.
  replace (length h0 + 2 - length h0)%nat with 2%nat by lia.
  replace (length h0 + 3 - length h0)%nat with 3%nat by lia.
  replace (length h0 + 4 - length h0)%nat with 4%nat by lia.
  done.
Qed.

Lemma loop_rounds n0 (m : nat) :
  ∀ k c,
    (1 ≤ w)%nat → k + 1 + Z.of_nat m = N →
    (∀ j, k ≤ j < N → exec_alu ADD dt [VInt j; VInt 1] = Ok (VInt (j + 1))) →
    body_state n0 w dt N k c →
    ∃ c', turns' (4 * S m) c = Some c' ∧ loop_done n0 w N c'.
Proof.
  induction m as [|m IH]; intros k c Hw HN Hadd Hst.
  - destruct (loop_iteration n0 k c Hw Hst) as (c' & Ht & Hc'); [apply Hadd; lia|].
    rewrite (proj2 (Z.eqb_eq (k + 1) N)) in Hc' by lia. eauto.
  - destruct (loop_iteration n0 k c Hw Hst) as (c1 & Ht & Hc1); [apply Hadd; lia|].
    rewrite (proj2 (Z.eqb_neq (k + 1) N)) in Hc1 by lia.
    destruct (IH (k + 1) c1 Hw) as (c' & Ht' & Hc'); [lia | | done |].
    { intros j Hj. apply Hadd. lia. }
    exists c'. split; [|done].
    replace (4 * S (S m))%nat with (4 + 4 * S m)%nat by lia.
    by rewrite turns_add, Ht.
Qed.

Lemma loop_counts bufs vals h0 m0 o0 fuel :
  (1 ≤ w)%nat → (1 <? count dt) = false → 1 ≤ N →
  (∀ j, 0 ≤ j < N → exec_alu ADD dt [VInt j; VInt 1] = Ok (VInt (j + 1))) →
  ∃ c, run' (5 + 4 * Z.to_nat N + fuel) (init_ctx bufs vals (h0, m0, o0)) = Some (Ok c) ∧
       loop_done (length h0) w N c.
Proof.
  intros Hw Hcount HN Hadd.
  destruct (loop_entry bufs vals h0 m0 o0 Hw Hcount) as (c0 & Ht0 & Hc0).
  destruct (loop_rounds (length h0) (Z.to_nat N - 1) 0 c0 Hw) as (c & Ht & Hc);
    [lia | done | done |].
  exists c. split; [|done].
  replace (4 * S (Z.to_nat N - 1))%nat with (4 * Z.to_nat N)%nat in Ht by lia.
  rewrite (run_turns _ _ _ _ _ _ _ _ (5 + 4 * Z.to_nat N) fuel _ c).
  - apply run_done. destruct Hc as [-> _]. simpl. lia.
  - by rewrite turns_add, Ht0.
Qed.

Lemma body_forever n0 fuel :
  ∀ k c,
    (1 ≤ w)%nat → N ≤ 0 → 0 ≤ k →
    (∀ j, 0 ≤ j → exec_alu ADD dt [VInt j; VInt 1] = Ok (VInt (j + 1))) →
    body_state n0 w dt N k c → run' fuel c = None.
Proof.
  induction fuel as [fuel IH] using lt_wf_ind. intros k c Hw HN Hk Hadd Hst.
  destruct (loop_iteration n0 k c Hw Hst) as (c1 & Ht & Hc1); [by apply Hadd|].
  rewrite (proj2 (Z.eqb_neq (k + 1) N)) in Hc1 by lia.
  destruct (decide (fuel < 4)%nat) as [Hlt|Hge].
  - by apply (run_short 4 fuel c c1).
  - replace fuel with (4 + (fuel - 4))%nat by lia.
    rewrite (run_turns _ _ _ _ _ _ _ _ 4 (fuel - 4) c c1 Ht).
    apply (IH (fuel - 4)%nat ltac:(lia) (k + 1) c1); [done | done | lia | done | done].
Qed.

Lemma loop_forever bufs vals h0 m0 o0 fuel :
  (1 ≤ w)%nat → (1 <? count dt) = false → N ≤ 0 →
  (∀ j, 0 ≤ j → exec_alu ADD dt [VInt j; VInt 1] = Ok (VInt (j + 1))) →
  run' fuel (init_ctx bufs vals (h0, m0, o0)) = None.
Proof.
  intros Hw Hcount HN Hadd.
  destruct (loop_entry bufs vals h0 m0 o0 Hw Hcount) as (c0 & Ht0 & Hc0).
  destruct (decide (fuel < 5)%nat) as [Hlt|Hge].
  - by apply (run_short 5 fuel _ c0).
  - replace fuel with (5 + (fuel - 5))%nat by lia.
    rewrite (run_turns _ _ _ _ _ _ _ _ 5 (fuel - 5) _ c0 Ht0).
    by apply (body_forever (length h0) (fuel - 5) 0 c0).
Qed.
End Counting.

(** ** Loops and assignments, turn by turn *)

(** X5. [RANGE] is a do-while.  The first visit gives every lane the first
    lane of the start value and goes on into the body without looking at the
    bound.  A later visit adds 1 to every lane of the loop variable in
    place, and leaves the loop (dropping the variable and going behind the
    recorded [ENDRANGE]) exactly when lane 0 then equals lane 0 of the bound;
    without a recorded [ENDRANGE] that is a [KeyError]. *)
Theorem range_is_do_while :
  ∀ uops warp idxs trace exec_alu truncate as_const wmma_model
    U D B V p LE H M O dt i0 i1 arg u d i a u' d' i' a' d0 d1,
    uops !! p = Some (RANGE, Some dt, [i0; i1], arg) →
    uops !! i0 = Some (u, d, i, a) → void_ops u = false →
    uops !! i1 = Some (u', d', i', a') → void_ops u' = false →
    D !! i0 = Some d0 → D !! i1 = Some d1 →
    (∀ l0 v1 x xs,
       U !! i0 = Some (VList l0) → U !! i1 = Some v1 →
       U !! p = None → H !! l0 = Some (x :: xs) →
       step uops warp idxs trace exec_alu truncate as_const wmma_model
            (mkCtx U D B V p LE H M O)
       = Ok (mkCtx (<[p := VList (length H)]> U) (<[p := dt]> D) B V (p + 1) LE
               (H ++ [replicate (length warp) x]) M (traced trace O p))) ∧
    (∀ v0 l1 r z zs b bs,
       U !! i0 = Some v0 → U !! i1 = Some (VList l1) →
       U !! p = Some (VList r) → H !! r = Some (VInt <$> (z :: zs)) →
       r ≠ l1 → H !! l1 = Some (VInt b :: bs) →
       step uops warp idxs trace exec_alu truncate as_const wmma_model
            (mkCtx U D B V p LE H M O)
       = if z + 1 =? b then
           match LE !! p with
           | Some e =>
               Ok (mkCtx (delete p U) (<[p := dt]> D) B V (e + 1) LE
                     (<[r := VInt <$> ((λ z, z + 1) <$> (z :: zs))]> H) M
                     (traced trace O p))
           | None => Raise KeyError
           end
         else Ok (mkCtx U (<[p := dt]> D) B V (p + 1) LE
                    (<[r := VInt <$> ((λ z, z + 1) <$> (z :: zs))]> H) M
                    (traced trace O p))).
Proof.
  intros uops warp idxs trace exec_alu truncate as_const wmma_model
    U D B V p LE H M O dt i0 i1 arg u d i a u' d' i' a' d0 d1
    Hu Hi0 Hv0 Hi1 Hv1 HD0 HD1.
  split.
  - intros l0 v1 x xs HU0 HU1 HUp HH.
    by apply (step_range_first uops warp idxs trace exec_alu truncate as_const
                wmma_model U D B V p LE H M O dt i0 i1 arg u d i a u' d' i' a'
                l0 v1 d0 d1 x xs).
  - intros v0 l1 r z zs b bs HU0 HU1 HUp Hr Hne Hl1.
    by apply (step_range_again uops warp idxs trace exec_alu truncate as_const
                wmma_model U D B V p LE H M O dt i0 i1 arg u d i a u' d' i' a'
                v0 l1 d0 d1 r z zs b bs).
Qed.

Lemma range_is_do_while_witness :
  step spin_prog [origin] origin false add_alu no_truncate id_const no_wmma (spin_open 0)
  = Ok (mkCtx spin_ul (<[2%nat := int32]> spin_dl) [] [] 3 (<[2%nat := 3%nat]> ∅)
          [[VInt 0]; [VInt 0]; [VInt 1]] [] []).
Proof.
  apply (proj2 (range_is_do_while spin_prog [origin] origin false add_alu no_truncate
                  id_const no_wmma spin_ul spin_dl [] [] 2%nat (<[2%nat := 3%nat]> ∅)
                  [[VInt 0]; [VInt 0]; [VInt 0]] [] [] int32 0%nat 1%nat ANone
                  CONST (Some int32) [] (AVal (VInt 0))
                  CONST (Some int32) [] (AVal (VInt 0)) int32 int32
                  eq_refl eq_refl eq_refl eq_refl eq_refl eq_refl eq_refl)
           (VList 0) 1%nat 2%nat 0 [] 0 [] eq_refl eq_refl eq_refl eq_refl).
  - discriminate.
  - reflexivity.
Defined.

(** X6. [ASSIGN] writes into the list object of its first operand, lane by
    lane, and binds its own result to that very object: after the turn the
    target, read through either name, holds the source's lanes.  No new
    list is made. *)
Theorem assign_is_in_place :
  ∀ uops warp idxs trace exec_alu truncate as_const wmma_model
    U D B V p LE H M O dt ia isrc arg u d i a u' d' i' a' la ls da ds xs ys,
    uops !! p = Some (ASSIGN, Some dt, [ia; isrc], arg) →
    uops !! ia = Some (u, d, i, a) → void_ops u = false →
    uops !! isrc = Some (u', d', i', a') → void_ops u' = false →
    U !! ia = Some (VList la) → U !! isrc = Some (VList ls) →
    D !! ia = Some da → D !! isrc = Some ds →
    H !! la = Some xs → H !! ls = Some ys → la ≠ ls → length ys = length xs →
    p ≠ ia →
    ∃ c',
      step uops warp idxs trace exec_alu truncate as_const wmma_model
           (mkCtx U D B V p LE H M O) = Ok c' ∧
      ul c' !! p = Some (VList la) ∧ ul c' !! ia = Some (VList la) ∧
      heap c' = <[la := ys]> H ∧ length (heap c') = length H ∧
      lanes_of c' p = Some ys ∧ lanes_of c' ia = Some ys ∧
      mem c' = M ∧ pc c' = (p + 1)%nat.
Proof.
  intros uops warp idxs trace exec_alu truncate as_const wmma_model
    U D B V p LE H M O dt ia isrc arg u d i a u' d' i' a' la ls da ds xs ys
    Hu Hia Hva His Hvs HUa HUs HDa HDs Hxs Hys Hne Hlen Hp.
  eexists. split.
  - by apply (step_assign uops warp idxs trace exec_alu truncate as_const wmma_model
                U D B V p LE H M O dt ia isrc arg u d i a u' d' i' a' la ls da ds xs ys).
  - assert (la < length H)%nat by (by eapply lookup_lt_Some).
    unfold lanes_of. cbn [ul heap mem pc].
    rewrite lookup_insert_eq, lookup_insert_ne, HUa by done.
    rewrite list_lookup_insert_eq by done.
    by rewrite length_insert.
Qed.

Lemma assign_is_in_place_witness :
  ∃ c',
    step [ (CONST, Some int32, [], AVal (VInt 1));
           (CONST, Some int32, [], AVal (VInt 5));
           (ASSIGN, Some int32, [0; 1]%nat, ANone) ]
         two_lanes origin false add_alu no_truncate id_const no_wmma
         (mkCtx (<[1%nat := VList 1]> (<[0%nat := VList 0]> ∅))
                (<[1%nat := int32]> (<[0%nat := int32]> ∅)) [] [] 2 ∅
                [lanes 2 1; lanes 2 5] [] []) = Ok c' ∧
    lanes_of c' 0 = Some (lanes 2 5).
Proof.
  destruct (assign_is_in_place
              [ (CONST, Some int32, [], AVal (VInt 1));
                (CONST, Some int32, [], AVal (VInt 5));
                (ASSIGN, Some int32, [0; 1]%nat, ANone) ]
              two_lanes origin false add_alu no_truncate id_const no_wmma
              (<[1%nat := VList 1]> (<[0%nat := VList 0]> ∅))
              (<[1%nat := int32]> (<[0%nat := int32]> ∅)) [] [] 2%nat ∅
              [lanes 2 1; lanes 2 5] [] [] int32 0%nat 1%nat ANone
              CONST (Some int32) [] (AVal (VInt 1))
              CONST (Some int32) [] (AVal (VInt 5))
              0%nat 1%nat int32 int32 (lanes 2 1) (lanes 2 5))
    as (c' & Hs & _ & _ & _ & _ & _ & Hl & _);
    try reflexivity; try discriminate.
  exists c'. by split.
Defined.

(** ** The counting loop as a whole *)

(** X3. The loop that adds 1 to an accumulator, run from 0 to a bound
    [N >= 1] with an [exec_alu] that adds on that range, ends after
    [5 + 4*N] turns with [N] in every lane of the accumulator: the body has
    run [N] times. *)
Theorem counting_loop_counts :
  ∀ warp idxs trace exec_alu truncate as_const wmma_model dt N bufs vals h0 m0 o0 fuel,
    (1 ≤ length warp)%nat → (1 <? count dt) = false → 1 ≤ N →
    (∀ j, 0 ≤ j < N → exec_alu ADD dt [VInt j; VInt 1] = Ok (VInt (j + 1))) →
    ∃ c, run (loop_prog dt N) warp idxs trace exec_alu truncate as_const wmma_model
             (5 + 4 * Z.to_nat N + fuel) (init_ctx bufs vals (h0, m0, o0))
         = Some (Ok c) ∧
         loop_done (length h0) (length warp) N c.
Proof.
  intros warp idxs trace exec_alu truncate as_const wmma_model dt N bufs vals h0 m0 o0
    fuel Hw Hc HN Halu.
  by apply loop_counts.
Qed.

Lemma counting_loop_counts_witness :
  ∃ c, run (loop_prog int32 3) two_lanes origin false add_alu no_truncate id_const
           no_wmma (5 + 4 * Z.to_nat 3 + 0) (init_ctx [] [] ([], [], []))
       = Some (Ok c) ∧
       loop_done (length (@nil (list Value))) (length two_lanes) 3 c.
Proof.
  apply (counting_loop_counts two_lanes origin false add_alu no_truncate id_const
           no_wmma int32 3 [] [] [] [] [] 0%nat).
  - simpl. lia.
  - reflexivity.
  - lia.
  - intros j Hj. reflexivity.
Defined.

(** X4. The same loop with a bound [N <= 0] never ends: the loop variable
    is compared with the bound only after it has been incremented, starts
    above it and only grows.  Whatever the fuel, the run is still going. *)
Theorem counting_loop_never_ends :
  ∀ warp idxs trace exec_alu truncate as_const wmma_model dt N bufs vals h0 m0 o0 fuel,
    (1 ≤ length warp)%nat → (1 <? count dt) = false → N ≤ 0 →
    (∀ j, 0 ≤ j → exec_alu ADD dt [VInt j; VInt 1] = Ok (VInt (j + 1))) →
    run (loop_prog dt N) warp idxs trace exec_alu truncate as_const wmma_model
        fuel (init_ctx bufs vals (h0, m0, o0)) = None.
Proof.
  intros warp idxs trace exec_alu truncate as_const wmma_model dt N bufs vals h0 m0 o0
    fuel Hw Hc HN Halu.
  by apply loop_forever.
Qed.

Lemma counting_loop_never_ends_witness :
  run (loop_prog int32 0) two_lanes origin false add_alu no_truncate id_const no_wmma
      1000 (init_ctx [] [] ([], [], [])) = None.
Proof.
  apply (counting_loop_never_ends two_lanes origin false add_alu no_truncate id_const
           no_wmma int32 0 [] [] [] [] [] 1000%nat).
  - simpl. lia.
  - reflexivity.
  - lia.
  - intros j Hj. reflexivity.
Defined.


(** ** Masked loads *)

Lemma load_lane_off heap mem j m x d g :
  py_truth heap mem g = false → load_lane heap mem j [m; x; d; g] = Ok d.
Proof. intros H. simpl. by rewrite H. Qed.

Lemma load_lane_on heap mem j m x d g xz :
  py_truth heap mem g = true → lane_int x = Ok xz →
  load_lane heap mem j [m; x; d; g] = _load heap mem m (xz + j).
Proof. intros H Hx. simpl. by rewrite H, Hx. Qed.

Lemma zip_star_4_cons {A} (a b c d : A) (ms xs ds gs : list A) :
  zip_star [a :: ms; b :: xs; c :: ds; d :: gs]
  = [a; b; c; d] :: zip_star [ms; xs; ds; gs].
Proof. reflexivity. Qed.

Lemma load_all_off heap mem lm lx ld lg j ms xs ds gs :
  heap !! lm = Some ms → heap !! lx = Some xs →
  heap !! ld = Some ds → heap !! lg = Some gs →
  length ms = length ds → length xs = length ds → length gs = length ds →
  Forall (λ g, py_truth heap mem g = false) gs →
  load heap mem [VList lm; VList lx; VList ld; VList lg] j = Ok ds.
Proof.
  intros Hm Hx Hd Hg Lm Lx Lg Hoff. unfold load.
  rewrite bool_decide_true by done. cbn [mapR py_iter].
  rewrite Hm, Hx, Hd, Hg, !bind_Ok. clear Hm Hx Hd Hg.
  revert ms xs gs Lm Lx Lg Hoff.
  induction ds as [|d ds IH]; intros ms xs gs Lm Lx Lg Hoff.
  - destruct ms; [|done]. done.
  - destruct ms as [|m ms]; [done|]. destruct xs as [|x xs]; [done|].
    destruct gs as [|g gs]; [done|]. rewrite zip_star_4_cons.
    apply Forall_cons in Hoff as [Hg Hoff]. cbn [mapR].
    rewrite (load_lane_off heap mem j m x d g Hg), bind_Ok.
    rewrite (IH ms xs gs); [done | | | | done]; simpl in *; lia.
Qed.

(** X7. The four operand form of [load]: a lane whose gate is false gets the
    default and never reaches [_load], so an offset out of bounds raises
    nothing there; a lane whose gate is true loads item [x + j].  With every
    gate false the load returns the defaults. *)
Theorem gated_load_masks :
  (∀ heap mem j m x d g,
     py_truth heap mem g = false → load_lane heap mem j [m; x; d; g] = Ok d) ∧
  (∀ heap mem j m x d g xz,
     py_truth heap mem g = true → lane_int x = Ok xz →
     load_lane heap mem j [m; x; d; g] = _load heap mem m (xz + j)) ∧
  (∀ heap mem lm lx ld lg j ms xs ds gs,
     heap !! lm = Some ms → heap !! lx = Some xs →
     heap !! ld = Some ds → heap !! lg = Some gs →
     length ms = length ds → length xs = length ds → length gs = length ds →
     Forall (λ g, py_truth heap mem g = false) gs →
     load heap mem [VList lm; VList lx; VList ld; VList lg] j = Ok ds).
Proof.
  split; [|split].
  - intros. by apply load_lane_off.
  - intros. by apply load_lane_on.
  - intros. by eapply load_all_off.
Qed.

Lemma gated_load_masks_witness :
  load [[VBuf 0 FB]; [VInt 99]; [VInt 7]; [VBool false]] [[1; 2]]
       [VList 0; VList 1; VList 2; VList 3] 0 = Ok [VInt 7].
Proof.
  apply (proj2 (proj2 gated_load_masks)
           [[VBuf 0 FB]; [VInt 99]; [VInt 7]; [VBool false]] [[1; 2]]
           0%nat 1%nat 2%nat 3%nat 0 [VBuf 0 FB] [VInt 99] [VInt 7] [VBool false]);
    try reflexivity.
  repeat constructor.
Defined.

(** ** Image stores *)

Lemma image_store_lane_outside sh j hm m ox oy v g x y w h :
  lane_int ox = Ok x → lane_int oy = Ok y →
  py_index sh 1 = Ok w → py_index sh 0 = Ok h →
  x < 0 ∨ w ≤ x ∨ y < 0 ∨ h ≤ y →
  image_store_lane sh j hm [m; ox; oy; v; g] = Raise AssertionError.
Proof.
  intros Hx Hy Hw Hh Hout. cbn [image_store_lane].
  rewrite (in_image_spec sh ox oy x y w h) by done.
  rewrite bind_Ok. by rewrite decide_False by lia.
Qed.

(** X8. An image store asserts the address of every lane before it looks at
    the gate: outside the image it raises [AssertionError] whether the gate
    is true or false, where an image load would have returned 0. *)
Theorem image_store_asserts_address :
  ∀ sh j hm m ox oy v g x y w h,
    lane_int ox = Ok x → lane_int oy = Ok y →
    py_index sh 1 = Ok w → py_index sh 0 = Ok h →
    x < 0 ∨ w ≤ x ∨ y < 0 ∨ h ≤ y →
    image_store_lane sh j hm [m; ox; oy; v; g] = Raise AssertionError ∧
    image_load_lane hm.1 hm.2 sh j (m, (ox, oy)) = Ok (VInt 0).
Proof.
  intros. split.
  - by eapply image_store_lane_outside.
  - by eapply image_load_lane_spec.
Qed.

Lemma image_store_asserts_address_witness :
  image_store_lane [2; 2; 4] 0 ([], [replicate 64 0])
    [VBuf 0 Ff; VInt 2; VInt 0; VFloat float_one; VBool false] = Raise AssertionError.
Proof.
  apply (image_store_asserts_address [2; 2; 4] 0 ([], [replicate 64 0]) (VBuf 0 Ff)
           (VInt 2) (VInt 0) (VFloat float_one) (VBool false) 2 0 2 2
           eq_refl eq_refl eq_refl eq_refl).
  lia.
Defined.

(** ** Integer casts once more *)

Lemma int_wrap_in_range_id d x :
  let b := Z.pos (itemsize d) * 8 in
  (if is_unsigned d then 0 ≤ x ≤ 2 ^ b - 1 else - 2 ^ (b - 1) ≤ x ≤ 2 ^ (b - 1) - 1) →
  int_wrap d x = x.
Proof.
  intros b. unfold int_wrap, overflow_adjust. fold b.
  assert (0 < b) by (unfold b; lia).
  assert (2 ^ b = 2 * 2 ^ (b - 1)) as Hpow.
  { rewrite <- Z.pow_succ_r by lia. f_equal. lia. }
  assert (0 < 2 ^ (b - 1)) by (apply Z.pow_pos_nonneg; lia).
  destruct (is_unsigned d); simpl; intros Hr.
  - rewrite Z.add_0_r, Z.mod_small; lia.
  - rewrite Z.mod_small; lia.
Qed.

(** X9. An integer cast leaves a value of the dtype's range as it is, and
    so casting twice to one integer dtype is casting once. *)
Theorem int_cast_idempotent :
  (∀ d x,
     (if is_unsigned d then 0 ≤ x ≤ 2 ^ (Z.pos (itemsize d) * 8) - 1
      else - 2 ^ (Z.pos (itemsize d) * 8 - 1) ≤ x ≤ 2 ^ (Z.pos (itemsize d) * 8 - 1) - 1) →
     int_wrap d x = x) ∧
  (∀ d x, int_wrap d (int_wrap d x) = int_wrap d x).
Proof.
  split.
  - intros d x. apply int_wrap_in_range_id.
  - intros d x. apply int_wrap_in_range_id. apply int_wrap_spec.
Qed.

Lemma int_cast_idempotent_witness : int_wrap int8 (-128) = -128.
Proof. apply (proj1 int_cast_idempotent int8 (-128)). simpl. lia. Defined.

(** ** Buffers keep their size *)

Lemma same_sizes_refl m : same_sizes m m.
Proof. done. Qed.

Lemma same_sizes_trans m1 m2 m3 :
  same_sizes m1 m2 → same_sizes m2 m3 → same_sizes m1 m3.
Proof. unfold same_sizes. congruence. Qed.

Lemma same_sizes_kept m m' : same_sizes m m' → sizes_kept m m'.
Proof. unfold same_sizes, sizes_kept. by intros ->. Qed.

Lemma sizes_kept_trans m1 m2 m3 :
  sizes_kept m1 m2 → sizes_kept m2 m3 → sizes_kept m1 m3.
Proof. unfold sizes_kept. by etrans. Qed.

Lemma sizes_kept_lookup m m' b old :
  sizes_kept m m' → m !! b = Some old →
  ∃ new, m' !! b = Some new ∧ length new = length old.
Proof.
  intros [extra He] Hb.
  assert ((length <$> m') !! b = Some (length old)) as Hl.
  { rewrite He. apply lookup_app_l_Some. by rewrite list_lookup_fmap, Hb. }
  rewrite list_lookup_fmap in Hl. destruct (m' !! b) as [new|]; [|done].
  injection Hl as Hl. eauto.
Qed.

Lemma foldR_inv {A S} (P : S → S → Prop) (f : S → A → Res S) (l : list A) (s s' : S) :
  (∀ s, P s s) → (∀ s1 s2 s3, P s1 s2 → P s2 s3 → P s1 s3) →
  (∀ s x s', f s x = Ok s' → P s s') →
  foldR f s l = Ok s' → P s s'.
Proof.
  intros Hr Ht Hf. revert s. induction l as [|x l IH]; intros s; simpl.
  - by intros [= <-].
  - intros H. apply bind_inv_Ok in H as (t & H1 & H2). eauto.
Qed.

Lemma py_setitem_sizes h m v k x h' m' :
  py_setitem h m v k x = Ok (h', m') → same_sizes m m'.
Proof.
  destruct v as [| | |b f|l]; simpl; try done.
  - unfold mv_len. destruct (m !! b) as [old|] eqn:Hold; [|done].
    rewrite bind_Ok.
    set (n := Z.of_nat (length old `div` calcsize f)).
    set (k' := if k <? 0 then k + n else k).
    destruct ((k' <? 0) || (n <=? k')) eqn:Hk; [done|].
    apply orb_false_iff in Hk as [Hk1 Hk2].
    apply Z.ltb_ge in Hk1. apply Z.leb_gt in Hk2.
    destruct (pack_item false f (py_truth h m) x) as [bs|] eqn:Hbs; [|done].
    rewrite bind_Ok. intros [= <- <-]. unfold same_sizes.
    rewrite list_fmap_insert. apply list_insert_id.
    rewrite list_lookup_fmap, Hold. simpl. f_equal. symmetry.
    apply splice_length; [by eapply pack_item_length|].
    apply item_fits. unfold n in Hk2. lia.
  - destruct (h !! l) as [xs|]; [|done].
    destruct (_ || _); [done|]. by intros [= <- <-].
Qed.

Lemma _store_sizes h m v i x h' m' :
  _store h m v i x = Ok (h', m') → same_sizes m m'.
Proof.
  unfold _store. destruct (i <? 0); [done|].
  intros H. apply bind_inv_Ok in H as (n & _ & H).
  destruct (n <=? i); [done|]. by eapply py_setitem_sizes.
Qed.

Lemma store_lane_sizes j hm t hm' :
  store_lane j hm t = Ok hm' → same_sizes hm.2 hm'.2.
Proof.
  destruct t as [|m [|o [|v [|g [|]]]]]; try done. simpl.
  destruct (py_truth hm.1 hm.2 g); [|by intros [= <-]].
  intros H. apply bind_inv_Ok in H as (oz & _ & H).
  destruct hm' as [h' m']. by eapply _store_sizes.
Qed.

Lemma image_store_lane_sizes sh j hm t hm' :
  image_store_lane sh j hm t = Ok hm' → same_sizes hm.2 hm'.2.
Proof.
  destruct t as [|m [|ox [|oy [|v [|g [|]]]]]]; try done. simpl.
  intros H. apply bind_inv_Ok in H as ([[[x y] w]|] & _ & H); [|done].
  destruct (py_truth hm.1 hm.2 g); [|by injection H as <-].
  destruct hm' as [h' m']. by eapply _store_sizes.
Qed.

Lemma foldR_sizes {A} (f : ObjStore → A → Res ObjStore) l hm hm' :
  (∀ s x s', f s x = Ok s' → same_sizes s.2 s'.2) →
  foldR f hm l = Ok hm' → same_sizes hm.2 hm'.2.
Proof.
  intros Hf. apply (foldR_inv (λ s s' : ObjStore, same_sizes s.2 s'.2)); try done.
  intros s1 s2 s3. apply same_sizes_trans.
Qed.

Lemma exec_store_sizes inp dtp hm0 hm' :
  exec_store inp dtp hm0 = Ok hm' → same_sizes hm0.2 hm'.2.
Proof.
  unfold exec_store. intros H.
  apply bind_inv_Ok in H as ([inp' hm] & H0 & H).
  assert (hm.2 = hm0.2) as <-.
  { case_bool_decide; [|by injection H0 as <- <-].
    apply bind_inv_Ok in H0 as (v0 & _ & H0).
    apply bind_inv_Ok in H0 as (n & _ & H0).
    unfold alloc in H0. by injection H0 as <- <-. }
  apply bind_inv_Ok in H as (d0 & _ & H).
  destruct (shape d0) as [sh|].
  - apply bind_inv_Ok in H as (d2 & _ & H).
    apply bind_inv_Ok in H as (u & _ & H).
    apply bind_inv_Ok in H as (vals & _ & H).
    revert H. apply foldR_sizes. intros s [j val] s' H.
    repeat (apply bind_inv_Ok in H as (? & _ & H)).
    revert H. apply foldR_sizes. intros ? ? ?. apply image_store_lane_sizes.
  - apply bind_inv_Ok in H as (d2 & _ & H).
    destruct (1 <? count d2).
    + apply bind_inv_Ok in H as (vals & _ & H).
      revert H. apply foldR_sizes. intros s [j val] s' H.
      repeat (apply bind_inv_Ok in H as (? & _ & H)).
      revert H. apply foldR_sizes. intros ? ? ?. apply store_lane_sizes.
    + apply bind_inv_Ok in H as (ls & _ & H).
      revert H. apply foldR_sizes. intros ? ? ?. apply store_lane_sizes.
Qed.

Lemma exec_range_sizes warp i inp c c' b :
  exec_range warp i inp c = Ok (c', b) → same_sizes (mem c) (mem c').
Proof.
  unfold exec_range. destruct (ul c !! i) as [r|].
  - intros H. apply bind_inv_Ok in H as (n & _ & H).
    apply bind_inv_Ok in H as (hm & Hf & H).
    assert (same_sizes (mem c) hm.2) as Hs.
    { revert Hf. apply (foldR_sizes _ _ (heap c, mem c)). intros s j s' H'.
      apply bind_inv_Ok in H' as (x & _ & H').
      apply bind_inv_Ok in H' as (y & _ & H').
      destruct s' as [h' m']. by eapply py_setitem_sizes. }
    cbv zeta in H.
    apply bind_inv_Ok in H as (a & _ & H).
    apply bind_inv_Ok in H as (v1 & _ & H).
    apply bind_inv_Ok in H as (bb & _ & H).
    destruct (py_eq a bb).
    + destruct (loop_ends _ !! i); [|done]. by injection H as <- <-.
    + by injection H as <- <-.
  - intros H. apply bind_inv_Ok in H as (v0 & _ & H).
    apply bind_inv_Ok in H as (x & _ & H). by injection H as <- <-.
Qed.

Lemma exec_assign_sizes i inp c c' :
  exec_assign i inp c = Ok c' → same_sizes (mem c) (mem c').
Proof.
  unfold exec_assign. intros H.
  apply bind_inv_Ok in H as (v0 & _ & H).
  apply bind_inv_Ok in H as (n & _ & H).
  apply bind_inv_Ok in H as (hm & Hf & H). injection H as <-.
  cbn [mem set_ul set_mem set_heap].
  revert Hf. apply (foldR_sizes _ _ (heap c, mem c)). intros s j s' H'.
  apply bind_inv_Ok in H' as (v1 & _ & H').
  apply bind_inv_Ok in H' as (x & _ & H').
  destruct s' as [h' m']. by eapply py_setitem_sizes.
Qed.

Lemma exec_define_local_sizes warp i dtype arg c c' :
  exec_define_local warp i dtype arg c = Ok c' → sizes_kept (mem c) (mem c').
Proof.
  unfold exec_define_local. destruct (fmt dtype) as [f|]; [|done].
  destruct arg as [| |nm size| | |]; try done.
  destruct (_ <? 0); [done|]. unfold alloc.
  case_bool_decide; [|done]. intros [= <-].
  unfold bind_new, alloc, sizes_kept. cbn [mem set_ul set_heap set_mem].
  rewrite fmap_app. by apply prefix_app_r.
Qed.

(** The other handlers do not touch the bytearrays at all. *)
Ltac keeps_mem :=
  intros;
  match goal with c : Ctx |- _ => destruct c end;
  repeat match goal with
         | H : _ = Ok _ |- _ => revert H
         end;
  simpl; unfold mbind, Res_bind; simpl; intros;
  repeat case_match; simplify_eq; try done.

Section Sizes.
Variable uops : list UOp.
Variable warp : list (list Z).
Variable idxs : list Z.
Variable trace : bool.
Variable exec_alu : Arg → DType → list Value → Res Value.
Variable truncate : DType → option (Value → Res Value).
Variable as_const : Value → DType → Res Value.
Variable wmma_model :
  nat → list Value → string → list (list Value) → Res (Value * list (list Value)).

Local Abbreviation step' :=
  (step uops warp idxs trace exec_alu truncate as_const wmma_model).
Local Abbreviation run' :=
  (run uops warp idxs trace exec_alu truncate as_const wmma_model).

Lemma exec_define_global_mem i dtype c c' :
  exec_define_global warp i dtype c = Ok c' → mem c' = mem c.
Proof. unfold exec_define_global. keeps_mem. Qed.

Lemma exec_define_var_mem i c c' :
  exec_define_var warp i c = Ok c' → mem c' = mem c.
Proof. unfold exec_define_var. keeps_mem. Qed.

Lemma exec_special_mem i arg c c' :
  exec_special warp idxs i arg c = Ok c' → mem c' = mem c.
Proof. unfold exec_special. keeps_mem. Qed.

Lemma exec_const_mem i arg c c' :
  exec_const warp i arg c = Ok c' → mem c' = mem c.
Proof. unfold exec_const. keeps_mem. Qed.

Lemma exec_define_acc_mem i dtype inp c c' :
  exec_define_acc warp i dtype inp c = Ok c' → mem c' = mem c.
Proof. unfold exec_define_acc. keeps_mem. Qed.

Lemma exec_cast_mem b i dtype inp dtp c c' :
  exec_cast warp truncate as_const b i dtype inp dtp c = Ok c' → mem c' = mem c.
Proof. unfold exec_cast. keeps_mem. Qed.

Lemma exec_load_mem i dtype inp dtp c c' :
  exec_load i dtype inp dtp c = Ok c' → mem c' = mem c.
Proof. unfold exec_load. keeps_mem. Qed.

Lemma exec_gep_mem i arg inp c c' :
  exec_gep i arg inp c = Ok c' → mem c' = mem c.
Proof. unfold exec_gep. keeps_mem. Qed.

Lemma exec_wmma_mem i arg inp c c' :
  exec_wmma warp wmma_model i arg inp c = Ok c' → mem c' = mem c.
Proof. unfold exec_wmma. keeps_mem. Qed.

Lemma exec_alu_uop_mem i dtype arg inp dtp c c' :
  exec_alu_uop exec_alu i dtype arg inp dtp c = Ok c' → mem c' = mem c.
Proof. unfold exec_alu_uop. keeps_mem. Qed.

Lemma step_sizes c c' : step' c = Ok c' → sizes_kept (mem c) (mem c').
Proof.
  unfold step.
  destruct (uops !! pc c) as [[[[uop dtype] idp] arg]|] eqn:Hu; [|done].
  case_res (if bool_decide (uop = DEFINE_ACC) then py_index idp 0 ≫= λ x, Ok [x]
            else Ok idp) as idp'.
  case_res (operands uops (ul c) idp') as inp.
  case_res (operands uops (dl c) idp') as dtp.
  cbv zeta.
  set (c0 := if trace then set_stdout (stdout c ++ [pc c]) c else c).
  assert (mem c0 = mem c) as Hm0 by (unfold c0; by destruct trace).
  rewrite <- Hm0.
  destruct uop; try done.
  all: try (destruct dtype as [dtype|]; [|done];
            set (c1 := set_dl <[pc c:=dtype]> c0);
            change (mem c0) with (mem c1)).
  all: intros Hs.
  all: try (apply bind_inv_Ok in Hs as ([c2 b] & H1 & H2)).
  all: try (apply bind_inv_Ok in H1 as (c3 & Hh & Heq); injection Heq as <- <-).
  all: try (apply bind_inv_Ok in H2 as (u & _ & Heq); injection Heq as <-;
            cbn [mem set_pc]).
  all: try (apply exec_define_global_mem in Hh as ->).
  all: try (apply exec_define_var_mem in Hh as ->).
  all: try (apply exec_special_mem in Hh as ->).
  all: try (apply exec_const_mem in Hh as ->).
  all: try (apply exec_define_acc_mem in Hh as ->).
  all: try (apply exec_cast_mem in Hh as ->).
  all: try (apply exec_load_mem in Hh as ->).
  all: try (apply exec_gep_mem in Hh as ->).
  all: try (apply exec_wmma_mem in Hh as ->).
  all: try (apply exec_alu_uop_mem in Hh as ->).
  all: try (by apply same_sizes_kept).
  all: try (by apply exec_define_local_sizes in Hh).
  all: try (apply same_sizes_kept; by apply exec_assign_sizes in Hh).
  all: try (injection Hs as <-; by apply same_sizes_kept).
  all: try (apply bind_inv_Ok in Hs as (x & _ & Hs); injection Hs as <-;
            by apply same_sizes_kept).
  all: try (apply exec_store_sizes in H1; injection H2 as <-;
            by apply same_sizes_kept).
  all: try (injection H1 as <- <-;
            apply bind_inv_Ok in H2 as (u & _ & Heq); injection Heq as <-;
            by apply same_sizes_kept).
  apply exec_range_sizes in H1. apply same_sizes_kept. destruct b.
  - by injection H2 as <-.
  - apply bind_inv_Ok in H2 as (u & _ & Heq). by injection Heq as <-.
Qed.

Lemma run_sizes fuel c c' : run' fuel c = Some (Ok c') → sizes_kept (mem c) (mem c').
Proof.
  revert c. induction fuel as [|fuel IH]; intros c; simpl.
  - case_bool_decide; [done|]. intros [= <-]. by apply same_sizes_kept.
  - case_bool_decide; [|intros [= <-]; by apply same_sizes_kept].
    destruct (step' c) as [c1|e] eqn:Hs; [|done]. intros Hr.
    eapply sizes_kept_trans; [by apply step_sizes | by apply IH].
Qed.
End Sizes.

Section CallSizes.
Variable uops : list UOp.
Variable trace : bool.
Variable exec_alu : Arg → DType → list Value → Res Value.
Variable truncate : DType → option (Value → Res Value).
Variable as_const : Value → DType → Res Value.
Variable wmma_model :
  nat → list Value → string → list (list Value) → Res (Value * list (list Value)).
Variable perf_counter : nat → Q.

Lemma run_coord_sizes fuel warp bufs vals idxs w w' :
  run_coord uops trace exec_alu truncate as_const wmma_model fuel warp bufs vals idxs w
  = Some (Ok w') → sizes_kept w.1.2 w'.1.2.
Proof.
  unfold run_coord.
  destruct (run _ _ _ _ _ _ _ _ _ _) as [[c|e]|] eqn:Hr; try done.
  intros [= <-]. by apply run_sizes in Hr.
Qed.

Lemma run_coords_sizes fuel warp bufs vals coords w w' :
  run_coords uops trace exec_alu truncate as_const wmma_model fuel warp bufs vals coords w
  = Some (Ok w') → sizes_kept w.1.2 w'.1.2.
Proof.
  revert w. induction coords as [|idxs coords IH]; intros w; simpl.
  - intros [= <-]. by apply same_sizes_kept.
  - destruct (run_coord _ _ _ _ _ _ _ _ _ _ _ _) as [[w1|e]|] eqn:Hr; try done.
    intros Hrest. eapply sizes_kept_trans; [by eapply run_coord_sizes | by apply IH].
Qed.

Lemma call_sizes fuel bufs global_size local_size vals mem0 t mem' :
  call uops trace exec_alu truncate as_const wmma_model perf_counter fuel bufs
       global_size local_size vals mem0 = Some (Ok (t, mem')) →
  sizes_kept mem0 mem'.
Proof.
  unfold call.
  destruct (run_coords _ _ _ _ _ _ _ _ _ _ _ _) as [[w|e]|] eqn:Hr; try done.
  intros [= _ <-]. by apply run_coords_sizes in Hr.
Qed.
End CallSizes.

(** X10. A call that returns has resized no bytearray and dropped none:
    every buffer the caller passed is at its place, as long as before.  The
    buffers of [DEFINE_LOCAL] come behind them. *)
Theorem call_keeps_buffer_sizes :
  ∀ uops trace exec_alu truncate as_const wmma_model perf_counter fuel bufs
    global_size local_size vals mem0 t mem',
    call uops trace exec_alu truncate as_const wmma_model perf_counter fuel bufs
         global_size local_size vals mem0 = Some (Ok (t, mem')) →
    (length <$> mem0) `prefix_of` (length <$> mem') ∧
    ∀ b old, mem0 !! b = Some old →
             ∃ new, mem' !! b = Some new ∧ length new = length old.
Proof.
  intros * Hcall. apply call_sizes in Hcall. split; [done|].
  intros b old. by apply sizes_kept_lookup.
Qed.

Lemma call_keeps_buffer_sizes_witness :
  ∃ new, [[0; 0; 0; 0; 0; 0; 0; 0]; [7; 0; 0; 0]; [7; 0; 0; 0]] !! 0%nat = Some new ∧
         length new = length [9; 9; 9; 9; 9; 9; 9; 9].
Proof.
  assert (call local_prog false add_alu no_truncate id_const no_wmma tick 8 [0%nat]
            [2; 1; 1] [1; 1; 1] [] [[9; 9; 9; 9; 9; 9; 9; 9]]
          = Some (Ok (1%Q, [[0; 0; 0; 0; 0; 0; 0; 0]; [7; 0; 0; 0]; [7; 0; 0; 0]])))
    as Hcall by (vm_compute; reflexivity).
  apply (proj2 (call_keeps_buffer_sizes local_prog false add_alu no_truncate id_const
                  no_wmma tick 8 [0%nat] [2; 1; 1] [1; 1; 1] []
                  [[9; 9; 9; 9; 9; 9; 9; 9]] 1%Q _ Hcall) 0%nat).
  reflexivity.
Defined.

(** ** The launch grid *)

Lemma range_length n : length (range n) = Z.to_nat n.
Proof. unfold range. by rewrite length_map, length_seq. Qed.

Lemma elem_of_range n x : x ∈ range n ↔ 0 ≤ x < n.
Proof.
  unfold range. rewrite list_elem_of_fmap. split.
  - intros (k & -> & Hk). apply elem_of_seq in Hk. lia.
  - intros Hx. exists (Z.to_nat x). split; [lia|]. apply elem_of_seq. lia.
Qed.

Lemma range_empty n : n ≤ 0 → range n = [].
Proof. intros H. unfold range. by replace (Z.to_nat n) with 0%nat by lia. Qed.

Lemma product_length ls :
  length (product ls) = foldr Nat.mul 1%nat (length <$> ls).
Proof.
  induction ls as [|l ls IH]; [done|]. cbn [product fmap list_fmap foldr].
  rewrite <- IH. generalize (product ls). intros p.
  induction l as [|x l IHl]; [done|]. simpl.
  rewrite length_app, length_map, IHl. lia.
Qed.

Lemma elem_of_product ls t :
  t ∈ product ls ↔ Forall2 (λ x l, x ∈ l) t ls.
Proof.
  revert t. induction ls as [|l ls IH]; intros t; simpl.
  - rewrite list_elem_of_singleton. split; [by intros -> | by intros ->%Forall2_nil_inv_r].
  - rewrite list_elem_of_In, in_flat_map. split.
    + intros (x & Hx & Ht). apply list_elem_of_In in Hx, Ht.
      apply list_elem_of_fmap in Ht as (t' & -> & Ht').
      constructor; [done | by apply IH].
    + intros H. apply Forall2_cons_inv_r in H as (x & t' & Hx & Ht' & ->).
      exists x. split; [by apply list_elem_of_In|].
      apply list_elem_of_In, list_elem_of_fmap. exists t'. split; [done | by apply IH].
Qed.

Lemma product_empty ls : [] ∈ ls → product ls = [].
Proof.
  intros H. destruct (product ls) as [|t p] eqn:E; [done|].
  assert (t ∈ product ls) as Ht by (rewrite E; apply list_elem_of_here).
  apply elem_of_product in Ht.
  apply list_elem_of_lookup in H as [k Hk].
  destruct (Forall2_lookup_r _ _ _ _ _ Ht Hk) as (x & _ & Hx).
  by apply elem_of_nil in Hx.
Qed.

Lemma grid_length sizes :
  length (grid sizes) = foldr Nat.mul 1%nat (Z.to_nat <$> rev sizes).
Proof.
  unfold grid. rewrite product_length. f_equal.
  rewrite <- list_fmap_compose. apply list_fmap_ext. intros _ n _. apply range_length.
Qed.

Lemma elem_of_grid sizes t :
  t ∈ grid sizes ↔ Forall2 (λ x n, 0 ≤ x < n) t (rev sizes).
Proof.
  unfold grid. rewrite elem_of_product, Forall2_fmap_r.
  split; intros H; (eapply Forall2_impl; [exact H|]); intros x n; apply elem_of_range.
Qed.

Lemma grid_empty sizes n : n ∈ sizes → n ≤ 0 → grid sizes = [].
Proof.
  intros Hn H0. apply product_empty. apply list_elem_of_fmap. exists n.
  split; [by rewrite range_empty | apply list_elem_of_In; rewrite <- in_rev; by apply list_elem_of_In].
Qed.

(** A point of a three dimensional grid, read at [2 - d]. *)
Lemma grid_axis g0 g1 g2 t (d : nat) g :
  t ∈ grid [g0; g1; g2] → [g0; g1; g2] !! d = Some g →
  ∃ x, py_index t (2 - Z.of_nat d) = Ok x ∧ 0 ≤ x < g.
Proof.
  intros Ht Hd. apply elem_of_grid in Ht. simpl in Ht.
  apply Forall2_cons_inv_r in Ht as (z & t1 & Hz & Ht & ->).
  apply Forall2_cons_inv_r in Ht as (y & t2 & Hy & Ht & ->).
  apply Forall2_cons_inv_r in Ht as (x & t3 & Hx & Ht & ->).
  apply Forall2_nil_inv_r in Ht as ->.
  destruct d as [|[|[|d]]]; simplify_eq/=; eauto.
Qed.

Section Grid.
Variable uops : list UOp.
Variable trace : bool.
Variable exec_alu : Arg → DType → list Value → Res Value.
Variable truncate : DType → option (Value → Res Value).
Variable as_const : Value → DType → Res Value.
Variable wmma_model :
  nat → list Value → string → list (list Value) → Res (Value * list (list Value)).
Variable perf_counter : nat → Q.

Lemma call_grid fuel bufs global_size local_size vals mem0 :
  call uops trace exec_alu truncate as_const wmma_model perf_counter fuel bufs
       global_size local_size vals mem0
  = match run_coords uops trace exec_alu truncate as_const wmma_model fuel
            (grid local_size) bufs vals (grid global_size) ([], mem0, []) with
    | None => None
    | Some (Raise e) => Some (Raise e)
    | Some (Ok w) => Some (Ok ((perf_counter 1%nat - perf_counter 0%nat)%Q, w.1.2))
    end.
Proof. reflexivity. Qed.

Lemma call_empty_grid fuel bufs global_size local_size vals mem0 n :
  n ∈ global_size → n ≤ 0 →
  call uops trace exec_alu truncate as_const wmma_model perf_counter fuel bufs
       global_size local_size vals mem0
  = Some (Ok ((perf_counter 1%nat - perf_counter 0%nat)%Q, mem0)).
Proof. intros Hn H0. rewrite call_grid. by rewrite (grid_empty global_size n). Qed.
End Grid.

(** X11. The coordinates of a call and the lanes of its warp are the
    points of the size tuple taken in reverse: as many as the product of the
    sizes, each with one index below the size per dimension.  With a size of
    0 or less among the global sizes no instruction is run: the call returns
    with the memory as it was, whatever the program. *)
Theorem launch_grid :
  (∀ uops trace exec_alu truncate as_const wmma_model perf_counter fuel bufs
     global_size local_size vals mem0,
     call uops trace exec_alu truncate as_const wmma_model perf_counter fuel bufs
          global_size local_size vals mem0
     = match run_coords uops trace exec_alu truncate as_const wmma_model fuel
               (grid local_size) bufs vals (grid global_size) ([], mem0, []) with
       | None => None
       | Some (Raise e) => Some (Raise e)
       | Some (Ok w) => Some (Ok ((perf_counter 1%nat - perf_counter 0%nat)%Q, w.1.2))
       end) ∧
  (∀ sizes, length (grid sizes) = foldr Nat.mul 1%nat (Z.to_nat <$> rev sizes)) ∧
  (∀ sizes t, t ∈ grid sizes ↔ Forall2 (λ x n, 0 ≤ x < n) t (rev sizes)) ∧
  (∀ uops trace exec_alu truncate as_const wmma_model perf_counter fuel bufs
     global_size local_size vals mem0 n,
     n ∈ global_size → n ≤ 0 →
     call uops trace exec_alu truncate as_const wmma_model perf_counter fuel bufs
          global_size local_size vals mem0
     = Some (Ok ((perf_counter 1%nat - perf_counter 0%nat)%Q, mem0))).
Proof.
  split; [|split; [|split]].
  - intros. apply call_grid.
  - apply grid_length.
  - apply elem_of_grid.
  - intros. by eapply call_empty_grid.
Qed.

Lemma launch_grid_witness :
  call spin_prog false add_alu no_truncate id_const no_wmma tick 0 [] [4; 0; 2]
       [1; 1; 1] [] [[1; 2; 3]]
  = Some (Ok ((tick 1%nat - tick 0%nat)%Q, [[1; 2; 3]])).
Proof.
  apply (proj2 (proj2 (proj2 launch_grid)) spin_prog false add_alu no_truncate
           id_const no_wmma tick 0%nat [] [4; 0; 2] [1; 1; 1] [] [[1; 2; 3]] 0).
  - vm_compute. set_solver.
  - lia.
Defined.

(** ** [SPECIAL] *)

Lemma list_ascii_app s t :
  list_ascii_of_string (s +:+ t) = list_ascii_of_string s ++ list_ascii_of_string t.
Proof. induction s as [|a s IH]; simpl; [done|]. by rewrite IH. Qed.

Lemma py_index_last {A} (l : list A) (x : A) : py_index (l ++ [x]) (-1) = Ok x.
Proof.
  unfold py_index. rewrite length_app. simpl length.
  change (-1 <? 0) with true. cbv iota.
  destruct (Z.ltb_spec (-1 + Z.of_nat (length l + 1)) 0); [lia|].
  destruct (Z.leb_spec (Z.of_nat (length l + 1)) (-1 + Z.of_nat (length l + 1))); [lia|].
  simpl. replace (Z.to_nat (-1 + Z.of_nat (length l + 1))) with (length l) by lia.
  by rewrite list_lookup_middle.
Qed.

Lemma py_index_last_cons {A} (a : A) (l : list A) (x : A) :
  py_index (a :: l ++ [x]) (-1) = Ok x.
Proof. apply (py_index_last (a :: l)). Qed.

Lemma digit_of_nat (d : nat) : (d ≤ 9)%nat → digit (ascii_of_nat (48 + d)) = Ok (Z.of_nat d).
Proof.
  intros H. do 10 (destruct d as [|d]; [reflexivity|]). lia.
Qed.

Lemma axis_name_chars a p d :
  list_ascii_of_string (axis_name (String a p) d)
  = a :: list_ascii_of_string p ++ [ascii_of_nat (48 + d)].
Proof. unfold axis_name. simpl. by rewrite list_ascii_app. Qed.

Lemma exec_special_global warp idxs i p d size c g0 g1 g2 g :
  idxs ∈ grid [g0; g1; g2] → [g0; g1; g2] !! d = Some g →
  ∃ x, 0 ≤ x < g ∧
       exec_special warp idxs i (ANamed (axis_name (String "g" p) d) size) c
       = Ok (bind_new i (replicate (length warp) (VInt x)) c).
Proof.
  intros Ht Hd. destruct (grid_axis _ _ _ _ _ _ Ht Hd) as (x & Hx & Hb).
  exists x. split; [done|]. unfold exec_special. rewrite axis_name_chars.
  change (py_index (?a :: ?l) 0) with (Ok a). rewrite bind_Ok.
  rewrite bool_decide_true by done.
  rewrite py_index_last_cons, bind_Ok.
  assert (d ≤ 9)%nat by (apply lookup_lt_Some in Hd; simpl in Hd; lia).
  rewrite digit_of_nat, bind_Ok, Hx by done. done.
Qed.

Lemma exec_special_local idxs i p d size c l0 l1 l2 l :
  [l0; l1; l2] !! d = Some l →
  ∃ xs, length xs = length (grid [l0; l1; l2]) ∧ Forall (λ x, 0 ≤ x < l) xs ∧
        (∀ k t, grid [l0; l1; l2] !! k = Some t →
                ∃ x, xs !! k = Some x ∧ py_index t (2 - Z.of_nat d) = Ok x) ∧
        exec_special (grid [l0; l1; l2]) idxs i
          (ANamed (axis_name (String "l" p) d) size) c
        = Ok (bind_new i (VInt <$> xs) c).
Proof.
  intros Hd. set (w := grid [l0; l1; l2]).
  set (pick := λ t : list Z, match py_index t (2 - Z.of_nat d) with
                             | Ok x => x | Raise _ => 0 end).
  assert (∀ t, t ∈ w → py_index t (2 - Z.of_nat d) = Ok (pick t) ∧ 0 ≤ pick t < l)
    as Hpick.
  { intros t Ht. destruct (grid_axis _ _ _ _ _ _ Ht Hd) as (x & Hx & Hb).
    unfold pick. by rewrite Hx. }
  exists (map pick w). split; [by rewrite length_map|]. split; [|split].
  - apply Forall_forall. intros x (t & -> & Ht)%list_elem_of_fmap.
    by apply Hpick.
  - intros k t Hk. exists (pick t). split.
    + by rewrite list_lookup_fmap, Hk.
    + apply Hpick. by eapply list_elem_of_lookup_2.
  - unfold exec_special. rewrite axis_name_chars.
    change (py_index (?a :: ?l) 0) with (Ok a). rewrite bind_Ok.
    rewrite bool_decide_false by done. rewrite bool_decide_true by done.
    rewrite py_index_last_cons, bind_Ok.
    assert (d ≤ 9)%nat by (apply lookup_lt_Some in Hd; simpl in Hd; lia).
    rewrite digit_of_nat, bind_Ok by done.
    rewrite (mapR_Ok _ pick); [done|]. intros t Ht. by apply Hpick.
Qed.



(** ** Instructions the interpreter refuses *)

Lemma operands_unfold uops {A} (tbl : gmap nat A) v idp :
  operands uops tbl (v :: idp)
  = match uops !! v with
    | None => Raise IndexError
    | Some (u, _, _, _) =>
        if void_ops u then operands uops tbl idp
        else match tbl !! v with
             | Some x => operands uops tbl idp ≫= λ xs, Ok (x :: xs)
             | None => Raise KeyError
             end
    end.
Proof. reflexivity. Qed.

Lemma operands_KeyError uops {A} (tbl : gmap nat A) idp v u d i a :
  Forall (λ v, is_Some (uops !! v)) idp →
  v ∈ idp → uops !! v = Some (u, d, i, a) → void_ops u = false → tbl !! v = None →
  operands uops tbl idp = Raise KeyError.
Proof.
  intros Hall Hv Hu Hvoid Hnone.
  induction idp as [|v0 idp IH]; [by apply elem_of_nil in Hv|].
  apply Forall_cons in Hall as [[[[[u0 d0] i0] a0] Hx] Hall].
  assert (uops !! v0 = Some (u0, d0, i0, a0)) as Hu0 by exact Hx.
  rewrite operands_unfold, Hu0.
  destruct (decide (v = v0)) as [<-|Hne].
  - rewrite Hu in Hu0. injection Hu0 as <- <- <- <-. by rewrite Hvoid, Hnone.
  - apply elem_of_cons in Hv as [?|Hv]; [done|].
    destruct (void_ops u0); [by apply IH|].
    destruct (tbl !! v0); [|done]. by rewrite IH.
Qed.

Section Refused.
Variable uops : list UOp.
Variable warp : list (list Z).
Variable idxs : list Z.
Variable trace : bool.
Variable exec_alu : Arg → DType → list Value → Res Value.
Variable truncate : DType → option (Value → Res Value).
Variable as_const : Value → DType → Res Value.
Variable wmma_model :
  nat → list Value → string → list (list Value) → Res (Value * list (list Value)).

Local Abbreviation step' :=
  (step uops warp idxs trace exec_alu truncate as_const wmma_model).

Lemma step_KeyError c uop dtype idp arg v u d i a :
  uops !! pc c = Some (uop, dtype, idp, arg) → uop ≠ DEFINE_ACC →
  Forall (λ v, is_Some (uops !! v)) idp →
  v ∈ idp → uops !! v = Some (u, d, i, a) → void_ops u = false → ul c !! v = None →
  step' c = Raise KeyError.
Proof.
  intros Hu Hacc Hall Hv Huv Hvoid Hnone. unfold step. rewrite Hu.
  rewrite bool_decide_false by done. rewrite bind_Ok.
  by rewrite (operands_KeyError uops (ul c) idp v u d i a).
Qed.

Lemma step_needs_dtype c uop idp arg inp dtp :
  uops !! pc c = Some (uop, None, idp, arg) → uop ≠ DEFINE_ACC → void_ops uop = false →
  operands uops (ul c) idp = Ok inp → operands uops (dl c) idp = Ok dtp →
  step' c = Raise AssertionError.
Proof.
  intros Hu Hacc Hvoid Hinp Hdtp. unfold step. rewrite Hu.
  rewrite bool_decide_false by done. rewrite bind_Ok, Hinp, bind_Ok, Hdtp, bind_Ok.
  by destruct uop.
Qed.

Lemma step_needs_result c tag dtype idp arg inp dtp :
  uops !! pc c = Some (OTHER tag, Some dtype, idp, arg) →
  operands uops (ul c) idp = Ok inp → operands uops (dl c) idp = Ok dtp →
  ul c !! pc c = None →
  step' c = Raise AssertionError.
Proof.
  intros Hu Hinp Hdtp Hnone. unfold step. rewrite Hu.
  rewrite bool_decide_false by done. rewrite bind_Ok, Hinp, bind_Ok, Hdtp, bind_Ok.
  cbv zeta. rewrite bind_Ok.
  assert (ul (set_dl <[pc c:=dtype]>
                (if trace then set_stdout (stdout c ++ [pc c]) c else c)) !! pc c = None)
    as Hn by (by destruct trace).
  rewrite bool_decide_false; [done|]. rewrite Hn. by intros [? ?].
Qed.
End Refused.

(** X13. What a turn refuses.  An operand that is not a void instruction
    and has no result yet raises [KeyError] before anything is done; an
    instruction outside the void set that carries no dtype raises
    [AssertionError]; and so does an instruction no handler knows, for
    leaving no result. *)
Theorem malformed_instruction_raises :
  ∀ uops warp idxs trace exec_alu truncate as_const wmma_model c,
    (∀ uop dtype idp arg v u d i a,
       uops !! pc c = Some (uop, dtype, idp, arg) → uop ≠ DEFINE_ACC →
       Forall (λ v, is_Some (uops !! v)) idp →
       v ∈ idp → uops !! v = Some (u, d, i, a) → void_ops u = false →
       ul c !! v = None →
       step uops warp idxs trace exec_alu truncate as_const wmma_model c
       = Raise KeyError) ∧
    (∀ uop idp arg inp dtp,
       uops !! pc c = Some (uop, None, idp, arg) → uop ≠ DEFINE_ACC →
       void_ops uop = false →
       operands uops (ul c) idp = Ok inp → operands uops (dl c) idp = Ok dtp →
       step uops warp idxs trace exec_alu truncate as_const wmma_model c
       = Raise AssertionError) ∧
    (∀ tag dtype idp arg inp dtp,
       uops !! pc c = Some (OTHER tag, Some dtype, idp, arg) →
       operands uops (ul c) idp = Ok inp → operands uops (dl c) idp = Ok dtp →
       ul c !! pc c = None →
       step uops warp idxs trace exec_alu truncate as_const wmma_model c
       = Raise AssertionError).
Proof.
  intros. split; [|split].
  - intros. by eapply step_KeyError.
  - intros. by eapply step_needs_dtype.
  - intros. by eapply step_needs_result.
Qed.

Lemma malformed_instruction_raises_witness :
  step [ (CONST, Some int32, [], AVal (VInt 1));
         (ALU, Some int32, [1; 0]%nat, ADD) ]
       two_lanes origin false add_alu no_truncate id_const no_wmma
       (set_pc 1 (bind_new 0 (lanes 2 1) (init_ctx [] [] empty_world)))
  = Raise KeyError.
Proof.
  apply (proj1 (malformed_instruction_raises
                  [ (CONST, Some int32, [], AVal (VInt 1));
                    (ALU, Some int32, [1; 0]%nat, ADD) ]
                  two_lanes origin false add_alu no_truncate id_const no_wmma
                  (set_pc 1 (bind_new 0 (lanes 2 1) (init_ctx [] [] empty_world))))
           ALU (Some int32) [1; 0]%nat ADD 1%nat ALU (Some int32) [1; 0]%nat ADD).
  - reflexivity.
  - discriminate.
  - repeat constructor; by eexists.
  - set_solver.
  - reflexivity.
  - reflexivity.
  - reflexivity.
Defined.

(** ** [BITCAST] between integers *)

Lemma congruent_in_window (a b m lo : Z) :
  0 < m → (a - b) `mod` m = 0 → lo ≤ a < lo + m → lo ≤ b < lo + m → a = b.
Proof.
  intros Hm Hc Ha Hb. apply Z.mod_divide in Hc; [|lia].
  destruct Hc as [k Hk]. assert (k = 0) by nia. lia.
Qed.

Lemma bitcast_int_wraps src dst signed d truth z bs :
  fmt_class src = CInt signed → fmt_class dst = CInt (negb (is_unsigned d)) →
  calcsize src = calcsize dst → calcsize dst = Pos.to_nat (itemsize d) →
  pack_item true src truth (VInt z) = Ok bs →
  unpack_item dst bs = VInt (int_wrap d z).
Proof.
  intros Hsrc Hdst Hsz Hd. unfold pack_item. rewrite Hsrc. cbn [as_index].
  destruct (int_range signed (calcsize src) z); [|done]. intros [= <-].
  unfold unpack_item. rewrite Hdst, le_int_le_bytes. unfold fmt_bits.
  rewrite Hsz, Z.mod_mod by (apply Z.pow_nonzero; lia).
  set (b := 8 * Z.of_nat (calcsize dst)).
  assert (Z.pos (itemsize d) * 8 = b) as Hb by (unfold b; lia).
  assert (0 < b) by lia.
  assert (2 ^ b = 2 * 2 ^ (b - 1)) as Hpow.
  { rewrite <- Z.pow_succ_r by lia. f_equal. lia. }
  assert (0 < 2 ^ (b - 1)) by (apply Z.pow_pos_nonneg; lia).
  pose proof (int_wrap_spec d z) as [Hc Hr]. cbv zeta in Hc, Hr. rewrite Hb in Hc, Hr.
  pose proof (Z.mod_pos_bound z (2 ^ b)) as Hu.
  assert ((z `mod` 2 ^ b - z) `mod` 2 ^ b = 0) as Hcu.
  { rewrite Zminus_mod, Z.mod_mod, Z.sub_diag by lia. apply Z.mod_0_l. lia. }
  assert (∀ v, (v - z) `mod` 2 ^ b = 0 → (v - int_wrap d z) `mod` 2 ^ b = 0) as Hcong.
  { intros v Hv. replace (v - int_wrap d z) with ((v - z) - (int_wrap d z - z)) by lia.
    rewrite Zminus_mod, Hv, Hc. by apply Z.mod_0_l; lia. }
  destruct (is_unsigned d); simpl; f_equal.
  - apply (congruent_in_window _ _ (2 ^ b) 0); [lia | by apply Hcong | lia | lia].
  - destruct (Z.leb_spec (2 ^ (b - 1)) (z `mod` 2 ^ b)).
    + apply (congruent_in_window _ _ (2 ^ b) (- 2 ^ (b - 1))); [lia | | lia | lia].
      apply Hcong.
      replace (z `mod` 2 ^ b - 2 ^ b - z) with (z `mod` 2 ^ b - z + (-1) * 2 ^ b) by lia.
      by rewrite Z.mod_add by lia.
    + apply (congruent_in_window _ _ (2 ^ b) (- 2 ^ (b - 1))); [lia | by apply Hcong | lia | lia].
Qed.

Lemma struct_pack_length warp heap mem f xs bs :
  struct_pack warp heap mem f xs = Ok bs → length bs = (length warp * calcsize f)%nat.
Proof.
  unfold struct_pack, warp_size. case_bool_decide as Hlen; [|done].
  destruct (mapR _ xs) as [bss|] eqn:E; [|done]. rewrite bind_Ok. intros [= <-].
  assert (Forall (λ b, length b = calcsize f) bss) as Hall.
  { eapply mapR_Forall; [|exact E]. intros x y Hy. by eapply pack_item_length. }
  rewrite (concat_length_chunks _ _ Hall). apply mapR_length in E. lia.
Qed.

Lemma bitcast_sizes_differ warp truncate as_const i dtype inp dtp c d0 src dst :
  (1 ≤ length warp)%nat →
  py_index dtp 0 = Ok d0 → fmt d0 = Some src → fmt dtype = Some dst →
  calcsize src ≠ calcsize dst →
  is_ok (exec_cast warp truncate as_const true i dtype inp dtp c) = false ∧
  ∀ v0 xs bs,
    py_index inp 0 = Ok v0 → py_iter (heap c) (mem c) v0 = Ok xs →
    struct_pack warp (heap c) (mem c) src xs = Ok bs →
    exec_cast warp truncate as_const true i dtype inp dtp c = Raise StructError.
Proof.
  intros Hw Hd0 Hsrc Hdst Hne.
  assert (∀ xs bs, struct_pack warp (heap c) (mem c) src xs = Ok bs →
                   struct_unpack warp dst bs = Raise StructError) as Hun.
  { intros xs bs Hp. apply struct_pack_length in Hp.
    unfold struct_unpack, warp_size. rewrite bool_decide_false; [done|]. nia. }
  unfold exec_cast. rewrite Hd0, bind_Ok, Hsrc, Hdst. split.
  - destruct (py_index inp 0 ≫= py_iter (heap c) (mem c)) as [xs|]; [|done].
    rewrite bind_Ok.
    destruct (struct_pack warp (heap c) (mem c) src xs) as [bs|] eqn:Hp; [|done].
    rewrite bind_Ok. by rewrite (Hun xs bs).
  - intros v0 xs bs Hv0 Hxs Hp. rewrite Hv0, bind_Ok, Hxs, bind_Ok, Hp, bind_Ok.
    by rewrite (Hun xs bs).
Qed.

(** X14. Between integer formats of one size a [BITCAST] gives what the
    integer [CAST] wrap gives: the value brought into the range of the
    destination modulo 2 to the number of bits.  Between formats of
    different sizes a [BITCAST] never returns: once the lanes are packed,
    [struct.unpack] raises for the length of the bytes. *)
Theorem bitcast_of_integers :
  (∀ src dst signed d truth z bs,
     fmt_class src = CInt signed → fmt_class dst = CInt (negb (is_unsigned d)) →
     calcsize src = calcsize dst → calcsize dst = Pos.to_nat (itemsize d) →
     pack_item true src truth (VInt z) = Ok bs →
     unpack_item dst bs = VInt (int_wrap d z)) ∧
  (∀ warp truncate as_const i dtype inp dtp c d0 src dst,
     (1 ≤ length warp)%nat →
     py_index dtp 0 = Ok d0 → fmt d0 = Some src → fmt dtype = Some dst →
     calcsize src ≠ calcsize dst →
     is_ok (exec_cast warp truncate as_const true i dtype inp dtp c) = false ∧
     ∀ v0 xs bs,
       py_index inp 0 = Ok v0 → py_iter (heap c) (mem c) v0 = Ok xs →
       struct_pack warp (heap c) (mem c) src xs = Ok bs →
       exec_cast warp truncate as_const true i dtype inp dtp c = Raise StructError).
Proof.
  split.
  - intros src dst signed d truth z bs H1 H2 H3 H4 H5.
    exact (bitcast_int_wraps src dst signed d truth z bs H1 H2 H3 H4 H5).
  - intros. by eapply bitcast_sizes_differ.
Qed.

Lemma bitcast_of_integers_witness :
  unpack_item FI [255; 255; 255; 255] = VInt (int_wrap uint32 (-1)).
Proof.
  apply (proj1 bitcast_of_integers Fi FI true uint32 (λ _, true) (-1)
           [255; 255; 255; 255]); reflexivity.
Defined.

(** ** [VECTORIZE] and [GEP] *)

Lemma exec_gep_vectorize i i' inp (k : nat) x c :
  inp !! k = Some x →
  ul (bind_new i inp c) !! i = Some (VList (length (heap c))) ∧
  exec_gep i' (AIdx [Z.of_nat k]) [VList (length (heap c))] (bind_new i inp c)
  = Ok (set_ul <[i' := x]> (bind_new i inp c)).
Proof.
  intros Hk. unfold bind_new, alloc. cbn [ul set_ul set_heap].
  split; [by rewrite lookup_insert_eq|].
  unfold exec_gep. rewrite bool_decide_true by done.
  unfold assert_. rewrite bind_Ok.
  change (py_index [?v] 0) with (Ok v). rewrite !bind_Ok.
  cbn [py_getitem heap set_ul set_heap]. rewrite list_lookup_middle by done.
  by rewrite (py_index_nat inp k x Hk), bind_Ok.
Qed.

(** X15. A [GEP] with index [k] of the result of a [VECTORIZE] is the
    [k]-th operand of the [VECTORIZE] itself, the same object and not a copy
    of its lanes. *)
Theorem gep_of_vectorize :
  ∀ i i' inp (k : nat) x c,
    inp !! k = Some x →
    ul (bind_new i inp c) !! i = Some (VList (length (heap c))) ∧
    exec_gep i' (AIdx [Z.of_nat k]) [VList (length (heap c))] (bind_new i inp c)
    = Ok (set_ul <[i' := x]> (bind_new i inp c)).
Proof. intros. by apply exec_gep_vectorize. Qed.

Lemma gep_of_vectorize_witness :
  exec_gep 3 (AIdx [1]) [VList 0] (bind_new 2 [VList 7; VList 8] (init_ctx [] [] empty_world))
  = Ok (set_ul <[3%nat := VList 8]>
          (bind_new 2 [VList 7; VList 8] (init_ctx [] [] empty_world))).
Proof.
  apply (proj2 (gep_of_vectorize 2%nat 3%nat [VList 7; VList 8] 1%nat (VList 8)
                  (init_ctx [] [] empty_world) eq_refl)).
Defined.

(** ** Rendering *)

Lemma mapR_Forall2 {A B} (f : A → Res B) (l : list A) (ys : list B) :
  mapR f l = Ok ys → Forall2 (λ x y, f x = Ok y) l ys.
Proof.
  revert ys. induction l as [|x l IH]; intros ys; simpl.
  - intros [= <-]. constructor.
  - destruct (f x) as [y|] eqn:E; [|discriminate]. rewrite bind_Ok.
    destruct (mapR f l) as [zs|]; [|discriminate].
    rewrite bind_Ok. intros [= <-]. constructor; eauto.
Qed.

Lemma mapR_is_Ok {A B} (f : A → Res B) (l : list A) :
  (∀ x, x ∈ l → ∃ y, f x = Ok y) → ∃ ys, mapR f l = Ok ys.
Proof.
  induction l as [|x l IH]; intros Hf; simpl; [eauto|].
  destruct (Hf x) as [y ->]; [apply list_elem_of_here|]. rewrite bind_Ok.
  destruct IH as [ys ->]; [|rewrite bind_Ok; eauto].
  intros z Hz. apply Hf. by apply list_elem_of_further.
Qed.

Lemma mapR_Raise_inv {A B} (f : A → Res B) (l : list A) e :
  mapR f l = Raise e → ∃ x, x ∈ l ∧ f x = Raise e.
Proof.
  induction l as [|x l IH]; simpl; [done|].
  destruct (f x) as [y|e'] eqn:E.
  - rewrite bind_Ok. destruct (mapR f l) as [ys|e'']; [done|].
    rewrite bind_Raise. intros [= ->]. destruct IH as (z & Hz & Hfz); [done|].
    exists z. split; [by apply list_elem_of_further | done].
  - rewrite bind_Raise. intros [= ->]. exists x. split; [apply list_elem_of_here | done].
Qed.

Section Rendering.
Context {U : Type} `{EqDecision U}.
Variable op : U → UOps.
Variable dtype : U → option DType.
Variable src : U → list U.
Variable arg : U → Arg.

Lemma index_Ok (l : list U) (v : U) (i : nat) :
  index l v = Ok i ↔ l !! i = Some v ∧ ∀ j, (j < i)%nat → l !! j ≠ Some v.
Proof.
  unfold index. destruct (list_find (λ x, x = v) l) as [[i' x]|] eqn:E.
  - apply list_find_Some in E as (Hl & -> & Hfirst). split.
    + intros [= <-]. split; [done|]. intros j Hj Hv. by apply (Hfirst j v).
    + intros [Hi Hmin]. f_equal.
      destruct (Nat.lt_trichotomy i i') as [Hlt|[->|Hgt]]; [|done|].
      * by destruct (Hfirst i v Hi Hlt).
      * by destruct (Hmin i' Hgt).
  - apply list_find_None in E. split; [done|]. intros [Hi _].
    rewrite Forall_forall in E. destruct (E v); [|done].
    by eapply list_elem_of_lookup_2.
Qed.

Lemma index_in (l : list U) (v : U) : v ∈ l → ∃ i, index l v = Ok i.
Proof.
  intros Hv. unfold index.
  destruct (list_find (λ x, x = v) l) as [[i x]|] eqn:E; [eauto|].
  apply list_find_None in E. rewrite Forall_forall in E. by destruct (E v).
Qed.

Lemma index_Raise (l : list U) (v : U) e : index l v = Raise e → e = ValueError ∧ v ∉ l.
Proof.
  unfold index. destruct (list_find (λ x, x = v) l) as [[i x]|] eqn:E; [done|].
  intros [= <-]. split; [done|]. intros Hv. destruct (index_in l v Hv) as [i Hi].
  unfold index in Hi. by rewrite E in Hi.
Qed.

Lemma render_lookup uops lops k u :
  render op dtype src arg uops = Ok lops → uops !! k = Some u →
  ∃ idp, lops !! k = Some (op u, dtype u, idp, arg u) ∧
         Forall2 (λ v i, uops !! i = Some v ∧ ∀ j, (j < i)%nat → uops !! j ≠ Some v)
                 (src u) idp.
Proof.
  intros Hr Hk. apply mapR_Forall2 in Hr.
  destruct (Forall2_lookup_l _ _ _ _ _ Hr Hk) as (y & Hy & Hf).
  apply bind_inv_Ok in Hf as (idp & Hidp & [= <-]).
  exists idp. split; [done|]. apply mapR_Forall2 in Hidp.
  eapply Forall2_impl; [exact Hidp|]. intros v i Hi. by apply index_Ok.
Qed.

Lemma render_length uops lops :
  render op dtype src arg uops = Ok lops → length lops = length uops.
Proof. apply mapR_length. Qed.

Lemma render_in_range uops lops :
  render op dtype src arg uops = Ok lops → operands_in_range lops.
Proof.
  intros Hr. pose proof (render_length _ _ Hr) as Hlen.
  apply Forall_forall. intros l Hin.
  apply list_elem_of_lookup in Hin as [k Hk].
  destruct (lookup_lt_is_Some_2 uops k) as [u Hu];
    [rewrite <- Hlen; by eapply lookup_lt_Some|].
  destruct (render_lookup _ _ _ _ Hr Hu) as (idp & Hl & Hidp).
  pose proof (eq_trans (eq_sym Hk) Hl) as Heq. injection Heq as ->. simpl.
  apply Forall_forall. intros i Hi.
  apply list_elem_of_lookup in Hi as [j Hj].
  destruct (Forall2_lookup_r _ _ _ _ _ Hidp Hj) as (v & _ & Hv & _).
  apply lookup_lt_is_Some. rewrite Hlen. by eapply lookup_lt_Some.
Qed.

Lemma render_Ok uops :
  (∀ u v, u ∈ uops → v ∈ src u → v ∈ uops) → ∃ lops, render op dtype src arg uops = Ok lops.
Proof.
  intros Hclosed. apply mapR_is_Ok. intros u Hu.
  destruct (mapR_is_Ok (index uops) (src u)) as [idp ->].
  { intros v Hv. apply index_in. by eapply Hclosed. }
  rewrite bind_Ok. eauto.
Qed.

Lemma render_Raise uops e :
  render op dtype src arg uops = Raise e →
  e = ValueError ∧ ∃ u v, u ∈ uops ∧ v ∈ src u ∧ v ∉ uops.
Proof.
  intros Hr. apply mapR_Raise_inv in Hr as (u & Hu & Hr).
  destruct (mapR (index uops) (src u)) as [idp|e'] eqn:E; [done|].
  rewrite bind_Raise in Hr. injection Hr as ->.
  apply mapR_Raise_inv in E as (v & Hv & E).
  apply index_Raise in E as [-> Hnot]. split; [done|]. by exists u, v.
Qed.
End Rendering.

Lemma operands_in_range_resolve uops {A} (tbl : gmap nat A) idp :
  Forall (λ v, is_Some (uops !! v)) idp → operands uops tbl idp ≠ Raise IndexError.
Proof.
  induction 1 as [|v idp [[[[u d] i] a] Hx] _ IH]; [done|].
  assert (uops !! v = Some (u, d, i, a)) as Hu by exact Hx.
  rewrite operands_unfold, Hu. destruct (void_ops u); [done|].
  destruct (tbl !! v); [|done].
  destruct (operands uops tbl idp) as [xs|e]; [done|].
  rewrite bind_Raise. congruence.
Qed.

(** X16. [render] names every source by the first position of the list
    that holds it and keeps the order, the op, the dtype and the arg of the
    instructions.  It raises [ValueError] exactly for a source that is not
    in the list.  In a rendered program every operand position is a
    position of the program, so that the interpreter's [self.uops[v]] never
    raises [IndexError]. *)
Theorem render_names_positions :
  ∀ (U : Type) (eq_dec : EqDecision U) (op : U → UOps) (dtype : U → option DType)
    (src : U → list U) (arg : U → Arg) (uops : list U),
    (∀ lops,
       render op dtype src arg uops = Ok lops →
       length lops = length uops ∧
       (∀ k u, uops !! k = Some u →
          ∃ idp, lops !! k = Some (op u, dtype u, idp, arg u) ∧
                 Forall2 (λ v i, uops !! i = Some v ∧
                                 ∀ j, (j < i)%nat → uops !! j ≠ Some v) (src u) idp) ∧
       operands_in_range lops ∧
       (∀ (tbl : gmap nat Value) k uo d idp a,
          lops !! k = Some (uo, d, idp, a) →
          operands lops tbl idp ≠ Raise IndexError)) ∧
    (∀ e, render op dtype src arg uops = Raise e →
          e = ValueError ∧ ∃ u v, u ∈ uops ∧ v ∈ src u ∧ v ∉ uops) ∧
    ((∀ u v, u ∈ uops → v ∈ src u → v ∈ uops) →
     ∃ lops, render op dtype src arg uops = Ok lops).
Proof.
  intros U eq_dec op dtype src arg uops. split; [|split].
  - intros lops Hr. split; [by eapply render_length|]. split; [|split].
    + intros k u Hk. by eapply render_lookup.
    + by eapply render_in_range.
    + intros tbl k uo d idp a Hk. apply operands_in_range_resolve.
      pose proof (render_in_range _ _ _ _ _ _ Hr) as Hall.
      unfold operands_in_range in Hall. rewrite Forall_forall in Hall.
      apply (Hall (uo, d, idp, a)). by eapply list_elem_of_lookup_2.
  - intros e. apply render_Raise.
  - apply render_Ok.
Qed.

Lemma render_names_positions_witness : operands_in_range alu_prog.
Proof.
  apply (proj1 (render_names_positions Node _ node_op node_dtype node_src node_arg
                  [Leaf 1; Leaf 2; Plus (Leaf 1) (Leaf 2)]) alu_prog).
  reflexivity.
Defined.

(** X17. The emulation switches are tested one after the other and the
    last one set wins: [EMULATE_AMX] before [EMULATE_INTEL], [EMULATE_CUDA],
    [EMULATE_AMD] and [EMULATE_METAL]; with none set the device is
    [PYTHON].  The suffix is [INTEL] whenever [EMULATE_INTEL] is set, also
    when [EMULATE_AMX] has taken the device. *)
Theorem emulation_flags_precedence :
  ∀ env,
    PythonRenderer.device (PythonRenderer.init env)
    = (if PythonRenderer.getenv env "EMULATE_AMX" then "CLANG"
       else if PythonRenderer.getenv env "EMULATE_INTEL" then "INTEL"
       else if PythonRenderer.getenv env "EMULATE_CUDA" then "CUDA"
       else if PythonRenderer.getenv env "EMULATE_AMD" then "AMD"
       else if PythonRenderer.getenv env "EMULATE_METAL" then "METAL"
       else "PYTHON")%string ∧
    PythonRenderer.tensor_cores (PythonRenderer.init env)
    = (if PythonRenderer.getenv env "EMULATE_AMX" then Some "ClangRenderer"
       else if PythonRenderer.getenv env "EMULATE_INTEL" then Some "IntelRenderer"
       else if PythonRenderer.getenv env "EMULATE_CUDA" then Some "CUDARenderer"
       else if PythonRenderer.getenv env "EMULATE_AMD" then Some "AMDRenderer"
       else if PythonRenderer.getenv env "EMULATE_METAL" then Some "MetalRenderer"
       else None)%string ∧
    PythonRenderer.suffix (PythonRenderer.init env)
    = (if PythonRenderer.getenv env "EMULATE_INTEL" then Some "INTEL" else None)%string.
Proof.
  intros env. unfold PythonRenderer.init.
  destruct (PythonRenderer.getenv env "EMULATE_METAL"),
    (PythonRenderer.getenv env "EMULATE_AMD"),
    (PythonRenderer.getenv env "EMULATE_CUDA"),
    (PythonRenderer.getenv env "EMULATE_INTEL"),
    (PythonRenderer.getenv env "EMULATE_AMX"); done.
Qed.

(** ** The arguments of a call are handed out in order *)

Section Args.
Variable uops : list UOp.
Variable warp : list (list Z).
Variable idxs : list Z.
Variable trace : bool.
Variable exec_alu : Arg → DType → list Value → Res Value.
Variable truncate : DType → option (Value → Res Value).
Variable as_const : Value → DType → Res Value.
Variable wmma_model :
  nat → list Value → string → list (list Value) → Res (Value * list (list Value)).

Local Abbreviation step' :=
  (step uops warp idxs trace exec_alu truncate as_const wmma_model).
Local Abbreviation run' :=
  (run uops warp idxs trace exec_alu truncate as_const wmma_model).

Lemma exec_define_local_args i dtype arg c c' :
  exec_define_local warp i dtype arg c = Ok c' → same_args c c'.
Proof. unfold exec_define_local, same_args. keeps_mem. Qed.

Lemma exec_special_args i arg c c' :
  exec_special warp idxs i arg c = Ok c' → same_args c c'.
Proof. unfold exec_special, same_args. keeps_mem. Qed.

Lemma exec_const_args i arg c c' :
  exec_const warp i arg c = Ok c' → same_args c c'.
Proof. unfold exec_const, same_args. keeps_mem. Qed.

Lemma exec_define_acc_args i dtype inp c c' :
  exec_define_acc warp i dtype inp c = Ok c' → same_args c c'.
Proof. unfold exec_define_acc, same_args. keeps_mem. Qed.

Lemma exec_range_args i inp c c' b :
  exec_range warp i inp c = Ok (c', b) → same_args c c'.
Proof. unfold exec_range, same_args. keeps_mem. Qed.

Lemma exec_cast_args b i dtype inp dtp c c' :
  exec_cast warp truncate as_const b i dtype inp dtp c = Ok c' → same_args c c'.
Proof. unfold exec_cast, same_args. keeps_mem. Qed.

Lemma exec_load_args i dtype inp dtp c c' :
  exec_load i dtype inp dtp c = Ok c' → same_args c c'.
Proof. unfold exec_load, same_args. keeps_mem. Qed.

Lemma exec_assign_args i inp c c' :
  exec_assign i inp c = Ok c' → same_args c c'.
Proof. unfold exec_assign, same_args. keeps_mem. Qed.

Lemma exec_gep_args i arg inp c c' :
  exec_gep i arg inp c = Ok c' → same_args c c'.
Proof. unfold exec_gep, same_args. keeps_mem. Qed.

Lemma exec_wmma_args i arg inp c c' :
  exec_wmma warp wmma_model i arg inp c = Ok c' → same_args c c'.
Proof. unfold exec_wmma, same_args. keeps_mem. Qed.

Lemma exec_alu_uop_args i dtype arg inp dtp c c' :
  exec_alu_uop exec_alu i dtype arg inp dtp c = Ok c' → same_args c c'.
Proof. unfold exec_alu_uop, same_args. keeps_mem. Qed.

Lemma exec_define_global_pops i dtype c c' :
  exec_define_global warp i dtype c = Ok c' →
  ∃ b f, fmt dtype = Some f ∧ pbufs c = b :: pbufs c' ∧ pvals c' = pvals c ∧
         lanes_of c' i = Some (replicate (length warp) (VBuf b f)).
Proof.
  unfold exec_define_global. destruct (fmt dtype) as [f|]; [|done].
  destruct (pbufs c) as [|b rest] eqn:Hb; [done|].
  destruct (mem c !! b) as [bs|]; [|done]. case_bool_decide; [|done].
  intros [= <-]. exists b, f. split; [done|].
  unfold lanes_of, bind_new, alloc, warp_size. cbn [pbufs pvals ul heap set_ul set_heap set_pbufs].
  rewrite lookup_insert_eq, list_lookup_middle by done. done.
Qed.

Lemma exec_define_var_pops i c c' :
  exec_define_var warp i c = Ok c' →
  ∃ v, pvals c = v :: pvals c' ∧ pbufs c' = pbufs c ∧
       lanes_of c' i = Some (replicate (length warp) (VInt v)).
Proof.
  unfold exec_define_var. destruct (pvals c) as [|v rest] eqn:Hv; [done|].
  intros [= <-]. exists v.
  unfold lanes_of, bind_new, alloc, warp_size. cbn [pbufs pvals ul heap set_ul set_heap set_pvals].
  rewrite lookup_insert_eq, list_lookup_middle by done. done.
Qed.

(** What a turn that returns has done to the argument lists. *)
Lemma step_args c c' :
  step' c = Ok c' →
  match uops !! pc c with
  | Some (DEFINE_GLOBAL, Some d, _, _) =>
      ∃ b f, fmt d = Some f ∧ pbufs c = b :: pbufs c' ∧ pvals c' = pvals c ∧
             lanes_of c' (pc c) = Some (replicate (length warp) (VBuf b f))
  | Some (DEFINE_VAR, _, _, _) =>
      ∃ v, pvals c = v :: pvals c' ∧ pbufs c' = pbufs c ∧
           lanes_of c' (pc c) = Some (replicate (length warp) (VInt v))
  | _ => same_args c c'
  end.
Proof.
  unfold step.
  destruct (uops !! pc c) as [[[[uop dtype] idp] arg]|] eqn:Hu; [|done].
  case_res (if bool_decide (uop = DEFINE_ACC) then py_index idp 0 ≫= λ x, Ok [x]
            else Ok idp) as idp'.
  case_res (operands uops (ul c) idp') as inp.
  case_res (operands uops (dl c) idp') as dtp.
  cbv zeta.
  set (c0 := if trace then set_stdout (stdout c ++ [pc c]) c else c).
  assert (pbufs c0 = pbufs c ∧ pvals c0 = pvals c) as [Hb0 Hv0]
    by (unfold c0; by destruct trace).
  destruct uop.
  all: try (destruct dtype as [dtype|]; [|done];
            set (c1 := set_dl <[pc c:=dtype]> c0);
            assert (pbufs c1 = pbufs c ∧ pvals c1 = pvals c) as [Hb1 Hv1] by done).
  all: intros Hs.
  all: try (apply bind_inv_Ok in Hs as ([c2 b] & H1 & H2)).
  all: try (apply bind_inv_Ok in H1 as (c3 & Hh & Heq); injection Heq as <- <-).
  all: try (apply bind_inv_Ok in H2 as (u & _ & Heq); injection Heq as <-).
  all: try (apply exec_define_local_args in Hh as [Hb2 Hv2]).
  all: try (apply exec_special_args in Hh as [Hb2 Hv2]).
  all: try (apply exec_const_args in Hh as [Hb2 Hv2]).
  all: try (apply exec_define_acc_args in Hh as [Hb2 Hv2]).
  all: try (apply exec_cast_args in Hh as [Hb2 Hv2]).
  all: try (apply exec_load_args in Hh as [Hb2 Hv2]).
  all: try (apply exec_assign_args in Hh as [Hb2 Hv2]).
  all: try (apply exec_gep_args in Hh as [Hb2 Hv2]).
  all: try (apply exec_wmma_args in Hh as [Hb2 Hv2]).
  all: try (apply exec_alu_uop_args in Hh as [Hb2 Hv2]).
  all: try (unfold same_args; cbn [pbufs pvals set_pc]; split; congruence).
  all: try (injection Hs as <-; unfold same_args; cbn [pbufs pvals set_pc]; by split).
  all: try (apply bind_inv_Ok in Hs as (x & _ & Hs); injection Hs as <-;
            unfold same_args; cbn [pbufs pvals set_pc set_loop_ends]; by split).
  all: try (injection H2 as <-; unfold same_args;
            cbn [pbufs pvals set_pc set_mem set_heap]; by split).
  all: try (injection H1 as <- <-;
            apply bind_inv_Ok in H2 as (u & _ & Heq); injection Heq as <-;
            unfold same_args, bind_new, alloc; cbn [pbufs pvals set_pc set_ul set_heap];
            by split).
  - apply exec_define_global_pops in Hh as (b0 & f & Hf & Hpb & Hpv & Hl).
    exists b0, f. unfold lanes_of in *. cbn [pbufs pvals ul heap set_pc].
    repeat split; try done; congruence.
  - apply exec_define_var_pops in Hh as (v & Hpv & Hpb & Hl).
    exists v. unfold lanes_of in *. cbn [pbufs pvals ul heap set_pc].
    repeat split; try done; congruence.
  - apply exec_range_args in H1 as [Hb2 Hv2]. destruct b.
    + injection H2 as <-. split; congruence.
    + apply bind_inv_Ok in H2 as (u & _ & Heq). injection Heq as <-.
      unfold same_args. cbn [pbufs pvals set_pc]. split; congruence.
Qed.

Lemma step_args_suffix c c' :
  step' c = Ok c' → pbufs c' `suffix_of` pbufs c ∧ pvals c' `suffix_of` pvals c.
Proof.
  intros Hs. apply step_args in Hs.
  destruct (uops !! pc c) as [[[[[] [d|]] idp] arg]|];
    try (destruct Hs as [-> ->]; done).
  - destruct Hs as (b & f & _ & -> & -> & _). split; [by apply suffix_cons_r | done].
  - destruct Hs as (v & -> & -> & _). split; [done | by apply suffix_cons_r].
  - destruct Hs as (v & -> & -> & _). split; [done | by apply suffix_cons_r].
Qed.

Lemma run_args_suffix fuel c c' :
  run' fuel c = Some (Ok c') →
  pbufs c' `suffix_of` pbufs c ∧ pvals c' `suffix_of` pvals c.
Proof.
  revert c. induction fuel as [|fuel IH]; intros c; simpl.
  - case_bool_decide; [done|]. by intros [= <-].
  - case_bool_decide; [|by intros [= <-]].
    destruct (step' c) as [c1|e] eqn:Hs; [|done]. intros Hr.
    apply step_args_suffix in Hs as [Hs1 Hs2]. apply IH in Hr as [Hr1 Hr2].
    split; by etrans.
Qed.

Lemma step_define_global_exhausted c d f idp arg inp dtp :
  uops !! pc c = Some (DEFINE_GLOBAL, Some d, idp, arg) → fmt d = Some f →
  operands uops (ul c) idp = Ok inp → operands uops (dl c) idp = Ok dtp →
  pbufs c = [] → step' c = Raise IndexError.
Proof.
  intros Hu Hf Hinp Hdtp Hb. unfold step. rewrite Hu.
  rewrite bool_decide_false by done. rewrite bind_Ok, Hinp, bind_Ok, Hdtp, bind_Ok.
  cbv zeta. unfold exec_define_global. rewrite Hf.
  by destruct trace; cbn [pbufs set_dl set_stdout]; rewrite Hb.
Qed.

Lemma step_define_var_exhausted c d idp arg inp dtp :
  uops !! pc c = Some (DEFINE_VAR, Some d, idp, arg) →
  operands uops (ul c) idp = Ok inp → operands uops (dl c) idp = Ok dtp →
  pvals c = [] → step' c = Raise IndexError.
Proof.
  intros Hu Hinp Hdtp Hv. unfold step. rewrite Hu.
  rewrite bool_decide_false by done. rewrite bind_Ok, Hinp, bind_Ok, Hdtp, bind_Ok.
  cbv zeta. unfold exec_define_var.
  by destruct trace; cbn [pvals set_dl set_stdout]; rewrite Hv.
Qed.
End Args.

(** X18. The buffers and values of a call are handed out in order, each at
    most once per coordinate: a [DEFINE_GLOBAL] that returns has taken the
    first buffer left and given every lane a view of it, a [DEFINE_VAR] the
    first value left, and no other instruction touches the two lists; over a
    whole run what is left is a suffix of what was given.  With nothing
    left, either raises [IndexError]. *)
Theorem arguments_in_order :
  ∀ uops warp idxs trace exec_alu truncate as_const wmma_model c,
    (∀ c',
       step uops warp idxs trace exec_alu truncate as_const wmma_model c = Ok c' →
       match uops !! pc c with
       | Some (DEFINE_GLOBAL, Some d, _, _) =>
           ∃ b f, fmt d = Some f ∧ pbufs c = b :: pbufs c' ∧ pvals c' = pvals c ∧
                  lanes_of c' (pc c) = Some (replicate (length warp) (VBuf b f))
       | Some (DEFINE_VAR, _, _, _) =>
           ∃ v, pvals c = v :: pvals c' ∧ pbufs c' = pbufs c ∧
                lanes_of c' (pc c) = Some (replicate (length warp) (VInt v))
       | _ => same_args c c'
       end) ∧
    (∀ fuel c',
       run uops warp idxs trace exec_alu truncate as_const wmma_model fuel c
       = Some (Ok c') →
       pbufs c' `suffix_of` pbufs c ∧ pvals c' `suffix_of` pvals c) ∧
    (∀ d f idp arg inp dtp,
       uops !! pc c = Some (DEFINE_GLOBAL, Some d, idp, arg) → fmt d = Some f →
       operands uops (ul c) idp = Ok inp → operands uops (dl c) idp = Ok dtp →
       pbufs c = [] →
       step uops warp idxs trace exec_alu truncate as_const wmma_model c
       = Raise IndexError) ∧
    (∀ d idp arg inp dtp,
       uops !! pc c = Some (DEFINE_VAR, Some d, idp, arg) →
       operands uops (ul c) idp = Ok inp → operands uops (dl c) idp = Ok dtp →
       pvals c = [] →
       step uops warp idxs trace exec_alu truncate as_const wmma_model c
       = Raise IndexError).
Proof.
  intros uops warp idxs trace exec_alu truncate as_const wmma_model c.
  split; [|split; [|split]].
  - intros c'. apply step_args.
  - intros fuel c'. apply run_args_suffix.
  - intros. by eapply step_define_global_exhausted.
  - intros. by eapply step_define_var_exhausted.
Qed.

Lemma arguments_in_order_witness :
  step [ (DEFINE_VAR, Some int32, [], ANone) ] two_lanes origin false add_alu
       no_truncate id_const no_wmma (init_ctx [] [] empty_world)
  = Raise IndexError.
Proof.
  apply (proj2 (proj2 (proj2 (arguments_in_order
                  [ (DEFINE_VAR, Some int32, [], ANone) ] two_lanes origin false add_alu
                  no_truncate id_const no_wmma (init_ctx [] [] empty_world))))
           int32 [] ANone [] []); reflexivity.
Defined.
